(** * FastStorageProvider

    A shallow embedding of [src/storage/fastStorageProvider.ts], the
    file-backed table store behind the query layer, and the properties of
    its cache, write queue, flusher and secondary index.

    The provider runs on one event loop: between two [await]s its code is
    not interrupted.  The embedding follows that.  The body of each method up
    to its first [await], and each continuation after one, is a function on
    the state of the provider; an [event] is one turn of the loop (a call by
    a user of the provider, the flush timer firing, a file operation
    settling), and what the environment decides (the clock, the order in
    which file operations settle, whether they fail) is a parameter of the
    event.  Arrays and records live in a heap, so that what the provider
    copies and what it shares with its callers is visible.

    The events are those of a provider after [connect]; [connect] itself,
    with the tables it preloads, is modelled on its own.  Table names are
    single path components; the fields of a record hold integers; the text of
    a file is taken up to its layout.  A flush started by the timer is
    awaited by nobody: when it rejects, the rejection is unhandled, which
    ends a process that runs with the defaults of Node; runs are given both
    without and with that end.  The table sets ([DbSet]) and the query
    builder ([Queryable]), which work on the arrays the provider hands out,
    come after the provider; the keys a table set assigns are numbers of the
    language, doubles, and are added as such. *)

From Stdlib Require Import ZArith Lia Permutation Sorted Ascii.
From stdpp Require Import base option list sorting gmap strings pretty.
From Equations Require Import Equations.

Local Open Scope Z_scope.

(** ** JavaScript values used by the provider

    A record is a plain object whose fields hold integers; reading a field
    the object does not have yields [undefined], which is [None] here. *)

Abbreviation record := (gmap string Z).
Abbreviation jsval := (option Z).

(** The relational operators of JavaScript on numbers and [undefined]:
    a comparison with [undefined] is [false] whichever way it is asked. *)

Definition js_lt (a b : jsval) : bool :=
  match a, b with Some x, Some y => x <? y | _, _ => false end.
Definition js_gt (a b : jsval) : bool :=
  match a, b with Some x, Some y => x >? y | _, _ => false end.
Definition js_le (a b : jsval) : bool :=
  match a, b with Some x, Some y => x <=? y | _, _ => false end.
Definition js_ge (a b : jsval) : bool :=
  match a, b with Some x, Some y => x >=? y | _, _ => false end.

(** [Array.prototype.slice(start, end)], negative positions counted from
    the end of the array as the language defines them. *)

Definition js_slice {A} (l : list A) (start end_ : Z) : list A :=
  let len := Z.of_nat (length l) in
  let k := if start <? 0 then Z.max (len + start) 0 else Z.min start len in
  let final := if end_ <? 0 then Z.max (len + end_) 0 else Z.min end_ len in
  take (Z.to_nat (final - k)) (drop (Z.to_nat k) l).

(** [Array.prototype.sort(cmp)] is stable: [x] goes in front of the first
    element it does not compare greater than.  For a comparator that is a
    total preorder every stable sort returns this list, and the language
    fixes the result.  For another comparator (the comparators of this code
    are none on records that lack the field compared: such a record
    compares equal to every record) the language leaves the order to the
    engine, and this list is one of the orders allowed, not necessarily the
    engine's.  What is proved about a sorted result is proved either for
    every order or for records that have the fields compared. *)

Fixpoint js_insert {A} (cmp : A -> A -> Z) (x : A) (l : list A) : list A :=
  match l with
  | [] => [x]
  | y :: l' => if cmp x y <=? 0 then x :: y :: l' else y :: js_insert cmp x l'
  end.

Definition js_sort {A} (cmp : A -> A -> Z) (l : list A) : list A :=
  foldr (js_insert cmp) [] l.

(** ** The secondary index: [binarySearch], [createIndex], [queryRange] *)

(** [arr[mid][field]] *)
Definition field_at (arr : list record) (field : string) (i : Z) : jsval :=
  r ← arr !! Z.to_nat i; r !! field.

(** The [while (left <= right)] loop of [binarySearch]; [lo] and [hi] are
    the source's [left] and [right]. *)
Equations? binarySearch_loop (arr : list record) (field : string)
    (value : jsval) (findFirst : bool) (lo hi result : Z) : Z
    by wf (Z.to_nat (hi - lo + 1)) lt :=
  binarySearch_loop arr field value findFirst lo hi result
    with Z_le_gt_dec lo hi := {
    | left _ =>
        let mid := (lo + hi) / 2 in
        let midValue := field_at arr field mid in
        if findFirst then
          if js_ge midValue value
          then binarySearch_loop arr field value findFirst lo (mid - 1) mid
          else binarySearch_loop arr field value findFirst (mid + 1) hi result
        else
          if js_le midValue value
          then binarySearch_loop arr field value findFirst (mid + 1) hi mid
          else binarySearch_loop arr field value findFirst lo (mid - 1) result
    | right _ => result }.
Proof.
  all: assert (lo <= (lo + hi) / 2 <= hi)
    by (split; [apply Z.div_le_lower_bound | apply Z.div_le_upper_bound]; lia);
    lia.
Qed.

Definition binarySearch (arr : list record) (field : string)
    (value : jsval) (findFirst : bool) : Z :=
  let left := 0 in
  let right := Z.of_nat (length arr) - 1 in
  let result := if findFirst then Z.of_nat (length arr) else -1 in
  binarySearch_loop arr field value findFirst left right result.

(** The comparator [createIndex] hands to [sort]. *)
Definition compareByField (field : string) (a b : record) : Z :=
  if js_lt (a !! field) (b !! field) then -1
  else if js_gt (a !! field) (b !! field) then 1
  else 0.

(** [item[field] >= min && item[field] <= max] *)
Definition inRange (field : string) (min max : jsval) (item : record) : bool :=
  js_ge (item !! field) min && js_le (item !! field) max.

(** ** Files

    A file holds the text [JSON.stringify] produces for a snapshot, a
    strict prefix of such a text (what an interrupted [writeFile] leaves
    behind), or bytes that are not JSON at all.  [JSON.parse] accepts the
    first and throws a [SyntaxError] on the other two: an array text closes
    its bracket with its last character, so no strict prefix of it parses. *)

Inductive content :=
| JsonText (d : list record)
| Partial (d : list record)
| Junk.

Definition JSON_stringify (d : list record) : content := JsonText d.

Definition JSON_parse (c : content) : option (list record) :=
  match c with JsonText d => Some d | _ => None end.

(** [path.join(dir, name)] for a [name] that is a single path component. *)
Definition path_join (dir name : string) : string := dir +:+ "/" +:+ name.

(** [`${table}.json`], its temporary sibling and [`${table}.${field}.idx`] *)
Definition filePath (dataDir table : string) : string :=
  path_join dataDir (table +:+ ".json").
Definition tempPath (dataDir table : string) : string :=
  filePath dataDir table +:+ ".tmp".
Definition indexPath (dataDir table field : string) : string :=
  path_join dataDir (table +:+ "." +:+ field +:+ ".idx").

(** [createIndex], from the snapshot [getData(table)] resolved with: sort a
    copy and write it, compactly, under the index path. *)
Definition createIndex (dataDir : string) (data : list record)
    (table field : string) (disk : gmap string content) : gmap string content :=
  let sorted := js_sort (compareByField field) data in
  <[indexPath dataDir table field := JSON_stringify sorted]> disk.

(** [queryRange]: the [try] block reads and parses the index file and
    slices it between the two search results; the [catch] block filters
    [data], the snapshot [getData(table)] resolves with. *)
Definition queryRange (dataDir : string) (data : list record)
    (table field : string) (min max : jsval) (disk : gmap string content)
    : list record :=
  match disk !! indexPath dataDir table field ≫= JSON_parse with
  | Some sorted =>
      let start := binarySearch sorted field min true in
      let end_ := binarySearch sorted field max false in
      js_slice sorted start (end_ + 1)
  | None => List.filter (inRange field min max) data
  end.

(** ** [Map] objects

    A [Map] keeps its entries in insertion order: [set] on a key already
    present replaces the value where it stands, on a new key it appends. *)

Module JsMap.
Section Ops.
Context {V : Type}.

Fixpoint get (m : list (string * V)) (k : string) : option V :=
  match m with
  | [] => None
  | (k', v) :: m' => if decide (k' = k) then Some v else get m' k
  end.

Fixpoint set (m : list (string * V)) (k : string) (v : V) : list (string * V) :=
  match m with
  | [] => [(k, v)]
  | (k', v') :: m' =>
      if decide (k' = k) then (k, v) :: m' else (k', v') :: set m' k v
  end.

Definition delete (m : list (string * V)) (k : string) : list (string * V) :=
  filter (fun p => p.1 <> k) m.

Definition size (m : list (string * V)) : nat := length m.

Definition entries (m : list (string * V)) : list (string * V) := m.

Definition keys (m : list (string * V)) : list string := m.*1.

(** No key occurs twice: every [Map] satisfies it. *)
Definition wf (m : list (string * V)) : Prop := NoDup (keys m).
End Ops.
End JsMap.

(** ** The heap: arrays and the record objects they refer to

    Arrays and records are objects with an identity.  An array is a frozen
    flag and the references of its elements; [[...data]] copies the
    references, not the records. *)

Record heap := {
  objs : list record;
  arrs : list (bool * list nat)
}.

Definition elems (h : heap) (a : nat) : list nat :=
  match arrs h !! a with Some (_, l) => l | None => [] end.

Definition is_frozen (h : heap) (a : nat) : bool :=
  match arrs h !! a with Some (f, _) => f | None => false end.

(** The records an array holds, read through its references. *)
Definition deref (h : heap) (a : nat) : list record :=
  omap (fun o => objs h !! o) (elems h a).

(** The reference the next array created will get. *)
Definition next_array (h : heap) : nat := length (arrs h).

(** The heap with a new array of the given element references. *)
Definition new_array (frozen : bool) (l : list nat) (h : heap) : heap :=
  {| objs := objs h; arrs := arrs h ++ [(frozen, l)] |}.

(** The heap with the array of fresh records [JSON.parse] builds. *)
Definition new_snapshot (d : list record) (h : heap) : heap :=
  new_array false (seq (length (objs h)) (length d))
    {| objs := objs h ++ d; arrs := arrs h |}.

(** A caller assigning to an array it holds; a frozen array refuses. *)
Definition mutate_array (a : nat) (l : list nat) (h : heap) : heap :=
  if is_frozen h a then h
  else {| objs := objs h; arrs := <[a := (false, l)]> (arrs h) |}.

(** A caller assigning to the fields of a record it holds. *)
Definition mutate_record (o : nat) (r : record) (h : heap) : heap :=
  {| objs := <[o := r]> (objs h); arrs := arrs h |}.

(** ** The provider and the world it runs in *)

Record CacheEntry := {
  data : nat;
  version : nat;
  lastAccess : Z
}.

Inductive error :=
| SyntaxError
| SystemError (code : string).

(** A [loadFromDisk] promise. *)
Inductive settlement :=
| Fulfilled (a : nat)
| Rejected (e : error).

Record load := {
  ltable : string;
  lstate : option settlement
}.

(** One [writeToDisk] call of a flush. *)
Inductive stage := Writing | Renaming | Persisted | Failed.

Record write := {
  wtable : string;
  wtext : content;
  wstage : stage
}.

(** One [flushWrites] call awaiting [Promise.all] of its writes;
    [closing] tells that [close] awaits it. *)
Inductive progress := Pending | Resolved | Aborted.

Record flush := {
  writes : list write;
  status : progress;
  closing : bool
}.

Record provider := {
  dataDir : string;
  cache : list (string * CacheEntry);
  pendingReads : list (string * nat);
  writeQueue : list (string * nat);
  writeTimer : bool;
  this_version : nat;
  readCounts : list (string * nat);
  mem : heap;
  disk : gmap string content;
  loads : list load;
  flushes : list flush;
  emitted : list string
}.

Definition hotDataThreshold : nat := 10.

Definition with_cache (c : list (string * CacheEntry)) (st : provider) : provider :=
  {| dataDir := dataDir st; cache := c; pendingReads := pendingReads st;
     writeQueue := writeQueue st; writeTimer := writeTimer st;
     this_version := this_version st; readCounts := readCounts st; mem := mem st;
     disk := disk st; loads := loads st; flushes := flushes st;
     emitted := emitted st |}.

Definition with_pendingReads (p : list (string * nat)) (st : provider) : provider :=
  {| dataDir := dataDir st; cache := cache st; pendingReads := p;
     writeQueue := writeQueue st; writeTimer := writeTimer st;
     this_version := this_version st; readCounts := readCounts st; mem := mem st;
     disk := disk st; loads := loads st; flushes := flushes st;
     emitted := emitted st |}.

Definition with_writeQueue (q : list (string * nat)) (st : provider) : provider :=
  {| dataDir := dataDir st; cache := cache st; pendingReads := pendingReads st;
     writeQueue := q; writeTimer := writeTimer st;
     this_version := this_version st; readCounts := readCounts st; mem := mem st;
     disk := disk st; loads := loads st; flushes := flushes st;
     emitted := emitted st |}.

Definition with_writeTimer (t : bool) (st : provider) : provider :=
  {| dataDir := dataDir st; cache := cache st; pendingReads := pendingReads st;
     writeQueue := writeQueue st; writeTimer := t;
     this_version := this_version st; readCounts := readCounts st; mem := mem st;
     disk := disk st; loads := loads st; flushes := flushes st;
     emitted := emitted st |}.

Definition with_version (v : nat) (st : provider) : provider :=
  {| dataDir := dataDir st; cache := cache st; pendingReads := pendingReads st;
     writeQueue := writeQueue st; writeTimer := writeTimer st;
     this_version := v; readCounts := readCounts st; mem := mem st;
     disk := disk st; loads := loads st; flushes := flushes st;
     emitted := emitted st |}.

Definition with_readCounts (r : list (string * nat)) (st : provider) : provider :=
  {| dataDir := dataDir st; cache := cache st; pendingReads := pendingReads st;
     writeQueue := writeQueue st; writeTimer := writeTimer st;
     this_version := this_version st; readCounts := r; mem := mem st;
     disk := disk st; loads := loads st; flushes := flushes st;
     emitted := emitted st |}.

Definition with_mem (h : heap) (st : provider) : provider :=
  {| dataDir := dataDir st; cache := cache st; pendingReads := pendingReads st;
     writeQueue := writeQueue st; writeTimer := writeTimer st;
     this_version := this_version st; readCounts := readCounts st; mem := h;
     disk := disk st; loads := loads st; flushes := flushes st;
     emitted := emitted st |}.

Definition with_disk (d : gmap string content) (st : provider) : provider :=
  {| dataDir := dataDir st; cache := cache st; pendingReads := pendingReads st;
     writeQueue := writeQueue st; writeTimer := writeTimer st;
     this_version := this_version st; readCounts := readCounts st; mem := mem st;
     disk := d; loads := loads st; flushes := flushes st;
     emitted := emitted st |}.

Definition with_loads (l : list load) (st : provider) : provider :=
  {| dataDir := dataDir st; cache := cache st; pendingReads := pendingReads st;
     writeQueue := writeQueue st; writeTimer := writeTimer st;
     this_version := this_version st; readCounts := readCounts st; mem := mem st;
     disk := disk st; loads := l; flushes := flushes st;
     emitted := emitted st |}.

Definition with_flushes (f : list flush) (st : provider) : provider :=
  {| dataDir := dataDir st; cache := cache st; pendingReads := pendingReads st;
     writeQueue := writeQueue st; writeTimer := writeTimer st;
     this_version := this_version st; readCounts := readCounts st; mem := mem st;
     disk := disk st; loads := loads st; flushes := f;
     emitted := emitted st |}.

Definition with_emitted (e : list string) (st : provider) : provider :=
  {| dataDir := dataDir st; cache := cache st; pendingReads := pendingReads st;
     writeQueue := writeQueue st; writeTimer := writeTimer st;
     this_version := this_version st; readCounts := readCounts st; mem := mem st;
     disk := disk st; loads := loads st; flushes := flushes st;
     emitted := e |}.

(** A provider after [connect] with nothing to preload. *)
Definition connected (dir : string) (h : heap) (d : gmap string content) : provider :=
  {| dataDir := dir; cache := []; pendingReads := []; writeQueue := [];
     writeTimer := false; this_version := 0; readCounts := []; mem := h;
     disk := d; loads := []; flushes := []; emitted := [] |}.

(** *** The cache *)

(** The comparator [evictIfNeeded] sorts the cache entries with. *)
Definition byLastAccess (a b : string * CacheEntry) : Z :=
  lastAccess a.2 - lastAccess b.2.

(** The body of [evictIfNeeded], on the cache map. *)
Definition evict (c : list (string * CacheEntry)) : list (string * CacheEntry) :=
  if (50 <? JsMap.size c)%nat then
    let entries := js_sort byLastAccess (JsMap.entries c) in
    let toRemove := js_slice entries 0 (Z.of_nat (length entries) - 40) in
    foldl (fun m '(key, _) => JsMap.delete m key) c toRemove
  else c.

Definition evictIfNeeded (st : provider) : provider :=
  with_cache (evict (cache st)) st.

(** [addToCache]; [now] is what [Date.now()] answers. *)
Definition addToCache (table : string) (a : nat) (now : Z) (st : provider) : provider :=
  let immutableData := next_array (mem st) in
  let st := with_mem (new_array true (elems (mem st) a) (mem st)) st in
  let st := with_cache
    (JsMap.set (cache st) table
       {| data := immutableData; version := this_version st; lastAccess := now |}) st in
  evictIfNeeded st.

(** *** Reading *)

(** What a call of [getData] hands back at once: the array of a cache hit,
    or the [loadFromDisk] promise the caller is left awaiting. *)
Inductive answer :=
| Now (a : nat)
| Later (p : nat).

Definition getData (table : string) (now : Z) (st : provider) : provider * answer :=
  match JsMap.get (cache st) table with
  | Some cached =>
      let st := with_cache
        (JsMap.set (cache st) table
           {| data := data cached; version := version cached; lastAccess := now |}) st in
      let copy := next_array (mem st) in
      (with_mem (new_array false (elems (mem st) (data cached)) (mem st)) st, Now copy)
  | None =>
      match JsMap.get (pendingReads st) table with
      | Some pending => (st, Later pending)
      | None =>
          let loadPromise := length (loads st) in
          let st := with_loads (loads st ++ [{| ltable := table; lstate := None |}]) st in
          let st := with_pendingReads (JsMap.set (pendingReads st) table loadPromise) st in
          (st, Later loadPromise)
      end
  end.

(** [fs.readFile]: the environment may make it fail with an error code of
    its choice ([fault]); otherwise a missing file fails with [ENOENT]. *)
Definition readFile (d : gmap string content) (path : string)
    (fault : option string) : content + string :=
  match fault with
  | Some code => inr code
  | None => match d !! path with Some c => inl c | None => inr "ENOENT"%string end
  end.

Definition loadFromDisk (table : string) (fault : option string) (st : provider)
    : list record + error :=
  match readFile (disk st) (filePath (dataDir st) table) fault with
  | inl text =>
      match JSON_parse text with Some d => inl d | None => inr SyntaxError end
  | inr code =>
      if decide (code = "ENOENT"%string) then inl [] else inr (SystemError code)
  end.

Definition settle_load (p : nat) (table : string) (s : settlement) (st : provider) : provider :=
  with_loads (<[p := {| ltable := table; lstate := Some s |}]> (loads st)) st.

(** The rest of [getData] once the read of load [p] settles: count the
    read, promote a hot table, and unregister the load whatever happened. *)
Definition load_settled (p : nat) (fault : option string) (now : Z) (st : provider)
    : option provider :=
  match loads st !! p with
  | Some {| ltable := table; lstate := None |} =>
      match loadFromDisk table fault st with
      | inl d =>
          let data := next_array (mem st) in
          let st := with_mem (new_snapshot d (mem st)) st in
          let st := settle_load p table (Fulfilled data) st in
          let reads := (default 0 (JsMap.get (readCounts st) table) + 1)%nat in
          let st := with_readCounts (JsMap.set (readCounts st) table reads) st in
          let st := if (hotDataThreshold <=? reads)%nat
                    then addToCache table data now st else st in
          Some (with_pendingReads (JsMap.delete (pendingReads st) table) st)
      | inr e =>
          let st := settle_load p table (Rejected e) st in
          Some (with_pendingReads (JsMap.delete (pendingReads st) table) st)
      end
  | _ => None
  end.

(** *** Writing *)

Definition saveData (table : string) (a : nat) (now : Z) (st : provider) : provider :=
  let st := with_version (S (this_version st)) st in
  let st := addToCache table a now st in
  let st := with_writeQueue (JsMap.set (writeQueue st) table a) st in
  if writeTimer st then st else with_writeTimer true st.

(** [writeToDisk] up to its first [await]: the snapshot is serialised when
    the call is made. *)
Definition writeToDisk (table : string) (a : nat) (st : provider) : write :=
  {| wtable := table; wtext := JSON_stringify (deref (mem st) a); wstage := Writing |}.

(** What runs after [await Promise.all(...)] has resolved: the
    notifications of [flushWrites], then the rest of [close] if it waits. *)
Definition after_flush (f : flush) (st : provider) : provider :=
  let st := with_emitted (emitted st ++ (wtable <$> writes f)) st in
  if closing f then with_pendingReads [] (with_cache [] st) else st.

Definition restage (w : write) (s : stage) : write :=
  {| wtable := wtable w; wtext := wtext w; wstage := s |}.

Definition with_status (f : flush) (p : progress) : flush :=
  {| writes := writes f; status := p; closing := closing f |}.

Definition with_writes (f : flush) (ws : list write) : flush :=
  {| writes := ws; status := status f; closing := closing f |}.

Definition persisted (w : write) : bool :=
  match wstage w with Persisted => true | _ => false end.

(** [Promise.all] resolves when every write is through. *)
Definition resolve_if_done (j : nat) (st : provider) : provider :=
  match flushes st !! j with
  | Some f =>
      match status f with
      | Pending =>
          if forallb persisted (writes f) then
            after_flush f
              (with_flushes (<[j := with_status f Resolved]> (flushes st)) st)
          else st
      | _ => st
      end
  | None => st
  end.

(** [Promise.all] rejects with the first write that fails; [flushWrites],
    and [close] behind it, reject with it and run no further.  The writes
    of the batch that are still under way are not withdrawn.  Who hears of
    the rejection is told by [closing]: the caller of [close], or nobody
    (see [unhandled]). *)
Definition reject (j : nat) (st : provider) : provider :=
  match flushes st !! j with
  | Some f =>
      match status f with
      | Pending =>
          with_flushes (<[j := with_status f Aborted]> (flushes st)) st
      | _ => st
      end
  | None => st
  end.

Definition flushWrites (closing : bool) (st : provider) : provider :=
  let st := with_writeTimer false st in
  let writes := JsMap.entries (writeQueue st) in
  let st := with_writeQueue [] st in
  let ws := (fun '(table, data) => writeToDisk table data st) <$> writes in
  let j := length (flushes st) in
  resolve_if_done j
    (with_flushes
       (flushes st ++ [{| writes := ws; status := Pending; closing := closing |}]) st).

Definition close (st : provider) : provider :=
  if writeTimer st then flushWrites true st
  else with_pendingReads [] (with_cache [] st).

Definition set_stage (j i : nat) (s : stage) (st : provider) : provider :=
  match flushes st !! j with
  | Some f =>
      match writes f !! i with
      | Some w =>
          with_flushes
            (<[j := with_writes f (<[i := restage w s]> (writes f))]> (flushes st)) st
      | None => st
      end
  | None => st
  end.

Definition truncated (c : content) : content :=
  match c with JsonText d => Partial d | _ => c end.

(** [fs.writeFile(tempPath, text)] of write [i] of flush [j] settles.  It
    either wrote the whole text, or failed ([fault]), leaving a truncated
    file behind when [fault] is [Some true]; then [fs.rename] is issued. *)
Definition writeFile_settled (j i : nat) (fault : option bool) (st : provider)
    : option provider :=
  f ← flushes st !! j;
  w ← writes f !! i;
  match wstage w with
  | Writing =>
      let tmp := tempPath (dataDir st) (wtable w) in
      match fault with
      | None =>
          Some (set_stage j i Renaming (with_disk (<[tmp := wtext w]> (disk st)) st))
      | Some torn =>
          let d := if torn then <[tmp := truncated (wtext w)]> (disk st) else disk st in
          Some (reject j (set_stage j i Failed (with_disk d st)))
      end
  | _ => None
  end.

(** [fs.rename(tempPath, filePath)] of write [i] of flush [j] settles: in
    one step the target takes the content of the temporary file, which
    disappears; it fails when the environment says so or when the temporary
    file is gone. *)
Definition rename_settled (j i : nat) (fault : bool) (st : provider)
    : option provider :=
  f ← flushes st !! j;
  w ← writes f !! i;
  match wstage w with
  | Renaming =>
      let tmp := tempPath (dataDir st) (wtable w) in
      match (if fault then None else disk st !! tmp) with
      | Some text =>
          let d := <[filePath (dataDir st) (wtable w) := text]> (delete tmp (disk st)) in
          Some (resolve_if_done j (set_stage j i Persisted (with_disk d st)))
      | None => Some (reject j (set_stage j i Failed st))
      end
  | _ => None
  end.

(** *** What happens, one turn of the event loop at a time *)

Inductive event :=
| SaveData (table : string) (a : nat) (now : Z)
| GetData (table : string) (now : Z)
| LoadSettled (p : nat) (fault : option string) (now : Z)
| TimerFired
| WriteFileSettled (j i : nat) (fault : option bool)
| RenameSettled (j i : nat) (fault : bool)
| Close
| MutateArray (a : nat) (l : list nat)
| MutateRecord (o : nat) (r : record).

Definition step (ev : event) (st : provider) : option provider :=
  match ev with
  | SaveData table a now => Some (saveData table a now st)
  | GetData table now => Some (getData table now st).1
  | LoadSettled p fault now => load_settled p fault now st
  | TimerFired => if writeTimer st then Some (flushWrites false st) else None
  | WriteFileSettled j i fault => writeFile_settled j i fault st
  | RenameSettled j i fault => rename_settled j i fault st
  | Close => Some (close st)
  | MutateArray a l => Some (with_mem (mutate_array a l (mem st)) st)
  | MutateRecord o r => Some (with_mem (mutate_record o r (mem st)) st)
  end.

Fixpoint run (evs : list event) (st : provider) : option provider :=
  match evs with
  | [] => Some st
  | ev :: evs => st' ← step ev st; run evs st'
  end.

(** *** Unhandled rejections

    [saveData] starts the flush with [setTimeout(() => this.flushWrites(),
    ...)]: the promise of that call is dropped, so when the flush rejects
    nobody handles the rejection.  Unless the program that embeds the
    provider has a handler for unhandled rejections, the process ends there;
    [step] and [run] are the turns of a process that goes on, [step_or_exit]
    and [run_or_exit] those of a process that ends. *)

Definition unhandled (f : flush) : bool :=
  match status f with Aborted => negb (closing f) | _ => false end.

Definition exited (st : provider) : bool := existsb unhandled (flushes st).

Definition step_or_exit (ev : event) (st : provider) : option provider :=
  if exited st then None else step ev st.

Fixpoint run_or_exit (evs : list event) (st : provider) : option provider :=
  match evs with
  | [] => Some st
  | ev :: evs => st' ← step_or_exit ev st; run_or_exit evs st'
  end.

Arguments addToCache : simpl never.
Arguments evict : simpl never.
Arguments saveData : simpl never.
Arguments getData : simpl never.
Arguments flushWrites : simpl never.
Arguments resolve_if_done : simpl never.
Arguments reject : simpl never.
Arguments set_stage : simpl never.
Arguments new_array : simpl never.
Arguments new_snapshot : simpl never.
Arguments loadFromDisk : simpl never.

(** ** Predicates the properties are stated with *)

(** [arr] is in ascending order of [field], as [<=] of the language sees it. *)
Definition sorted_by (field : string) (arr : list record) : Prop :=
  forall (i j : nat) (ri rj : record),
    (i < j)%nat -> arr !! i = Some ri -> arr !! j = Some rj ->
    js_le (ri !! field) (rj !! field) = true.

(** [s] is the smallest index of [arr] whose field value is [>= v], and
    the length of [arr] when there is none. *)
Definition first_index_ge (arr : list record) (field : string) (v : jsval) (s : Z) : Prop :=
  0 <= s <= Z.of_nat (length arr) /\
  (forall i, 0 <= i < s -> js_ge (field_at arr field i) v = false) /\
  (s < Z.of_nat (length arr) -> js_ge (field_at arr field s) v = true).

(** [e] is the largest index of [arr] whose field value is [<= v], and
    [-1] when there is none. *)
Definition last_index_le (arr : list record) (field : string) (v : jsval) (e : Z) : Prop :=
  -1 <= e < Z.of_nat (length arr) /\
  (forall i, e < i < Z.of_nat (length arr) -> js_le (field_at arr field i) v = false) /\
  (0 <= e -> js_le (field_at arr field e) v = true).

(** [x] may stand in front of [y] in an array sorted with [cmp]. *)
Definition precedes {A} (cmp : A -> A -> Z) (x y : A) : Prop := cmp x y <= 0.

(** The states a connected provider goes through. *)
Definition reachable (st : provider) : Prop :=
  exists dir h d evs, run evs (connected dir h d) = Some st.

(** What holds of the maps of every such state. *)
Record invariant (st : provider) : Prop := {
  inv_cache_wf : JsMap.wf (cache st);
  inv_cache_size : (JsMap.size (cache st) <= 50)%nat;
  inv_queue_wf : JsMap.wf (writeQueue st);
  inv_timer : writeQueue st <> [] -> writeTimer st = true
}.

(** Array [a] is frozen and holds the references [l]. *)
Definition frozen_at (h : heap) (a : nat) (l : list nat) : Prop :=
  arrs h !! a = Some (true, l).

(** Every frozen array of [h] is the same frozen array in [h'], and no
    array reference of [h] is free in [h']. *)
Definition heap_le (h h' : heap) : Prop :=
  (forall a l, frozen_at h a l -> frozen_at h' a l) /\
  (next_array h <= next_array h')%nat.

Definition is_MutateRecord (ev : event) : bool :=
  match ev with MutateRecord _ _ => true | _ => false end.

(** Every element reference of array [a] points to a record. *)
Definition valid_array (h : heap) (a : nat) : Prop :=
  Forall (fun o => is_Some (objs h !! o)) (elems h a).

(** What a caller does between its calls of the provider: it changes
    arrays it holds and reads tables. *)
Definition caller_array_use (ev : event) : Prop :=
  match ev with
  | MutateArray _ _ | GetData _ _ => True
  | _ => False
  end.

(** What load [p] settled with, the array read through its references. *)
Definition settled (p : nat) (st : provider) : option (list record + error) :=
  ld ← loads st !! p;
  s ← lstate ld;
  Some match s with
       | Fulfilled a => inl (deref (mem st) a)
       | Rejected e => inr e
       end.

(** An event that starts no flush. *)
Definition no_flush (ev : event) : Prop :=
  match ev with TimerFired | Close => False | _ => True end.

(** What may happen between the last [saveData] of [table] in a debounce
    window and the flush: no flush starts and [table] is not written again. *)
Definition in_window (table : string) (ev : event) : Prop :=
  match ev with
  | SaveData t _ _ => t <> table
  | TimerFired | Close => False
  | _ => True
  end.

(** The event is no caller altering an array or a record it holds. *)
Definition unaltered (ev : event) : Prop :=
  match ev with
  | MutateArray _ _ | MutateRecord _ _ => False
  | _ => True
  end.

(** The file operations a write still has to get through. *)
Definition weight (s : stage) : nat :=
  match s with Writing => 2 | Renaming => 1 | _ => 0 end.

Definition remaining (ws : list write) : nat :=
  sum_list ((fun w => weight (wstage w)) <$> ws).

(** An event of the writes of flush [j]. *)
Definition own (j : nat) (ev : event) : Prop :=
  match ev with
  | WriteFileSettled j' _ _ | RenameSettled j' _ _ => j' = j
  | _ => False
  end.

(** What the stage of a write says about the disk: the whole text is in
    the temporary file while the rename is under way, and in the table's
    file once the write is through. *)
Definition stage_on_disk (st : provider) (w : write) : Prop :=
  match wstage w with
  | Renaming => disk st !! tempPath (dataDir st) (wtable w) = Some (wtext w)
  | Persisted => disk st !! filePath (dataDir st) (wtable w) = Some (wtext w)
  | _ => True
  end.

(** The batch a flush started in state [pre] takes from the write queue. *)
Definition batch (pre : provider) : list (string * content) :=
  (fun '(table, a) => (table, JSON_stringify (deref (mem pre) a))) <$> writeQueue pre.

(** Flush [j], started in state [pre], as state [st] finds it: it holds
    the batch, and its writes are in step with the disk. *)
Record flush_state (pre : provider) (closing_ : bool) (j : nat) (st : provider)
    (f : flush) : Prop := {
  fs_lookup : flushes st !! j = Some f;
  fs_batch : (fun w => (wtable w, wtext w)) <$> writes f = batch pre;
  fs_closing : closing f = closing_;
  fs_nodup : NoDup (wtable <$> writes f);
  fs_disk : Forall (stage_on_disk st) (writes f);
  fs_dataDir : dataDir st = dataDir pre
}.

(** How far the flush has come: while [Promise.all] is pending no write has
    failed and one at least is not through; it has rejected when a write
    has failed, and resolved when every write is through. *)
Definition flush_status (f : flush) : Prop :=
  match status f with
  | Pending =>
      Forall (fun w => wstage w <> Failed) (writes f) /\
      forallb persisted (writes f) = false
  | Aborted => Exists (fun w => wstage w = Failed) (writes f)
  | Resolved => forallb persisted (writes f) = true
  end.

(** The turn that takes the flush from [f] to [f'] is the one in which
    [Promise.all] resolves. *)
Definition resolves (f f' : flush) : bool :=
  match status f, status f' with
  | Pending, Resolved => true
  | _, _ => false
  end.

(** What a turn of one of the file operations of a flush does besides:
    nothing is queued or scheduled, the heap is left alone; the
    notifications go out in the turn in which the flush resolves, one per
    table in the order of the batch, and in that turn a waiting [close]
    clears the cache. *)
Definition turn_of (closing_ : bool) (st st' : provider) (f f' : flush) : Prop :=
  writeQueue st' = writeQueue st /\ writeTimer st' = writeTimer st /\
  mem st' = mem st /\
  emitted st' = emitted st ++ (if resolves f f' then wtable <$> writes f' else []) /\
  cache st' = (if resolves f f' && closing_ then [] else cache st) /\
  (status f = Aborted -> status f' = Aborted).

(** Write [i] of flush [j]. *)
Definition write_at (st : provider) (j i : nat) : option write :=
  f ← flushes st !! j; writes f !! i.

(** The event is a file operation of a write for [table]. *)
Definition touches (table : string) (ev : event) (st : provider) : bool :=
  match ev with
  | WriteFileSettled j i _ | RenameSettled j i _ =>
      bool_decide (wtable <$> write_at st j i = Some table)
  | _ => false
  end.

(** A run in which no file operation of a write for [table] settles. *)
Fixpoint run_apart (table : string) (evs : list event) (st : provider)
    : option provider :=
  match evs with
  | [] => Some st
  | ev :: evs =>
      if touches table ev st then None
      else st' ← step ev st; run_apart table evs st'
  end.

(** The tables flush [j] writes. *)
Definition tables_of (st : provider) (j : nat) : list string :=
  match flushes st !! j with
  | Some f => wtable <$> writes f
  | None => []
  end.

(** The event is a file operation of another flush on a table of flush
    [j]: the two writes use the same temporary file and the same target. *)
Definition crosses (j : nat) (ev : event) (st : provider) : bool :=
  match ev with
  | WriteFileSettled j' i _ | RenameSettled j' i _ =>
      negb (j' =? j)%nat &&
      match write_at st j' i with
      | Some w => bool_decide (wtable w ∈ tables_of st j)
      | None => false
      end
  | _ => false
  end.

(** A run in which no other flush settles a file operation on a table of
    flush [j]; anything else may happen. *)
Fixpoint run_uncrossed (j : nat) (evs : list event) (st : provider)
    : option provider :=
  match evs with
  | [] => Some st
  | ev :: evs =>
      if crosses j ev st then None
      else st' ← step ev st; run_uncrossed j evs st'
  end.

(** What a call of [getData] answered at once, if it did, read through
    its references. *)
Definition answered (r : provider * answer) : option (list record) :=
  match r.2 with
  | Now a => Some (deref (mem r.1) a)
  | Later _ => None
  end.

(** ** Sample records and runs *)

Definition r1 : record := {[ "id"%string := 1; "price"%string := 20 ]}.
Definition r2 : record := {[ "id"%string := 2; "price"%string := 10 ]}.
Definition r3 : record := {[ "id"%string := 3; "price"%string := 30 ]}.

Definition tableName (n : nat) : string := "t" +:+ pretty n.

(** Two arrays of one record each. *)
Definition h0 : heap :=
  {| objs := [r1; r2]; arrs := [(false, [0%nat]); (false, [1%nat])] |}.

Definition s0 : provider := connected "data" h0 ∅.

(** A write to [t0], then writes to [t1], ..., [t<n>]. *)
Definition writes_after_t0 (n : nat) : list event :=
  SaveData "t0" 0 0 ::
  ((fun i => SaveData (tableName i) 1 (Z.of_nat i)) <$> seq 1 n).

(** A write to [products], one to [tags], and the flush the timer starts. *)
Definition two_tables_flushing : list event :=
  [SaveData "products" 0 1000; SaveData "tags" 1 1001; TimerFired].

(** The temporary file of [products] cannot be written; [tags] goes through. *)
Definition products_fails : list event :=
  [WriteFileSettled 0 0 (Some true); WriteFileSettled 0 1 None;
   RenameSettled 0 1 false].

(** The provider with fifty tables cached, [t1] the oldest. *)
Definition s50 : provider :=
  default s0
    (run ((fun i => SaveData (tableName i) 1 (Z.of_nat i)) <$> seq 1 50) s0).

(** The provider after a write to [products] and one to [tags]. *)
Definition s2 : provider :=
  saveData "tags" 1 1001 (saveData "products" 0 1000 s0).

(** ** The rest of the provider: [query], [warmCache], [connect] *)

(** The references [Array.prototype.filter] keeps: those of the records
    that pass the test. *)
Definition filter_refs (h : heap) (test : record -> bool) (l : list nat) : list nat :=
  List.filter (fun o => match objs h !! o with Some r => test r | None => false end) l.

(** [data.filter(filter)], the rest of [query] once [getData] has resolved
    with the array [a]: a new array. *)
Definition query_filter (test : record -> bool) (a : nat) (st : provider)
    : provider * nat :=
  let result := next_array (mem st) in
  (with_mem (new_array false (filter_refs (mem st) test (elems (mem st) a)) (mem st)) st,
   result).

(** [query]: the filtered array when [getData] answers from the cache, and
    otherwise the load whose result [query_filter] is applied to when it
    settles. *)
Definition query (table : string) (test : record -> bool) (now : Z) (st : provider)
    : provider * (nat + nat) :=
  match getData table now st with
  | (st, Now a) => let '(st, result) := query_filter test a st in (st, inl result)
  | (st, Later p) => (st, inr p)
  end.

(** [warmCache(table)] once its read has settled: the table is promoted,
    and a load that failed is passed over in silence. *)
Definition warmCache (table : string) (fault : option string) (now : Z) (st : provider)
    : provider :=
  match loadFromDisk table fault st with
  | inl d =>
      let data := next_array (mem st) in
      addToCache table data now (with_mem (new_snapshot d (mem st)) st)
  | inr _ => st
  end.

(** The argument of [connect]: the fields it reads. *)
Record config := {
  cfg_dataDir : option string;
  cfg_preload : option (list string)
}.

Definition with_dataDir (d : string) (st : provider) : provider :=
  {| dataDir := d; cache := cache st; pendingReads := pendingReads st;
     writeQueue := writeQueue st; writeTimer := writeTimer st;
     this_version := this_version st; readCounts := readCounts st; mem := mem st;
     disk := disk st; loads := loads st; flushes := flushes st;
     emitted := emitted st |}.

(** [if (config.dataDir) this.dataDir = config.dataDir]: the empty string
    is falsy as well. *)
Definition set_dataDir (c : config) (st : provider) : provider :=
  match cfg_dataDir c with
  | Some d => if decide (d = ""%string) then st else with_dataDir d st
  | None => st
  end.

(** The [warmCache] calls of [connect], in the order in which their reads
    settle; each comes with the fault and the time the environment chose. *)
Definition preload (settles : list (string * option string * Z)) (st : provider)
    : provider :=
  foldl (fun st '(table, fault, now) => warmCache table fault now st) st settles.

(** [connect]: [mkdir] may fail, and then [connect] rejects with its error,
    the directory already set; nothing else makes it fail.  [settles] lists
    the tables of [config.preload] in the order their reads settle. *)
Definition connect (c : config) (mkdir : option string)
    (settles : list (string * option string * Z)) (st : provider)
    : provider * option error :=
  let st := set_dataDir c st in
  match mkdir with
  | Some code => (st, Some (SystemError code))
  | None =>
      match cfg_preload c with
      | Some _ => (preload settles st, None)
      | None => (st, None)
      end
  end.

Arguments warmCache : simpl never.

(** ** The table sets: [DbSet]

    What [add], [addRange], [update], [remove] and [find] compute from the
    array [getData] resolved with, and hand to [saveData]; [primaryKey] is
    the key the metadata of the entity names, or ["id"]. *)

(** Numbers are doubles.  An integer is one when 53 bits hold its
    magnitude up to a power of two, and a sum is rounded to the nearest
    such number, a tie going to the even mantissa: [2 ^ 53 + 1] is
    [2 ^ 53].  (The largest double, near [2 ^ 1024], is out of reach of the
    sums below.) *)
Definition round_double (z : Z) : Z :=
  let m := Z.abs z in
  if m <? 2 ^ 53 then z
  else
    let s := Z.log2 m - 52 in
    let q := Z.shiftr m s in
    let r := Z.land m (Z.ones s) in
    let half := 2 ^ (s - 1) in
    let q' := if (half <? r) || ((r =? half) && Z.odd q) then q + 1 else q in
    Z.sgn z * Z.shiftl q' s.

(** [x + y] *)
Definition js_add (x y : Z) : Z := round_double (x + y).

Module DbSet.

(** [!value], on a field value: [undefined] and [0] are falsy. *)
Definition falsy (value : jsval) : bool :=
  match value with Some z => z =? 0 | None => true end.

(** [item[primaryKey] || 0] *)
Definition idOr0 (primaryKey : string) (item : record) : Z :=
  default 0 (item !! primaryKey).

(** [Math.max(0, ...data.map(item => item[primaryKey] || 0))].  The spread
    passes one argument per record.  An engine refuses a call with more
    arguments than its stack takes, with a [RangeError] (at some hundred
    thousand records, depending on the engine and its settings), and [add]
    and [addRange] then reject.  That bound is the engine's, not the
    language's, and is left out: what is said of [maxId], [add] and
    [addRange] is said of tables below it. *)
Definition maxId (primaryKey : string) (data : list record) : Z :=
  foldr Z.max 0 (idOr0 primaryKey <$> data).

(** [add]: the new entity and the array that is saved. *)
Definition add (primaryKey : string) (entity : record) (data : list record)
    : record * list record :=
  let newEntity :=
    if falsy (entity !! primaryKey)
    then <[primaryKey := js_add (maxId primaryKey data) 1]> entity
    else entity in
  (newEntity, data ++ [newEntity]).

(** The [for] loop of [addRange]. *)
Fixpoint addRange_loop (primaryKey : string) (entities : list record) (nextId : Z)
    (data results : list record) : list record * list record :=
  match entities with
  | [] => (results, data)
  | entity :: entities =>
      if falsy (entity !! primaryKey) then
        let newEntity := <[primaryKey := nextId]> entity in
        addRange_loop primaryKey entities (js_add nextId 1)
          (data ++ [newEntity]) (results ++ [newEntity])
      else
        addRange_loop primaryKey entities nextId (data ++ [entity]) (results ++ [entity])
  end.

(** [addRange]: the new entities and the array that is saved. *)
Definition addRange (primaryKey : string) (entities data : list record)
    : list record * list record :=
  addRange_loop primaryKey entities (js_add (maxId primaryKey data) 1) data [].

(** [Array.prototype.findIndex], [None] standing for [-1]. *)
Fixpoint findIndex {A} (test : A -> bool) (l : list A) : option nat :=
  match l with
  | [] => None
  | x :: l => if test x then Some 0%nat else S <$> findIndex test l
  end.

(** [item[primaryKey] === id] *)
Definition hasId (primaryKey : string) (id : jsval) (item : record) : bool :=
  bool_decide (item !! primaryKey = id).

(** [update]: the array that is saved, or the error thrown. *)
Definition update (primaryKey : string) (entity : record) (data : list record)
    : list record + string :=
  let id := entity !! primaryKey in
  match findIndex (hasId primaryKey id) data with
  | None => inr "Entity not found"%string
  | Some index => inl (<[index := entity]> data)
  end.

(** [remove]: the array that is saved. *)
Definition remove (primaryKey : string) (entity : record) (data : list record)
    : list record :=
  let id := entity !! primaryKey in
  List.filter (fun item => negb (hasId primaryKey id item)) data.

(** [find]: [None] is [null]. *)
Definition find (primaryKey : string) (id : jsval) (data : list record)
    : option record :=
  List.find (hasId primaryKey id) data.

End DbSet.

(** ** The query builder: [Queryable] *)

Module Queryable.

Record t := {
  filters : list (record -> bool);
  sortKeys : list (string * bool);
  skipCount : Z;
  takeCount : option Z;
  includeRelations : list string;
  selectFields : option (list string)
}.

(** A query as the constructor leaves it. *)
Definition new : t :=
  {| filters := []; sortKeys := []; skipCount := 0; takeCount := None;
     includeRelations := []; selectFields := None |}.

(** Each method of the builder works on a [clone] and leaves the query it
    is called on as it is. *)
Definition where_ (predicate : record -> bool) (q : t) : t :=
  {| filters := filters q ++ [predicate]; sortKeys := sortKeys q;
     skipCount := skipCount q; takeCount := takeCount q;
     includeRelations := includeRelations q; selectFields := selectFields q |}.

Definition select (fields : list string) (q : t) : t :=
  {| filters := filters q; sortKeys := sortKeys q;
     skipCount := skipCount q; takeCount := takeCount q;
     includeRelations := includeRelations q; selectFields := Some fields |}.

Definition orderBy (key : string) (q : t) : t :=
  {| filters := filters q; sortKeys := sortKeys q ++ [(key, false)];
     skipCount := skipCount q; takeCount := takeCount q;
     includeRelations := includeRelations q; selectFields := selectFields q |}.

Definition orderByDescending (key : string) (q : t) : t :=
  {| filters := filters q; sortKeys := sortKeys q ++ [(key, true)];
     skipCount := skipCount q; takeCount := takeCount q;
     includeRelations := includeRelations q; selectFields := selectFields q |}.

Definition skip (count : Z) (q : t) : t :=
  {| filters := filters q; sortKeys := sortKeys q;
     skipCount := count; takeCount := takeCount q;
     includeRelations := includeRelations q; selectFields := selectFields q |}.

Definition take (count : Z) (q : t) : t :=
  {| filters := filters q; sortKeys := sortKeys q;
     skipCount := skipCount q; takeCount := Some count;
     includeRelations := includeRelations q; selectFields := selectFields q |}.

Definition include (relation : string) (q : t) : t :=
  {| filters := filters q; sortKeys := sortKeys q;
     skipCount := skipCount q; takeCount := takeCount q;
     includeRelations := includeRelations q ++ [relation];
     selectFields := selectFields q |}.

(** The comparator [toArray] sorts with for one sort key. *)
Definition compareByKey (key : string) (desc : bool) (a b : record) : Z :=
  let result :=
    if js_lt (a !! key) (b !! key) then -1
    else if js_gt (a !! key) (b !! key) then 1
    else 0 in
  if desc then - result else result.

(** The object [toArray] builds for an item when fields are selected; a
    field the item does not have reads as [undefined] in it as well. *)
Definition project (fields : list string) (item : record) : record :=
  foldl (fun projected field =>
           match item !! field with
           | Some v => <[field := v]> projected
           | None => projected
           end) ∅ fields.

Section ToArray.

(** [loadRelations], which reads other tables, is left open. *)
Variable loadRelations : list string -> list record -> list record.

(** [toArray], from the array [getData] resolved with. *)
Definition toArray (q : t) (data : list record) : list record :=
  let results := foldl (fun results filter => List.filter filter results) data (filters q) in
  let results :=
    foldl (fun results '(key, desc) => js_sort (compareByKey key desc) results)
      results (sortKeys q) in
  let results :=
    if 0 <? skipCount q
    then js_slice results (skipCount q) (Z.of_nat (length results))
    else results in
  let results :=
    match takeCount q with
    | Some count => js_slice results 0 count
    | None => results
    end in
  let results :=
    if (0 <? length (includeRelations q))%nat
    then loadRelations (includeRelations q) results
    else results in
  match selectFields q with
  | Some fields => project fields <$> results
  | None => results
  end.

(** [first]: [None] is [null]. *)
Definition first (q : t) (data : list record) : option record :=
  head (toArray (take 1 q) data).

Definition firstOrDefault (defaultValue : record) (q : t) (data : list record) : record :=
  default defaultValue (first q data).

(** [single]: the element, or the error thrown. *)
Definition single (q : t) (data : list record) : record + string :=
  match toArray q data with
  | [result] => inl result
  | _ => inr "Sequence contains more than one element"%string
  end.

Definition count (q : t) (data : list record) : nat :=
  length (toArray q data).

Definition any (predicate : option (record -> bool)) (q : t) (data : list record) : bool :=
  match predicate with
  | Some predicate => (0 <? length (toArray (where_ predicate q) data))%nat
  | None => (0 <? length (toArray q data))%nat
  end.

Definition all (predicate : record -> bool) (q : t) (data : list record) : bool :=
  forallb predicate (toArray q data).

End ToArray.

End Queryable.

(** The order the sort keys of a query stand for, the key given last first:
    a record goes in front of another when the first key says so, and when
    that key ties, when the keys after it say so. *)
Fixpoint ordered_by (keys : list (string * bool)) (x y : record) : Prop :=
  match keys with
  | [] => True
  | (key, desc) :: keys =>
      Queryable.compareByKey key desc x y <= 0 /\
      (Queryable.compareByKey key desc y x <= 0 -> ordered_by keys x y)
  end.

(** ** Predicates of the further properties *)

(** The path is neither a table file nor a temporary file of [dir]. *)
Definition foreign_path (dir path : string) : Prop :=
  forall t, path <> filePath dir t /\ path <> tempPath dir t.

(** Every read registered as pending is a load of its table that is still
    in flight. *)
Definition pending_in_flight (st : provider) : Prop :=
  JsMap.wf (pendingReads st) /\
  forall t p, (t, p) ∈ pendingReads st ->
    loads st !! p = Some {| ltable := t; lstate := None |}.

(** A flush is scheduled only for a queue that holds something, and every
    flush that was started took at least one write and no table twice. *)
Definition flusher_wf (st : provider) : Prop :=
  (writeTimer st = true -> writeQueue st <> []) /\
  Forall (fun f => writes f <> [] /\ NoDup (wtable <$> writes f)) (flushes st).

(** Every array the cache holds is frozen. *)
Definition cache_frozen (st : provider) : Prop :=
  Forall (fun p => is_frozen (mem st) (data p.2) = true) (cache st).

(** The table of every write that went through, and of every notification
    that was emitted, has its file. *)
Definition files_present (st : provider) : Prop :=
  Forall (fun f => Forall (fun w => wstage w = Persisted ->
            is_Some (disk st !! filePath (dataDir st) (wtable w))) (writes f))
    (flushes st) /\
  Forall (fun t => is_Some (disk st !! filePath (dataDir st) t)) (emitted st).

(** What one turn of the event loop can do to the files of [dir]: nothing,
    write a temporary file, or rename a temporary file onto its table file. *)
Inductive disk_effect (dir : string) (d d' : gmap string content) : Prop :=
| de_none : d' = d -> disk_effect dir d d'
| de_write t c : d' = <[tempPath dir t := c]> d -> disk_effect dir d d'
| de_rename t c :
    d !! tempPath dir t = Some c ->
    d' = <[filePath dir t := c]> (delete (tempPath dir t) d) ->
    disk_effect dir d d'.

(** Every load in flight is the one registered for its table, and no
    [close] is waiting for a flush. *)
Definition registered (st : provider) : Prop :=
  (forall p t, loads st !! p = Some {| ltable := t; lstate := None |} ->
     JsMap.get (pendingReads st) t = Some p) /\
  Forall (fun f => closing f = false) (flushes st).

Definition is_Close (ev : event) : bool :=
  match ev with Close => true | _ => false end.


(** [n] reads of a table that go to disk, one after the other: each call
    of [getData] is followed by the settling of the load it started; [p] is
    the number the first load gets. *)
Fixpoint reads_from_disk (table : string) (p : nat) (times : list Z) : list event :=
  match times with
  | [] => []
  | now :: times =>
      GetData table now :: LoadSettled p None now :: reads_from_disk table (S p) times
  end.

(** ** More sample runs *)

(** A provider whose [products] table has an index on [price]. *)
Definition s_indexed : provider :=
  connected "data" h0 (createIndex "data" [r1; r2] "products" "price" ∅).

(** A write to [products] and the flush that persists it. *)
Definition save_and_flush : list event :=
  [SaveData "products" 0 1000; TimerFired; WriteFileSettled 0 0 None;
   RenameSettled 0 0 false].

Definition s_flushed : provider := default s0 (run save_and_flush s0).

(** The provider above with a read of [orders] waiting for its load. *)
Definition s_waiting : provider := (getData "orders" 5 s2).1.

(** Ten reads, at the times [1], ..., [10]. *)
Definition ten_times : list Z := Z.of_nat <$> seq 1 10.

(** [connect] with two tables to preload; the read of [products] fails. *)
Definition sample_config : config :=
  {| cfg_dataDir := Some "db"%string; cfg_preload := Some ["products"; "tags"]%string |}.

Definition sample_settles : list (string * option string * Z) :=
  [("tags", None, 2); ("products", Some "EACCES", 1)]%string.

Definition s_created : provider :=
  connected "./data" h0 {[ filePath "db" "tags" := JSON_stringify [r3] ]}.

(** Queries on the records above, without relations to load. *)
Definition no_relations (relations : list string) (results : list record) : list record :=
  results.

Definition cheap (r : record) : bool := js_le (r !! "price"%string) (Some 20).

Definition by_price : Queryable.t := Queryable.orderBy "price" Queryable.new.

(** ** The write lock of a table set: [withWriteLock]

    [add], [addRange], [update] and [remove] run inside [withWriteLock].
    The lock is a chain of promises: the field [writeLock] starts as
    [Promise.resolve()], and every call puts a promise of its own there and
    awaits the one it found.  The promises are numbered in the order they
    are made, the starting one being number [0]. *)

Module WriteLock.

(** Where a call of [withWriteLock] is: at [await currentLock], inside
    [await operation()], or past [finally], the operation having returned
    or thrown. *)
Inductive stage : Type := Waiting | Running | Returned | Threw.

Record call : Type := {
  currentLock : nat;   (* the promise the call awaits *)
  resolver : nat;      (* the promise the call made: [finally] resolves it *)
  at_stage : stage
}.

Record t : Type := {
  promises : list bool;   (* the promises made so far: resolved? *)
  writeLock : nat;        (* [this.writeLock] *)
  calls : list call       (* the calls, in the order they were made *)
}.

(** [private writeLock: Promise<void> = Promise.resolve()]. *)
Definition new : t := {| promises := [true]; writeLock := 0; calls := [] |}.

(** [withWriteLock(operation)], up to [await currentLock]. *)
Definition withWriteLock (s : t) : t :=
  let currentLock := writeLock s in
  let made := length (promises s) in
  {| promises := promises s ++ [false];
     writeLock := made;
     calls := calls s ++
              [{| currentLock := currentLock; resolver := made; at_stage := Waiting |}] |}.

Definition set_stage (k : nat) (g : stage) (s : t) : t :=
  {| promises := promises s;
     writeLock := writeLock s;
     calls := alter (fun c => {| currentLock := currentLock c;
                                 resolver := resolver c;
                                 at_stage := g |}) k (calls s) |}.

Definition resolve (p : nat) (s : t) : t :=
  {| promises := <[p := true]> (promises s);
     writeLock := writeLock s;
     calls := calls s |}.

(** [await currentLock] resumes in call [k]: [operation()] is called. *)
Definition resume (k : nat) (s : t) : option t :=
  c ← calls s !! k;
  match at_stage c, promises s !! currentLock c with
  | Waiting, Some true => Some (set_stage k Running s)
  | _, _ => None
  end.

(** The operation of call [k] returns or throws: [finally { resolver() }]. *)
Definition settle (k : nat) (threw : bool) (s : t) : option t :=
  c ← calls s !! k;
  match at_stage c with
  | Running =>
      Some (resolve (resolver c) (set_stage k (if threw then Threw else Returned) s))
  | _ => None
  end.

Inductive event : Type :=
  | Call
  | Resume (k : nat)
  | Settle (k : nat) (threw : bool).

Definition step (e : event) (s : t) : option t :=
  match e with
  | Call => Some (withWriteLock s)
  | Resume k => resume k s
  | Settle k threw => settle k threw s
  end.

Fixpoint run (es : list event) (s : t) : option t :=
  match es with
  | [] => Some s
  | e :: es => s' ← step e s; run es s'
  end.

Definition settled (g : stage) : bool :=
  match g with Returned | Threw => true | Waiting | Running => false end.

(** Every call before call [k] has returned or thrown. *)
Definition earlier_settled (k : nat) (s : t) : Prop :=
  forall j c, (j < k)%nat -> calls s !! j = Some c -> settled (at_stage c) = true.

(** What holds of the chain in every state: call [k] awaits promise [k] and
    made promise [k + 1], which is resolved once the call has settled. *)
Definition chained (s : t) : Prop :=
  length (promises s) = S (length (calls s)) /\
  writeLock s = length (calls s) /\
  promises s !! 0%nat = Some true /\
  forall k c, calls s !! k = Some c ->
    currentLock c = k /\ resolver c = S k /\
    promises s !! S k = Some (settled (at_stage c)) /\
    (at_stage c <> Waiting -> earlier_settled k s).

End WriteLock.

(** Three calls; the first throws, the second has started. *)
Definition three_calls : list WriteLock.event :=
  [WriteLock.Call; WriteLock.Call; WriteLock.Resume 0; WriteLock.Call;
   WriteLock.Settle 0 true; WriteLock.Resume 1].


(** ** A table set over the provider

    [add] of a table set whose context runs on the provider, and whose
    table is in the cache: [getData] answers from the cache, the new entity
    is a new object pushed on the array the caller got, and that array goes
    to [saveData].  The calls [add] makes are taken together: no other call
    of the provider falls between them. *)

Module Backed.

(** [data.push(newEntity)], [newEntity] being a new object. *)
Definition push (data : nat) (newEntity : record) (h : heap) : heap :=
  let o := length (objs h) in
  mutate_array data (elems h data ++ [o])
    {| objs := objs h ++ [newEntity]; arrs := arrs h |}.

(** [add], from the array [getData] resolved with; [now] is what
    [Date.now()] answers in [saveData]. *)
Definition add_on (primaryKey table : string) (entity : record) (data : nat) (now : Z)
    (st : provider) : provider * record :=
  let newEntity := (DbSet.add primaryKey entity (deref (mem st) data)).1 in
  (saveData table data now (with_mem (push data newEntity (mem st)) st), newEntity).

(** [add] on a cached table; on a miss the caller is left awaiting the
    load, and [add_on] is what follows it. *)
Definition add (primaryKey table : string) (entity : record) (now now' : Z)
    (st : provider) : option (provider * record) :=
  match getData table now st with
  | (st, Now data) => Some (add_on primaryKey table entity data now' st)
  | (_, Later _) => None
  end.

(** One [add] after the other, each with the two times its [Date.now()]
    answer. *)
Fixpoint add_each (primaryKey table : string) (calls : list (record * Z * Z))
    (st : provider) : option (provider * list record) :=
  match calls with
  | [] => Some (st, [])
  | (entity, now, now') :: calls =>
      match add primaryKey table entity now now' st with
      | Some (st, newEntity) =>
          match add_each primaryKey table calls st with
          | Some (st, results) => Some (st, newEntity :: results)
          | None => None
          end
      | None => None
      end
  end.

End Backed.

(** The cache of [st] holds [table] with the records [d], and no entry of
    the cache was used after [t0]. *)
Definition caches (st : provider) (table : string) (d : list record) (t0 : Z) : Prop :=
  invariant st /\
  Forall (fun p => lastAccess p.2 <= t0) (cache st) /\
  exists cached,
    JsMap.get (cache st) table = Some cached /\
    valid_array (mem st) (data cached) /\
    deref (mem st) (data cached) = d.

(** The write queue of [st] holds [table] with the records [d], and the
    flush is scheduled. *)
Definition queued (st : provider) (table : string) (d : list record) : Prop :=
  writeTimer st = true /\
  exists a, JsMap.get (writeQueue st) table = Some a /\ deref (mem st) a = d.

(** The clock does not go back from [t0] on, over the calls. *)
Fixpoint clock_runs_on (t0 : Z) (calls : list (record * Z * Z)) : Prop :=
  match calls with
  | [] => True
  | (_, now, now') :: calls => t0 <= now /\ now <= now' /\ clock_runs_on now' calls
  end.

(** The time of the last call, or [t0]. *)
Definition last_time (t0 : Z) (calls : list (record * Z * Z)) : Z :=
  foldl (fun _ c => c.2) t0 calls.

(** ** Flushes among other events *)

(** The file operations write [i] of flush [j] still has to get through
    from stage [s], each settling without a fault. *)
Definition goes_through (j i : nat) (s : stage) : list event :=
  match s with
  | Writing => [WriteFileSettled j i None; RenameSettled j i false]
  | Renaming => [RenameSettled j i false]
  | Persisted | Failed => []
  end.

(** [tags] is persisted, then the temporary file of [products] cannot be
    written. *)
Definition tags_then_products_fails : list event :=
  [WriteFileSettled 0 1 None; RenameSettled 0 1 false;
   WriteFileSettled 0 0 (Some true)].

(** The caller changes the array it passed to [saveData] before the flush
    starts: the array now holds the second record. *)
Definition altered_before_flush : list event :=
  [SaveData "products" 0 1000; MutateArray 0 [1%nat]; TimerFired;
   WriteFileSettled 0 0 None; RenameSettled 0 0 false].

(** Two persists of [products] under way at once.  The first has written
    the temporary file and awaits its rename when [close] starts the
    second; the write of the second breaks off, leaving a truncated
    temporary file, and then the rename of the first settles. *)
Definition overlapping_persists : list event :=
  [SaveData "products" 0 1000; TimerFired; WriteFileSettled 0 0 None;
   SaveData "products" 1 1100; Close; WriteFileSettled 1 0 (Some true);
   RenameSettled 0 0 false].

(** A write is queued while an earlier flush of the table is under way;
    [close] flushes it and is through before the earlier write and its
    rename settle. *)
Definition close_overtakes : list event :=
  [SaveData "products" 0 1000; TimerFired; SaveData "products" 1 1100; Close;
   WriteFileSettled 1 0 None; RenameSettled 1 0 false;
   WriteFileSettled 0 0 None; RenameSettled 0 0 false].

(** Nine reads of [products] from disk, which has no file of it, and a
    tenth under way when [saveData] stores the first array; then the tenth
    load settles. *)
Definition stale_promotion : list event :=
  reads_from_disk "products" 0 [1; 2; 3; 4; 5; 6; 7; 8; 9] ++
  [GetData "products" 10; SaveData "products" 0 1000; LoadSettled 9 None 1001].

(** * Properties *)

(** ** Binary search *)

Lemma binarySearch_loop_eq arr field value findFirst lo hi result :
  binarySearch_loop arr field value findFirst lo hi result =
  if lo <=? hi then
    let mid := (lo + hi) / 2 in
    let midValue := field_at arr field mid in
    if findFirst then
      if js_ge midValue value
      then binarySearch_loop arr field value findFirst lo (mid - 1) mid
      else binarySearch_loop arr field value findFirst (mid + 1) hi result
    else
      if js_le midValue value
      then binarySearch_loop arr field value findFirst (mid + 1) hi mid
      else binarySearch_loop arr field value findFirst lo (mid - 1) result
  else result.
Proof.
  simp binarySearch_loop.
  destruct (Z_le_gt_dec lo hi) as [Hle|Hgt]; simpl;
    destruct (Z.leb_spec lo hi); try lia; reflexivity.
Qed.

Lemma mid_bounds lo hi : lo <= hi -> lo <= (lo + hi) / 2 <= hi.
Proof.
  intros. split; [apply Z.div_le_lower_bound | apply Z.div_le_upper_bound]; lia.
Qed.

Section Search.
Variables (arr : list record) (field : string) (value : jsval).

Let ge_at (i : Z) : bool := js_ge (field_at arr field i) value.
Let le_at (i : Z) : bool := js_le (field_at arr field i) value.

(** Searching for the first position: [result] is always [hi + 1]. *)
Lemma binarySearch_loop_first (n : nat) : forall lo hi result,
  Z.to_nat (hi - lo + 1) = n -> lo <= hi + 1 -> result = hi + 1 ->
  (forall i j, lo <= i -> i <= j -> j <= hi -> ge_at i = true -> ge_at j = true) ->
  let s := binarySearch_loop arr field value true lo hi result in
  lo <= s <= hi + 1 /\
  (forall i, lo <= i < s -> ge_at i = false) /\
  (forall i, s <= i <= hi -> ge_at i = true).
Proof.
  induction n as [n IH] using lt_wf_ind. intros lo hi result Hn Hlh Hres Hmono.
  rewrite binarySearch_loop_eq.
  destruct (Z.leb_spec lo hi) as [Hle|Hgt]; cbn zeta.
  - pose proof (mid_bounds lo hi Hle) as Hmid.
    set (mid := (lo + hi) / 2) in *.
    fold (ge_at mid). destruct (ge_at mid) eqn:Hge.
    + destruct (IH (Z.to_nat (mid - 1 - lo + 1)) ltac:(lia) lo (mid - 1) mid
                  eq_refl ltac:(lia) ltac:(lia)) as (Hb & Hlow & Hhigh).
      { intros i j ? ? ?. apply Hmono; lia. }
      split; [lia|]. split; [exact Hlow|].
      intros i Hi. destruct (Z_le_gt_dec i (mid - 1)).
      * apply Hhigh. lia.
      * apply (Hmono mid i); [lia..|exact Hge].
    + destruct (IH (Z.to_nat (hi - (mid + 1) + 1)) ltac:(lia) (mid + 1) hi result
                  eq_refl ltac:(lia) ltac:(lia)) as (Hb & Hlow & Hhigh).
      { intros i j ? ? ?. apply Hmono; lia. }
      split; [lia|]. split; [|exact Hhigh].
      intros i Hi. destruct (Z_le_gt_dec (mid + 1) i).
      * apply Hlow. lia.
      * destruct (ge_at i) eqn:Hgi; [|reflexivity].
        rewrite <- Hge. symmetry. apply (Hmono i mid); [lia..|exact Hgi].
  - split; [lia|]. split; intros i Hi; lia.
Qed.

(** Searching for the last position: [result] is always [lo - 1]. *)
Lemma binarySearch_loop_last (n : nat) : forall lo hi result,
  Z.to_nat (hi - lo + 1) = n -> lo <= hi + 1 -> result = lo - 1 ->
  (forall i j, lo <= i -> i <= j -> j <= hi -> le_at j = true -> le_at i = true) ->
  let e := binarySearch_loop arr field value false lo hi result in
  lo - 1 <= e <= hi /\
  (forall i, lo <= i <= e -> le_at i = true) /\
  (forall i, e < i <= hi -> le_at i = false).
Proof.
  induction n as [n IH] using lt_wf_ind. intros lo hi result Hn Hlh Hres Hmono.
  rewrite binarySearch_loop_eq.
  destruct (Z.leb_spec lo hi) as [Hle|Hgt]; cbn zeta.
  - pose proof (mid_bounds lo hi Hle) as Hmid.
    set (mid := (lo + hi) / 2) in *.
    fold (le_at mid). destruct (le_at mid) eqn:Hlm.
    + destruct (IH (Z.to_nat (hi - (mid + 1) + 1)) ltac:(lia) (mid + 1) hi mid
                  eq_refl ltac:(lia) ltac:(lia)) as (Hb & Hlow & Hhigh).
      { intros i j ? ? ?. apply Hmono; lia. }
      split; [lia|]. split; [|exact Hhigh].
      intros i Hi. destruct (Z_le_gt_dec (mid + 1) i).
      * apply Hlow. lia.
      * apply (Hmono i mid); [lia..|exact Hlm].
    + destruct (IH (Z.to_nat (mid - 1 - lo + 1)) ltac:(lia) lo (mid - 1) result
                  eq_refl ltac:(lia) ltac:(lia)) as (Hb & Hlow & Hhigh).
      { intros i j ? ? ?. apply Hmono; lia. }
      split; [lia|]. split; [exact Hlow|].
      intros i Hi. destruct (Z_le_gt_dec i (mid - 1)).
      * apply Hhigh. lia.
      * destruct (le_at i) eqn:Hli; [|reflexivity].
        rewrite <- Hlm. symmetry. apply (Hmono mid i); [lia..|exact Hli].
  - split; [lia|]. split; intros i Hi; lia.
Qed.
End Search.

Lemma filter_interval {A} (P : A -> bool) (l : list A) : forall a b : nat,
  (forall (i : nat) x, l !! i = Some x -> P x = true <-> (a <= i < b)%nat) ->
  List.filter P l = take (b - a) (drop a l).
Proof.
  induction l as [|x l IH]; intros a b H.
  - rewrite drop_nil, take_nil. reflexivity.
  - pose proof (H 0%nat x eq_refl) as H0. simpl.
    destruct a as [|a].
    + destruct b as [|b].
      * destruct (P x); [lia|].
        rewrite (IH 0%nat 0%nat); [reflexivity|].
        intros i y Hy. rewrite (H (S i) y Hy). lia.
      * destruct (P x); [|exfalso; apply Bool.diff_false_true, H0; lia].
        simpl. f_equal. rewrite (IH 0%nat b); [rewrite Nat.sub_0_r; reflexivity|].
        intros i y Hy. rewrite (H (S i) y Hy). lia.
    + destruct (P x); [lia|].
      rewrite (IH a (b - 1)%nat).
      * replace (b - 1 - a)%nat with (b - S a)%nat by lia. reflexivity.
      * intros i y Hy. rewrite (H (S i) y Hy). lia.
Qed.

Lemma field_at_lookup arr field (i : nat) r :
  arr !! i = Some r -> field_at arr field (Z.of_nat i) = r !! field.
Proof. intros H. unfold field_at. rewrite Nat2Z.id, H. reflexivity. Qed.

Lemma field_at_in_range arr field i :
  0 <= i < Z.of_nat (length arr) ->
  exists r, arr !! Z.to_nat i = Some r /\ field_at arr field i = r !! field.
Proof.
  intros Hi. destruct (lookup_lt_is_Some_2 arr (Z.to_nat i)) as [r Hr]; [lia|].
  exists r. split; [exact Hr|]. unfold field_at. rewrite Hr. reflexivity.
Qed.

Lemma sorted_by_ge_mono arr field v i j :
  sorted_by field arr -> 0 <= i -> i <= j -> j <= Z.of_nat (length arr) - 1 ->
  js_ge (field_at arr field i) v = true -> js_ge (field_at arr field j) v = true.
Proof.
  intros Hs Hi Hij Hj Hge.
  destruct (Z.eq_dec i j) as [->|Hne]; [exact Hge|].
  destruct (field_at_in_range arr field i) as (ri & Hri & Ei); [lia|].
  destruct (field_at_in_range arr field j) as (rj & Hrj & Ej); [lia|].
  assert (Hle : js_le (ri !! field) (rj !! field) = true) by (apply (Hs (Z.to_nat i) (Z.to_nat j)); [lia|assumption..]).
  rewrite Ei in Hge. rewrite Ej.
  destruct (ri !! field), (rj !! field), v; simpl in *; try discriminate. lia.
Qed.

Lemma sorted_by_le_mono arr field v i j :
  sorted_by field arr -> 0 <= i -> i <= j -> j <= Z.of_nat (length arr) - 1 ->
  js_le (field_at arr field j) v = true -> js_le (field_at arr field i) v = true.
Proof.
  intros Hs Hi Hij Hj Hge.
  destruct (Z.eq_dec i j) as [->|Hne]; [exact Hge|].
  destruct (field_at_in_range arr field i) as (ri & Hri & Ei); [lia|].
  destruct (field_at_in_range arr field j) as (rj & Hrj & Ej); [lia|].
  assert (Hle : js_le (ri !! field) (rj !! field) = true) by (apply (Hs (Z.to_nat i) (Z.to_nat j)); [lia|assumption..]).
  rewrite Ej in Hge. rewrite Ei.
  destruct (ri !! field), (rj !! field), v; simpl in *; try discriminate. lia.
Qed.

Lemma binarySearch_first_spec arr field v :
  sorted_by field arr ->
  let s := binarySearch arr field v true in
  0 <= s <= Z.of_nat (length arr) /\
  (forall i, 0 <= i < s -> js_ge (field_at arr field i) v = false) /\
  (forall i, s <= i < Z.of_nat (length arr) -> js_ge (field_at arr field i) v = true).
Proof.
  intros Hs. unfold binarySearch. cbn zeta.
  destruct (binarySearch_loop_first arr field v _ 0 (Z.of_nat (length arr) - 1)
              (Z.of_nat (length arr)) eq_refl ltac:(lia) ltac:(lia))
    as (Hb & Hlow & Hhigh).
  { intros i j ? ? ?. apply sorted_by_ge_mono; assumption. }
  split; [lia|]. split; [exact Hlow|]. intros i Hi. apply Hhigh. lia.
Qed.

Lemma binarySearch_last_spec arr field v :
  sorted_by field arr ->
  let e := binarySearch arr field v false in
  -1 <= e < Z.of_nat (length arr) /\
  (forall i, 0 <= i <= e -> js_le (field_at arr field i) v = true) /\
  (forall i, e < i < Z.of_nat (length arr) -> js_le (field_at arr field i) v = false).
Proof.
  intros Hs. unfold binarySearch. cbn zeta.
  destruct (binarySearch_loop_last arr field v _ 0 (Z.of_nat (length arr) - 1)
              (-1) eq_refl ltac:(lia) ltac:(lia))
    as (Hb & Hlow & Hhigh).
  { intros i j ? ? ?. apply sorted_by_le_mono; assumption. }
  split; [lia|]. split; [exact Hlow|]. intros i Hi. apply Hhigh. lia.
Qed.

Lemma slice_is_range_filter arr field min max :
  sorted_by field arr ->
  js_slice arr (binarySearch arr field min true)
               (binarySearch arr field max false + 1) =
  List.filter (inRange field min max) arr.
Proof.
  intros Hs.
  destruct (binarySearch_first_spec arr field min Hs) as (Hbs & Hs1 & Hs2).
  destruct (binarySearch_last_spec arr field max Hs) as (Hbe & He1 & He2).
  cbn zeta in *.
  set (s := binarySearch arr field min true) in *.
  set (e := binarySearch arr field max false) in *.
  unfold js_slice.
  destruct (Z.ltb_spec s 0); [lia|]. destruct (Z.ltb_spec (e + 1) 0); [lia|].
  rewrite (Z.min_l s), (Z.min_l (e + 1)) by lia.
  rewrite (filter_interval _ arr (Z.to_nat s) (Z.to_nat (e + 1))).
  - f_equal. lia.
  - intros i r Hr. pose proof (lookup_lt_Some _ _ _ Hr) as Hlt.
    unfold inRange. rewrite <- !(field_at_lookup arr field i r Hr).
    destruct (Z_lt_ge_dec (Z.of_nat i) s) as [Hlo|Hlo].
    + rewrite Hs1 by lia. simpl. split; [discriminate|lia].
    + rewrite Hs2 by lia. simpl.
      destruct (Z_le_gt_dec (Z.of_nat i) e) as [Hhi|Hhi].
      * rewrite He1 by lia. split; [lia|reflexivity].
      * rewrite He2 by lia. split; [discriminate|lia].
Qed.


(** ** Stable sorting *)

Section Sorting.
Context {A : Type} (cmp : A -> A -> Z) (D : A -> Prop).
Hypothesis cmp_trans : forall x y z, D x -> D y -> D z ->
  cmp x y <= 0 -> cmp y z <= 0 -> cmp x z <= 0.
Hypothesis cmp_total : forall x y, D x -> D y -> 0 < cmp x y -> cmp y x <= 0.

Lemma js_insert_perm x l : Permutation (js_insert cmp x l) (x :: l).
Proof.
  induction l as [|y l IH]; simpl; [reflexivity|].
  destruct (Z.leb_spec (cmp x y) 0); [reflexivity|].
  rewrite IH. apply perm_swap.
Qed.

Lemma js_sort_perm l : Permutation (js_sort cmp l) l.
Proof.
  induction l as [|x l IH]; simpl; [reflexivity|].
  rewrite js_insert_perm. constructor. exact IH.
Qed.

Lemma js_insert_head x l :
  Forall ((precedes cmp) x) l -> js_insert cmp x l = x :: l.
Proof.
  destruct l as [|y l]; [reflexivity|]. intros H. simpl.
  apply Forall_cons in H as [H _]. unfold precedes in H.
  destruct (Z.leb_spec (cmp x y) 0); [reflexivity|lia].
Qed.

Lemma js_insert_sorted x l :
  D x -> Forall D l -> StronglySorted (precedes cmp) l ->
  StronglySorted (precedes cmp) (js_insert cmp x l).
Proof.
  intros Dx Dl Hs. induction Hs as [|y l Hs IH Hy]; simpl.
  - repeat constructor.
  - apply Forall_cons in Dl as [Dy Dl].
    destruct (Z.leb_spec (cmp x y) 0) as [Hxy|Hxy].
    + constructor; [constructor; assumption|].
      constructor; [exact Hxy|].
      rewrite Forall_forall in Hy, Dl |- *. intros z Hz.
      apply (cmp_trans x y z); auto. apply Hy, Hz.
    + constructor; [apply IH, Dl|].
      rewrite js_insert_perm. constructor; [|exact Hy].
      apply cmp_total; auto.
Qed.

Lemma js_sort_sorted l : Forall D l -> StronglySorted (precedes cmp) (js_sort cmp l).
Proof.
  induction l as [|x l IH]; intros Dl; simpl; [constructor|].
  apply Forall_cons in Dl as [Dx Dl].
  apply js_insert_sorted; [exact Dx| |apply IH, Dl].
  rewrite js_sort_perm. exact Dl.
Qed.

Lemma js_sort_id l : StronglySorted (precedes cmp) l -> js_sort cmp l = l.
Proof.
  induction 1 as [|x l Hs IH Hx]; simpl; [reflexivity|].
  rewrite IH. apply js_insert_head, Hx.
Qed.

Lemma filter_js_insert_drop (P : A -> bool) x l :
  P x = false -> List.filter P (js_insert cmp x l) = List.filter P l.
Proof.
  intros Hx. induction l as [|y l IH]; simpl; [rewrite Hx; reflexivity|].
  destruct (Z.leb_spec (cmp x y) 0); simpl; [rewrite Hx; reflexivity|].
  rewrite IH. reflexivity.
Qed.

Lemma Forall_filter_bool (Q : A -> Prop) (P : A -> bool) l :
  Forall Q l -> Forall Q (List.filter P l).
Proof.
  induction 1 as [|y l Hy Hl IH]; simpl; [constructor|].
  destruct (P y); [constructor|]; assumption.
Qed.

Lemma filter_js_insert_keep (P : A -> bool) x l :
  P x = true -> D x -> Forall D l -> StronglySorted (precedes cmp) l ->
  List.filter P (js_insert cmp x l) = js_insert cmp x (List.filter P l).
Proof.
  intros Hx Dx Dl Hs. induction Hs as [|y l Hs IH Hy]; simpl.
  - rewrite Hx. reflexivity.
  - apply Forall_cons in Dl as [Dy Dl].
    destruct (Z.leb_spec (cmp x y) 0) as [Hxy|Hxy]; simpl.
    + rewrite Hx. destruct (P y) eqn:Py; simpl.
      * destruct (Z.leb_spec (cmp x y) 0); [reflexivity|lia].
      * symmetry. apply js_insert_head, Forall_filter_bool.
        rewrite Forall_forall in Hy, Dl |- *. intros z Hz.
        apply (cmp_trans x y z); auto. apply Hy, Hz.
    + rewrite (IH Dl). destruct (P y) eqn:Py; simpl; [|reflexivity].
      destruct (Z.leb_spec (cmp x y) 0); [lia|reflexivity].
Qed.

Lemma filter_js_sort (P : A -> bool) l :
  Forall D l ->
  List.filter P (js_sort cmp l) = js_sort cmp (List.filter P l).
Proof.
  induction l as [|x l IH]; intros Dl; simpl; [reflexivity|].
  apply Forall_cons in Dl as [Dx Dl].
  destruct (P x) eqn:Px; simpl.
  - rewrite filter_js_insert_keep; auto.
    + rewrite IH by exact Dl. reflexivity.
    + rewrite js_sort_perm. exact Dl.
    + apply js_sort_sorted, Dl.
  - rewrite filter_js_insert_drop by exact Px. apply IH, Dl.
Qed.
End Sorting.

(** ** The index path against the fallback path *)

Section IndexOrder.
Variable field : string.

Let has_field (r : record) : Prop := is_Some (r !! field).

Lemma compareByField_le (a b : record) x y :
  a !! field = Some x -> b !! field = Some y ->
  compareByField field a b <= 0 <-> x <= y.
Proof.
  intros Ha Hb. unfold compareByField. rewrite Ha, Hb. simpl.
  destruct (Z.ltb_spec x y); [lia|].
  destruct (Z.gtb_spec x y); lia.
Qed.

Lemma compareByField_trans x y z :
  has_field x -> has_field y -> has_field z ->
  compareByField field x y <= 0 -> compareByField field y z <= 0 ->
  compareByField field x z <= 0.
Proof.
  intros [a Ha] [b Hb] [c Hc].
  rewrite (compareByField_le x y a b), (compareByField_le y z b c),
    (compareByField_le x z a c) by assumption. lia.
Qed.

Lemma compareByField_total x y :
  has_field x -> has_field y ->
  0 < compareByField field x y -> compareByField field y x <= 0.
Proof.
  intros [a Ha] [b Hb] H.
  pose proof (compareByField_le x y a b Ha Hb).
  rewrite (compareByField_le y x b a) by assumption. lia.
Qed.

Lemma sorted_by_cons x l :
  sorted_by field (x :: l) <->
  Forall (fun y => js_le (x !! field) (y !! field) = true) l /\ sorted_by field l.
Proof.
  split.
  - intros H. split.
    + rewrite Forall_lookup. intros j y Hy.
      apply (H 0%nat (S j)); [lia|reflexivity|exact Hy].
    + intros i j ri rj Hij Hi Hj. apply (H (S i) (S j)); [lia|exact Hi|exact Hj].
  - intros [Hx Hl] i j ri rj Hij Hi Hj.
    destruct j as [|j]; [lia|]. simpl in Hj.
    destruct i as [|i]; simpl in Hi.
    + injection Hi as <-. rewrite Forall_lookup in Hx. apply (Hx j), Hj.
    + apply (Hl i j); [lia|exact Hi|exact Hj].
Qed.

Lemma js_le_precedes (x y : record) :
  js_le (x !! field) (y !! field) = true -> precedes (compareByField field) x y.
Proof.
  unfold precedes. destruct (x !! field) as [a|] eqn:Ha; [|discriminate].
  destruct (y !! field) as [b|] eqn:Hb; [|discriminate]. simpl. intros H.
  rewrite (compareByField_le x y a b) by assumption. lia.
Qed.

Lemma precedes_js_le (x y : record) :
  has_field x -> has_field y ->
  precedes (compareByField field) x y -> js_le (x !! field) (y !! field) = true.
Proof.
  intros [a Ha] [b Hb]. unfold precedes.
  rewrite (compareByField_le x y a b), Ha, Hb by assumption. simpl. lia.
Qed.

Lemma sorted_by_StronglySorted l :
  sorted_by field l -> StronglySorted (precedes (compareByField field)) l.
Proof.
  induction l as [|x l IH]; [constructor|].
  rewrite sorted_by_cons. intros [Hx Hl]. constructor; [apply IH, Hl|].
  eapply Forall_impl; [exact Hx|]. intros y. apply js_le_precedes.
Qed.

Lemma StronglySorted_sorted_by l :
  Forall has_field l -> StronglySorted (precedes (compareByField field)) l ->
  sorted_by field l.
Proof.
  intros Dl Hs. induction Hs as [|x l Hs IH Hx].
  - intros i j ri rj _ Hi. discriminate.
  - apply Forall_cons in Dl as [Dx Dl]. rewrite sorted_by_cons.
    split; [|apply IH, Dl].
    rewrite Forall_forall in Hx, Dl |- *. intros y Hy.
    apply precedes_js_le; auto.
Qed.

Lemma js_sort_sorted_by l :
  Forall has_field l -> sorted_by field (js_sort (compareByField field) l).
Proof.
  intros Dl. apply StronglySorted_sorted_by.
  - rewrite js_sort_perm. exact Dl.
  - apply (js_sort_sorted _ has_field compareByField_trans compareByField_total), Dl.
Qed.
End IndexOrder.

Lemma queryRange_indexed dataDir data table field min max disk :
  queryRange dataDir data table field min max
    (createIndex dataDir data table field disk) =
  let sorted := js_sort (compareByField field) data in
  js_slice sorted (binarySearch sorted field min true)
                  (binarySearch sorted field max false + 1).
Proof.
  unfold queryRange, createIndex. rewrite lookup_insert_eq. reflexivity.
Qed.

Lemma queryRange_fallback dataDir data table field min max disk :
  disk !! indexPath dataDir table field ≫= JSON_parse = None ->
  queryRange dataDir data table field min max disk =
  List.filter (inRange field min max) data.
Proof. intros H. unfold queryRange. rewrite H. reflexivity. Qed.

(** C7, amended.  When every record has the indexed field, a range query
    through a freshly built index returns the records the fallback path
    returns, in ascending order of the field (records with equal values stay
    in table order), whereas the fallback keeps table order; the two answers
    are permutations of each other, and they are the same list when the
    table already is in ascending order of the field. *)
Theorem queryRange_index_sorts_fallback dataDir data table field min max disk :
  Forall (fun r : record => is_Some (r !! field)) data ->
  let indexed := queryRange dataDir data table field min max
                   (createIndex dataDir data table field disk) in
  let fallback := queryRange dataDir data table field min max
                    (delete (indexPath dataDir table field) disk) in
  fallback = List.filter (inRange field min max) data /\
  indexed = js_sort (compareByField field) fallback /\
  Permutation indexed fallback /\
  (sorted_by field data -> indexed = fallback).
Proof.
  intros Dl indexed fallback.
  assert (Hf : fallback = List.filter (inRange field min max) data).
  { apply queryRange_fallback. rewrite lookup_delete_eq. reflexivity. }
  assert (Hi : indexed = js_sort (compareByField field) fallback).
  { unfold indexed. rewrite queryRange_indexed. cbn zeta.
    rewrite slice_is_range_filter by (apply js_sort_sorted_by, Dl).
    rewrite Hf. apply (filter_js_sort _ _ (compareByField_trans field)
                         (compareByField_total field)), Dl. }
  split; [exact Hf|]. split; [exact Hi|]. split.
  - rewrite Hi. apply js_sort_perm.
  - intros Hs. rewrite Hi, Hf.
    rewrite <- (filter_js_sort _ _ (compareByField_trans field)
                  (compareByField_total field)) by exact Dl.
    rewrite (js_sort_id _ data) by (apply sorted_by_StronglySorted, Hs).
    reflexivity.
Qed.

Lemma sample_sorted : sorted_by "price" [r2; r1; r3].
Proof.
  intros i j ri rj Hij Hi Hj.
  destruct i as [|[|[|i]]]; destruct j as [|[|[|j]]]; simpl in Hi, Hj;
    try lia; try discriminate;
    injection Hi as <-; injection Hj as <-; vm_compute; reflexivity.
Defined.


(** C7 as stated fails: on the table [[r1; r2]] (prices 20 and 10) the
    index path answers [[r2; r1]] and the fallback path [[r1; r2]]. *)
Lemma queryRange_index_order_differs :
  queryRange "data" [r1; r2] "products" "price" (Some 0) (Some 100)
    (createIndex "data" [r1; r2] "products" "price" ∅) = [r2; r1] /\
  queryRange "data" [r1; r2] "products" "price" (Some 0) (Some 100)
    (delete (indexPath "data" "products" "price")
       (createIndex "data" [r1; r2] "products" "price" ∅)) = [r1; r2] /\
  [r2; r1] <> [r1; r2].
Proof.
  split; [vm_compute; reflexivity|]. split; [vm_compute; reflexivity|].
  intros H.
  apply (f_equal (fun l : list record => field_at l "price" 0)) in H.
  vm_compute in H. discriminate H.
Qed.

Lemma queryRange_index_sorts_fallback_witness :
  Forall (fun r : record => is_Some (r !! "price"%string)) [r1; r2] /\
  Permutation
    (queryRange "data" [r1; r2] "products" "price" (Some 0) (Some 100)
       (createIndex "data" [r1; r2] "products" "price" ∅))
    (queryRange "data" [r1; r2] "products" "price" (Some 0) (Some 100)
       (delete (indexPath "data" "products" "price") ∅)).
Proof.
  assert (H : Forall (fun r : record => is_Some (r !! "price"%string)) [r1; r2]).
  { repeat constructor; vm_compute; eauto. }
  split; [exact H|].
  apply (queryRange_index_sorts_fallback "data" [r1; r2] "products" "price"
           (Some 0) (Some 100) ∅ H).
Defined.

(** ** [Map] objects *)

Section JsMapFacts.
Context {V : Type}.
Implicit Types (m : list (string * V)) (k : string) (v : V).

Lemma get_set_eq m k v : JsMap.get (JsMap.set m k v) k = Some v.
Proof.
  induction m as [|[k' v'] m IH]; simpl.
  - rewrite decide_True; reflexivity.
  - destruct (decide (k' = k)) as [->|Hne]; simpl.
    + rewrite decide_True; reflexivity.
    + rewrite decide_False by exact Hne. exact IH.
Qed.

Lemma get_set_ne m k k' v : k <> k' -> JsMap.get (JsMap.set m k v) k' = JsMap.get m k'.
Proof.
  intros Hne. induction m as [|[k0 v0] m IH]; simpl.
  - rewrite decide_False by exact Hne. reflexivity.
  - destruct (decide (k0 = k)) as [->|Hne0]; simpl.
    + rewrite !decide_False by exact Hne. reflexivity.
    + destruct (decide (k0 = k')); [reflexivity|exact IH].
Qed.

Lemma get_None_not_key m k : JsMap.get m k = None <-> k ∉ JsMap.keys m.
Proof.
  unfold JsMap.keys. induction m as [|[k' v'] m IH]; simpl.
  - split; [intros _; apply not_elem_of_nil|reflexivity].
  - rewrite not_elem_of_cons. destruct (decide (k' = k)) as [->|Hne].
    + split; [discriminate|intros [? _]; congruence].
    + rewrite IH. split; [intros ?; split; [congruence|assumption]|intros [_ ?]; assumption].
Qed.

Lemma keys_set_new m k v : JsMap.get m k = None -> JsMap.set m k v = m ++ [(k, v)].
Proof.
  induction m as [|[k' v'] m IH]; simpl; [reflexivity|].
  destruct (decide (k' = k)); [discriminate|]. intros H. rewrite IH by exact H.
  reflexivity.
Qed.

Lemma keys_set_old m k v :
  is_Some (JsMap.get m k) -> JsMap.keys (JsMap.set m k v) = JsMap.keys m.
Proof.
  unfold JsMap.keys. induction m as [|[k' v'] m IH]; simpl.
  - intros [? ?]. discriminate.
  - destruct (decide (k' = k)) as [->|Hne]; [reflexivity|].
    intros H. rewrite !fmap_cons. f_equal. apply IH, H.
Qed.

Lemma wf_set m k v : JsMap.wf m -> JsMap.wf (JsMap.set m k v).
Proof.
  intros Hwf. destruct (JsMap.get m k) as [v0|] eqn:Hg.
  - unfold JsMap.wf. rewrite keys_set_old by (rewrite Hg; eauto). exact Hwf.
  - rewrite keys_set_new by exact Hg. unfold JsMap.wf, JsMap.keys.
    rewrite fmap_app, NoDup_app. split; [exact Hwf|]. split.
    + intros x Hx Hx'. apply list_elem_of_singleton in Hx'. simpl in Hx'. subst x.
      apply get_None_not_key in Hg. apply Hg, Hx.
    + apply NoDup_singleton.
Qed.

Lemma size_set m k v :
  JsMap.size (JsMap.set m k v) =
  match JsMap.get m k with Some _ => JsMap.size m | None => S (JsMap.size m) end.
Proof.
  unfold JsMap.size. induction m as [|[k' v'] m IH]; simpl; [reflexivity|].
  destruct (decide (k' = k)); simpl; [reflexivity|]. rewrite IH.
  destruct (JsMap.get m k); reflexivity.
Qed.

(** [toRemove.forEach(([key]) => this.cache.delete(key))] *)
Lemma forEach_delete (K : list (string * V)) m :
  foldl (fun m '(key, _) => JsMap.delete m key) m K =
  filter (fun p => p.1 ∉ K.*1) m.
Proof.
  revert m. induction K as [|[k v] K IH]; intros m; simpl.
  - symmetry. induction m as [|p m IHm]; [reflexivity|].
    rewrite filter_cons_True by apply not_elem_of_nil. f_equal. exact IHm.
  - rewrite IH. unfold JsMap.delete. rewrite list_filter_filter.
    apply list_filter_iff. intros p. rewrite not_elem_of_cons. tauto.
Qed.
End JsMapFacts.

(** ** Eviction *)

Lemma filter_none {A} (P : A -> Prop) `{forall x, Decision (P x)} (l : list A) :
  (forall x, x ∈ l -> ~ P x) -> filter P l = [].
Proof.
  induction l as [|x l IH]; intros Hl; [reflexivity|].
  rewrite filter_cons_False by (apply Hl; left). apply IH.
  intros y Hy. apply Hl. right. exact Hy.
Qed.

Lemma filter_all {A} (P : A -> Prop) `{forall x, Decision (P x)} (l : list A) :
  (forall x, x ∈ l -> P x) -> filter P l = l.
Proof.
  induction l as [|x l IH]; intros Hl; [reflexivity|].
  rewrite filter_cons_True by (apply Hl; left). f_equal. apply IH.
  intros y Hy. apply Hl. right. exact Hy.
Qed.

Lemma js_slice_prefix {A} (l : list A) (n : Z) :
  0 <= n <= Z.of_nat (length l) -> js_slice l 0 n = take (Z.to_nat n) l.
Proof.
  intros Hn. unfold js_slice. change (0 <? 0) with false. cbv iota.
  destruct (Z.ltb_spec n 0); [lia|].
  rewrite (Z.min_l 0), (Z.min_l n) by lia. rewrite Z.sub_0_r. reflexivity.
Qed.

Lemma byLastAccess_sorted (c : list (string * CacheEntry)) :
  StronglySorted (precedes byLastAccess) (js_sort byLastAccess c).
Proof.
  apply (js_sort_sorted byLastAccess (fun _ => True)).
  - unfold byLastAccess. intros; lia.
  - unfold byLastAccess. intros; lia.
  - apply Forall_forall. intros; exact I.
Qed.

Lemma evict_small c : (JsMap.size c <= 50)%nat -> evict c = c.
Proof.
  intros H. unfold evict. destruct (Nat.ltb_spec 50 (JsMap.size c)); [lia|reflexivity].
Qed.

Lemma evict_large c :
  JsMap.wf c -> (50 < JsMap.size c)%nat ->
  let sorted := js_sort byLastAccess c in
  evict c = filter (fun p => p.1 ∉ (take (length c - 40) sorted).*1) c /\
  evict c ≡ₚ drop (length c - 40) sorted.
Proof.
  intros Hwf Hsz sorted. unfold JsMap.size in Hsz.
  assert (Hperm : sorted ≡ₚ c) by apply js_sort_perm.
  assert (Hlen : length sorted = length c) by (rewrite Hperm; reflexivity).
  assert (E : evict c = filter (fun p => p.1 ∉ (take (length c - 40) sorted).*1) c).
  { unfold evict, JsMap.size, JsMap.entries.
    destruct (Nat.ltb_spec 50 (length c)); [|lia].
    fold sorted. cbn zeta. rewrite forEach_delete.
    rewrite js_slice_prefix by lia. rewrite Hlen.
    replace (Z.to_nat (Z.of_nat (length c) - 40)) with (length c - 40)%nat by lia.
    reflexivity. }
  split; [exact E|]. rewrite E.
  set (gone := (take (length c - 40) sorted).*1).
  transitivity (filter (fun p : string * CacheEntry => p.1 ∉ gone) sorted);
    [rewrite Hperm; reflexivity|].
  rewrite <- (take_drop (length c - 40) sorted) at 1.
  assert (Hnd : NoDup (take (length c - 40) sorted ++ drop (length c - 40) sorted).*1).
  { rewrite take_drop, Hperm. exact Hwf. }
  rewrite fmap_app in Hnd. apply NoDup_app in Hnd as (_ & Hdisj & _).
  rewrite filter_app, filter_none, filter_all; [reflexivity| |].
  - intros p Hp Hin. apply (Hdisj _ Hin). apply list_elem_of_fmap_2, Hp.
  - intros p Hp Hnot. apply Hnot. apply list_elem_of_fmap_2, Hp.
Qed.

(** C4. After every promotion the cache holds at most 50 tables.  When the
    promotion takes the count above 50, eviction leaves exactly 40 of the
    entries the cache had, and every evicted entry was accessed no later
    than every entry that stays. *)
Theorem addToCache_eviction_bound table a now st :
  JsMap.wf (cache st) ->
  let promoted :=
    JsMap.set (cache st) table
      {| data := next_array (mem st); version := this_version st;
         lastAccess := now |} in
  let st' := addToCache table a now st in
  (JsMap.size (cache st') <= 50)%nat /\
  JsMap.wf (cache st') /\
  cache st' `sublist_of` promoted /\
  ((JsMap.size promoted <= 50)%nat -> cache st' = promoted) /\
  ((50 < JsMap.size promoted)%nat -> JsMap.size (cache st') = 40%nat) /\
  (forall k e k' e',
     (k, e) ∈ promoted -> JsMap.get (cache st') k = None ->
     (k', e') ∈ cache st' ->
     lastAccess e <= lastAccess e').
Proof.
  intros Hwf promoted st'.
  assert (Hc : cache st' = evict promoted) by reflexivity.
  assert (Hwfp : JsMap.wf promoted) by apply wf_set, Hwf.
  rewrite Hc. clearbody promoted. clear Hc st' Hwf.
  destruct (le_lt_dec (JsMap.size promoted) 50) as [Hsmall|Hlarge].
  - rewrite evict_small by exact Hsmall.
    split; [exact Hsmall|]. split; [exact Hwfp|]. split; [reflexivity|].
    split; [reflexivity|]. split; [lia|].
    intros k e k' e' Hin Hnone _. apply get_None_not_key in Hnone.
    exfalso. apply Hnone. apply (list_elem_of_fmap_2 fst _ _ Hin).
  - destruct (evict_large promoted Hwfp Hlarge) as [E Hperm]. cbn zeta in *.
    set (sorted := js_sort byLastAccess promoted) in *.
    assert (Hsp : sorted ≡ₚ promoted) by apply js_sort_perm.
    assert (Hsize : JsMap.size (evict promoted) = 40%nat).
    { unfold JsMap.size in *. rewrite Hperm, length_drop, Hsp. lia. }
    assert (Hsub : evict promoted `sublist_of` promoted)
      by (rewrite E; apply sublist_filter).
    split; [lia|]. split.
    { unfold JsMap.wf, JsMap.keys in *.
      apply (sublist_NoDup _ _ Hwfp). apply fmap_sublist, Hsub. }
    split; [exact Hsub|]. split; [lia|]. split; [intros _; exact Hsize|].
    intros k e k' e' Hin Hnone Hin'.
    cut (precedes byLastAccess (k, e) (k', e'));
      [unfold precedes, byLastAccess; simpl; lia|].
    apply (StronglySorted_app_1_elem_of (precedes byLastAccess)
             (take (length promoted - 40) sorted)
             (drop (length promoted - 40) sorted) (k, e) (k', e')).
    + rewrite take_drop. apply byLastAccess_sorted.
    + rewrite <- Hsp, <- (take_drop (length promoted - 40) sorted) in Hin.
      apply elem_of_app in Hin as [Hin|Hin]; [exact Hin|].
      rewrite <- Hperm in Hin. apply get_None_not_key in Hnone.
      exfalso. apply Hnone. apply (list_elem_of_fmap_2 fst _ _ Hin).
    + rewrite <- Hperm. exact Hin'.
Qed.

(** ** What each operation leaves alone *)

Lemma addToCache_cache table a now st :
  cache (addToCache table a now st) =
  evict (JsMap.set (cache st) table
           {| data := next_array (mem st); version := this_version st;
              lastAccess := now |}).
Proof. reflexivity. Qed.

Lemma wf_evict c : JsMap.wf c -> JsMap.wf (evict c).
Proof.
  intros Hwf. destruct (le_lt_dec (JsMap.size c) 50) as [Hs|Hl].
  - rewrite evict_small by exact Hs. exact Hwf.
  - destruct (evict_large c Hwf Hl) as [E _]. rewrite E.
    unfold JsMap.wf, JsMap.keys in *.
    apply (sublist_NoDup _ _ Hwf). apply fmap_sublist, sublist_filter.
Qed.

Lemma size_evict c : JsMap.wf c -> (JsMap.size (evict c) <= 50)%nat.
Proof.
  intros Hwf. destruct (le_lt_dec (JsMap.size c) 50) as [Hs|Hl].
  - rewrite evict_small by exact Hs. exact Hs.
  - destruct (evict_large c Hwf Hl) as [_ Hp]. cbn zeta in Hp.
    unfold JsMap.size in *. rewrite Hp, length_drop.
    rewrite (Permutation_length (js_sort_perm byLastAccess c)). lia.
Qed.

(** ** Invariants of the states a connected provider goes through *)

Lemma invariant_addToCache table a now st :
  invariant st -> invariant (addToCache table a now st).
Proof.
  intros [H1 H2 H3 H4]. split.
  - rewrite addToCache_cache. apply wf_evict, wf_set, H1.
  - rewrite addToCache_cache. apply size_evict, wf_set, H1.
  - exact H3.
  - exact H4.
Qed.

Lemma invariant_saveData table a now st :
  invariant st -> invariant (saveData table a now st).
Proof.
  intros Hinv. unfold saveData.
  set (st1 := with_version _ st).
  assert (H1 : invariant st1) by (destruct Hinv; split; assumption).
  apply (invariant_addToCache table a now) in H1. destruct H1 as [H1 H2 H3 H4].
  set (st2 := addToCache table a now st1) in *.
  cbn [writeTimer with_writeQueue].
  destruct (writeTimer st2) eqn:Ht; split; cbn; try assumption;
    try (apply wf_set; assumption); try reflexivity.
  intros _. exact Ht.
Qed.


Ltac break_match :=
  match goal with
  | |- context [match ?x with _ => _ end] => destruct x eqn:?
  end.

Lemma reject_fields j st :
  let st' := reject j st in
  dataDir st' = dataDir st /\ cache st' = cache st /\
  pendingReads st' = pendingReads st /\ writeQueue st' = writeQueue st /\
  writeTimer st' = writeTimer st /\ this_version st' = this_version st /\
  readCounts st' = readCounts st /\ mem st' = mem st /\ disk st' = disk st /\
  loads st' = loads st /\ emitted st' = emitted st.
Proof. unfold reject. repeat break_match; repeat split. Qed.

Lemma set_stage_fields j i s st :
  let st' := set_stage j i s st in
  dataDir st' = dataDir st /\ cache st' = cache st /\
  pendingReads st' = pendingReads st /\ writeQueue st' = writeQueue st /\
  writeTimer st' = writeTimer st /\ this_version st' = this_version st /\
  readCounts st' = readCounts st /\ mem st' = mem st /\ disk st' = disk st /\
  loads st' = loads st /\ emitted st' = emitted st.
Proof. unfold set_stage. repeat break_match; repeat split. Qed.

Lemma resolve_if_done_fields j st :
  let st' := resolve_if_done j st in
  dataDir st' = dataDir st /\ writeQueue st' = writeQueue st /\
  writeTimer st' = writeTimer st /\ this_version st' = this_version st /\
  readCounts st' = readCounts st /\ mem st' = mem st /\ disk st' = disk st /\
  loads st' = loads st /\
  (cache st' = cache st \/ cache st' = []).
Proof.
  unfold resolve_if_done, after_flush.
  repeat break_match; cbn; repeat split; auto.
Qed.

Lemma invariant_with_pendingReads p st : invariant st -> invariant (with_pendingReads p st).
Proof. intros [? ? ? ?]; split; assumption. Qed.
Lemma invariant_with_readCounts r st : invariant st -> invariant (with_readCounts r st).
Proof. intros [? ? ? ?]; split; assumption. Qed.
Lemma invariant_with_mem h st : invariant st -> invariant (with_mem h st).
Proof. intros [? ? ? ?]; split; assumption. Qed.
Lemma invariant_with_disk d st : invariant st -> invariant (with_disk d st).
Proof. intros [? ? ? ?]; split; assumption. Qed.
Lemma invariant_with_loads l st : invariant st -> invariant (with_loads l st).
Proof. intros [? ? ? ?]; split; assumption. Qed.
Lemma invariant_with_flushes f st : invariant st -> invariant (with_flushes f st).
Proof. intros [? ? ? ?]; split; assumption. Qed.
Lemma invariant_with_emitted e st : invariant st -> invariant (with_emitted e st).
Proof. intros [? ? ? ?]; split; assumption. Qed.
Lemma invariant_settle_load p t s st : invariant st -> invariant (settle_load p t s st).
Proof. intros [? ? ? ?]; split; assumption. Qed.
Lemma invariant_clear_cache st : invariant st -> invariant (with_cache [] st).
Proof. intros [? ? ? ?]; split; try assumption; [apply NoDup_nil_2|cbn; lia]. Qed.

Create HintDb inv.
#[local] Hint Resolve invariant_with_pendingReads invariant_with_readCounts
  invariant_with_mem invariant_with_disk invariant_with_loads
  invariant_with_flushes invariant_with_emitted invariant_settle_load
  invariant_clear_cache invariant_addToCache invariant_saveData : inv.

Lemma invariant_getData table now st :
  invariant st -> invariant (getData table now st).1.
Proof.
  intros Hinv. unfold getData.
  destruct (JsMap.get (cache st) table) as [cached|] eqn:Hc; cbn.
  - destruct Hinv as [H1 H2 H3 H4]. split; cbn; try assumption.
    + apply wf_set, H1.
    + etransitivity; [|exact H2]. apply Nat.eq_le_incl.
      etransitivity; [apply (size_set (cache st))|]. rewrite Hc. reflexivity.
  - destruct (JsMap.get (pendingReads st) table); cbn; auto with inv.
Qed.

Lemma invariant_load_settled p fault now st st' :
  load_settled p fault now st = Some st' -> invariant st -> invariant st'.
Proof.
  unfold load_settled. intros H Hinv.
  destruct (loads st !! p) as [[table [s|]]|]; try discriminate.
  destruct (loadFromDisk table fault st) as [d|e].
  - cbn zeta in H. injection H as <-.
    match goal with |- context [if ?c then _ else _] => destruct c end;
      auto 10 with inv.
  - injection H as <-. auto with inv.
Qed.

Lemma invariant_resolve_if_done j st : invariant st -> invariant (resolve_if_done j st).
Proof.
  intros Hinv. unfold resolve_if_done, after_flush.
  repeat break_match; auto 10 with inv.
Qed.

Lemma invariant_reject j st : invariant st -> invariant (reject j st).
Proof. intros Hinv. unfold reject. repeat break_match; auto with inv. Qed.

Lemma invariant_set_stage j i s st : invariant st -> invariant (set_stage j i s st).
Proof. intros Hinv. unfold set_stage. repeat break_match; auto with inv. Qed.

#[local] Hint Resolve invariant_resolve_if_done invariant_reject
  invariant_set_stage : inv.

Lemma invariant_flushWrites closing st :
  invariant st -> invariant (flushWrites closing st).
Proof.
  intros [H1 H2 H3 H4]. unfold flushWrites.
  apply invariant_resolve_if_done, invariant_with_flushes.
  split; cbn; try assumption; [apply NoDup_nil_2|congruence].
Qed.

Lemma invariant_step ev st st' :
  step ev st = Some st' -> invariant st -> invariant st'.
Proof.
  destruct ev; cbn [step]; intros H Hinv.
  - injection H as <-. apply invariant_saveData, Hinv.
  - injection H as <-. apply invariant_getData, Hinv.
  - eapply invariant_load_settled; eassumption.
  - destruct (writeTimer st); [|discriminate]. injection H as <-.
    apply invariant_flushWrites, Hinv.
  - unfold writeFile_settled in H.
    destruct (flushes st !! j) as [f|]; [|discriminate]. cbn in H.
    destruct (writes f !! i) as [w|]; [|discriminate]. cbn in H.
    destruct (wstage w); try discriminate.
    destruct fault as [torn|]; injection H as <-; auto 10 with inv.
  - unfold rename_settled in H.
    destruct (flushes st !! j) as [f|]; [|discriminate]. cbn in H.
    destruct (writes f !! i) as [w|]; [|discriminate]. cbn in H.
    destruct (wstage w); try discriminate.
    match type of H with context [match ?x with _ => _ end] => destruct x end;
      injection H as <-; auto 10 with inv.
  - injection H as <-. unfold close. destruct (writeTimer st) eqn:Ht.
    + apply invariant_flushWrites, Hinv.
    + auto with inv.
  - injection H as <-. auto with inv.
  - injection H as <-. auto with inv.
Qed.

Lemma invariant_run evs : forall st st',
  run evs st = Some st' -> invariant st -> invariant st'.
Proof.
  induction evs as [|ev evs IH]; intros st st' H Hinv; cbn in H.
  - injection H as <-. exact Hinv.
  - destruct (step ev st) as [st1|] eqn:Hs; [|discriminate]. cbn in H.
    eapply IH; [exact H|]. eapply invariant_step; eassumption.
Qed.

Lemma invariant_connected dir h d : invariant (connected dir h d).
Proof. split; cbn; try apply NoDup_nil_2; [lia|congruence]. Qed.

Lemma invariant_reachable st : reachable st -> invariant st.
Proof.
  intros (dir & h & d & evs & H).
  eapply invariant_run; [exact H|apply invariant_connected].
Qed.

(** ** The heap *)

Lemma heap_le_refl h : heap_le h h.
Proof. split; [auto|lia]. Qed.

Lemma heap_le_trans h1 h2 h3 : heap_le h1 h2 -> heap_le h2 h3 -> heap_le h1 h3.
Proof. intros [H1 L1] [H2 L2]. split; [auto|lia]. Qed.

Lemma new_array_lookup_old frozen l h a :
  (a < next_array h)%nat -> arrs (new_array frozen l h) !! a = arrs h !! a.
Proof. intros H. unfold new_array. cbn. apply lookup_app_l. exact H. Qed.

Lemma new_array_lookup_new frozen l h :
  arrs (new_array frozen l h) !! next_array h = Some (frozen, l).
Proof.
  unfold new_array, next_array. cbn. rewrite lookup_app_r by lia.
  rewrite Nat.sub_diag. reflexivity.
Qed.

Lemma next_array_new_array frozen l h :
  next_array (new_array frozen l h) = S (next_array h).
Proof. unfold new_array, next_array. cbn. rewrite length_app. cbn. lia. Qed.

Lemma frozen_at_lt h a l : frozen_at h a l -> (a < next_array h)%nat.
Proof. intros H. apply lookup_lt_Some in H. exact H. Qed.

Lemma heap_le_new_array frozen l h : heap_le h (new_array frozen l h).
Proof.
  split.
  - intros a l' H. unfold frozen_at. rewrite new_array_lookup_old; [exact H|].
    apply (frozen_at_lt _ _ _ H).
  - rewrite next_array_new_array. lia.
Qed.

Lemma heap_le_new_snapshot d h : heap_le h (new_snapshot d h).
Proof.
  unfold new_snapshot.
  match goal with |- heap_le _ (new_array ?f ?l ?h') =>
    apply (heap_le_trans _ h'); [|apply heap_le_new_array] end.
  split; [auto|reflexivity].
Qed.

Lemma heap_le_mutate_array a l h : heap_le h (mutate_array a l h).
Proof.
  unfold mutate_array, is_frozen.
  destruct (arrs h !! a) as [[[] l0]|] eqn:Ha; try apply heap_le_refl.
  - split.
    + intros a' l' H. unfold frozen_at in *. cbn.
      destruct (decide (a = a')) as [->|Hne]; [congruence|].
      rewrite list_lookup_insert_ne by exact Hne. exact H.
    + unfold next_array. cbn. rewrite length_insert. lia.
  - split.
    + intros a' l' H. unfold frozen_at in *. cbn.
      destruct (decide (a = a')) as [->|Hne]; [congruence|].
      rewrite list_lookup_insert_ne by exact Hne. exact H.
    + unfold next_array. cbn. rewrite length_insert. lia.
Qed.

Lemma heap_le_mutate_record o r h : heap_le h (mutate_record o r h).
Proof. split; [auto|reflexivity]. Qed.

Lemma elems_frozen_at h a l : frozen_at h a l -> elems h a = l.
Proof. unfold frozen_at, elems. intros ->. reflexivity. Qed.

Lemma mem_resolve_if_done j st : mem (resolve_if_done j st) = mem st.
Proof. apply resolve_if_done_fields. Qed.
Lemma mem_reject j st : mem (reject j st) = mem st.
Proof. apply reject_fields. Qed.
Lemma mem_set_stage j i s st : mem (set_stage j i s st) = mem st.
Proof. apply set_stage_fields. Qed.

Lemma mem_flushWrites closing st : mem (flushWrites closing st) = mem st.
Proof. unfold flushWrites. rewrite mem_resolve_if_done. reflexivity. Qed.

Lemma mem_addToCache table a now st :
  mem (addToCache table a now st) = new_array true (elems (mem st) a) (mem st).
Proof. reflexivity. Qed.

Lemma heap_le_step ev st st' :
  step ev st = Some st' -> heap_le (mem st) (mem st').
Proof.
  destruct ev; cbn [step]; intros H.
  - injection H as <-. unfold saveData.
    match goal with |- context [if ?c then _ else _] => destruct c end; cbn;
      rewrite mem_addToCache; apply heap_le_new_array.
  - injection H as <-. unfold getData.
    repeat break_match; cbn; try apply heap_le_refl. apply heap_le_new_array.
  - unfold load_settled in H.
    destruct (loads st !! p) as [[table [s|]]|]; try discriminate.
    destruct (loadFromDisk table fault st) as [d|e].
    + cbn zeta in H. injection H as <-.
      match goal with |- context [if ?c then _ else _] => destruct c end; cbn.
      * rewrite mem_addToCache. cbn.
        eapply heap_le_trans; [apply heap_le_new_snapshot|apply heap_le_new_array].
      * apply heap_le_new_snapshot.
    + injection H as <-. apply heap_le_refl.
  - destruct (writeTimer st); [|discriminate]. injection H as <-.
    rewrite mem_flushWrites. apply heap_le_refl.
  - unfold writeFile_settled in H.
    destruct (flushes st !! j) as [f|]; [|discriminate]. cbn in H.
    destruct (writes f !! i) as [w|]; [|discriminate]. cbn in H.
    destruct (wstage w); try discriminate.
    destruct fault as [torn|]; injection H as <-;
      rewrite ?mem_reject, ?mem_set_stage; apply heap_le_refl.
  - unfold rename_settled in H.
    destruct (flushes st !! j) as [f|]; [|discriminate]. cbn in H.
    destruct (writes f !! i) as [w|]; [|discriminate]. cbn in H.
    destruct (wstage w); try discriminate.
    match type of H with context [match ?x with _ => _ end] => destruct x end;
      injection H as <-;
      rewrite ?mem_resolve_if_done, ?mem_reject, ?mem_set_stage; apply heap_le_refl.
  - injection H as <-. unfold close. destruct (writeTimer st).
    + rewrite mem_flushWrites. apply heap_le_refl.
    + apply heap_le_refl.
  - injection H as <-. apply heap_le_mutate_array.
  - injection H as <-. apply heap_le_mutate_record.
Qed.

Lemma heap_le_run evs : forall st st',
  run evs st = Some st' -> heap_le (mem st) (mem st').
Proof.
  induction evs as [|ev evs IH]; intros st st' H; cbn in H.
  - injection H as <-. apply heap_le_refl.
  - destruct (step ev st) as [st1|] eqn:Hs; [|discriminate]. cbn in H.
    eapply heap_le_trans; [eapply heap_le_step, Hs|apply IH, H].
Qed.

Lemma objs_prefix_step ev st st' :
  step ev st = Some st' -> is_MutateRecord ev = false ->
  objs (mem st) `prefix_of` objs (mem st').
Proof.
  destruct ev; cbn [step is_MutateRecord]; intros H Hev; try discriminate.
  - injection H as <-. unfold saveData.
    match goal with |- context [if ?c then _ else _] => destruct c end; cbn;
      rewrite mem_addToCache; reflexivity.
  - injection H as <-. unfold getData.
    repeat break_match; cbn; reflexivity.
  - unfold load_settled in H.
    destruct (loads st !! p) as [[table [s|]]|]; try discriminate.
    destruct (loadFromDisk table fault st) as [d|e].
    + cbn zeta in H. injection H as <-.
      match goal with |- context [if ?c then _ else _] => destruct c end; cbn;
        rewrite ?mem_addToCache; cbn; apply prefix_app_r; reflexivity.
    + injection H as <-. reflexivity.
  - destruct (writeTimer st); [|discriminate]. injection H as <-.
    rewrite mem_flushWrites. reflexivity.
  - unfold writeFile_settled in H.
    destruct (flushes st !! j) as [f|]; [|discriminate]. cbn in H.
    destruct (writes f !! i) as [w|]; [|discriminate]. cbn in H.
    destruct (wstage w); try discriminate.
    destruct fault as [torn|]; injection H as <-;
      rewrite ?mem_reject, ?mem_set_stage; reflexivity.
  - unfold rename_settled in H.
    destruct (flushes st !! j) as [f|]; [|discriminate]. cbn in H.
    destruct (writes f !! i) as [w|]; [|discriminate]. cbn in H.
    destruct (wstage w); try discriminate.
    match type of H with context [match ?x with _ => _ end] => destruct x end;
      injection H as <-;
      rewrite ?mem_resolve_if_done, ?mem_reject, ?mem_set_stage; reflexivity.
  - injection H as <-. unfold close. destruct (writeTimer st).
    + rewrite mem_flushWrites. reflexivity.
    + reflexivity.
  - injection H as <-. cbn. unfold mutate_array. destruct (is_frozen _ _); reflexivity.
Qed.

Lemma objs_prefix_run evs : forall st st',
  run evs st = Some st' -> forallb (fun ev => negb (is_MutateRecord ev)) evs = true ->
  objs (mem st) `prefix_of` objs (mem st').
Proof.
  induction evs as [|ev evs IH]; intros st st' H Hq; cbn in H, Hq.
  - injection H as <-. reflexivity.
  - destruct (step ev st) as [st1|] eqn:Hs; [|discriminate]. cbn in H.
    apply andb_prop in Hq as [Hev Hq]. apply negb_true_iff in Hev.
    etransitivity; [eapply objs_prefix_step; eassumption|apply IH; assumption].
Qed.

Lemma omap_lookup_prefix (o1 o2 : list record) (l : list nat) :
  o1 `prefix_of` o2 -> Forall (fun o => is_Some (o1 !! o)) l ->
  omap (fun o => o2 !! o) l = omap (fun o => o1 !! o) l.
Proof.
  intros Hp Hl. induction Hl as [|o l [r Hr] Hl IH]; [reflexivity|]. cbn.
  rewrite Hr, (prefix_lookup_Some _ _ _ _ Hr Hp), IH. reflexivity.
Qed.

(** ** Reading what was just written *)

Lemma getData_hit table now st cached :
  JsMap.get (cache st) table = Some cached ->
  getData table now st =
    (with_mem (new_array false (elems (mem st) (data cached)) (mem st))
       (with_cache
          (JsMap.set (cache st) table
             {| data := data cached; version := version cached; lastAccess := now |})
          st),
     Now (next_array (mem st))).
Proof. intros H. unfold getData. rewrite H. reflexivity. Qed.

Lemma elems_new_array frozen l h : elems (new_array frozen l h) (next_array h) = l.
Proof. unfold elems. rewrite new_array_lookup_new. reflexivity. Qed.

Lemma js_sort_snoc {A} (cmp : A -> A -> Z) (l : list A) (x : A) :
  Forall (fun y => cmp y x <= 0) l ->
  js_sort cmp (l ++ [x]) = js_sort cmp l ++ [x].
Proof.
  assert (Hins : forall y s, cmp y x <= 0 ->
            js_insert cmp y (s ++ [x]) = js_insert cmp y s ++ [x]).
  { intros y s Hy. induction s as [|z s IH]; cbn.
    - destruct (Z.leb_spec (cmp y x) 0); [reflexivity|lia].
    - destruct (Z.leb_spec (cmp y z) 0); [reflexivity|]. rewrite IH. reflexivity. }
  induction 1 as [|y l Hy Hl IH]; [reflexivity|]. cbn.
  unfold js_sort in IH. rewrite IH. apply Hins, Hy.
Qed.

Lemma get_filter_keys {V} (K : list string) (m : list (string * V)) k :
  k ∉ K -> JsMap.get (filter (fun p => p.1 ∉ K) m) k = JsMap.get m k.
Proof.
  intros Hk. induction m as [|[k' v'] m IH]; [reflexivity|].
  rewrite filter_cons. cbn. destruct (decide (k' ∉ K)) as [Hin|Hin]; cbn.
  - rewrite IH. reflexivity.
  - destruct (decide (k' = k)) as [->|Hne]; [contradiction|exact IH].
Qed.

(** The entry [addToCache] stores survives the eviction that follows when
    the cache was within its bound and the clock has not gone back. *)
Lemma addToCache_resident table a now st :
  JsMap.wf (cache st) -> (JsMap.size (cache st) <= 50)%nat ->
  Forall (fun p => lastAccess p.2 <= now) (cache st) ->
  JsMap.get (cache (addToCache table a now st)) table =
  Some {| data := next_array (mem st); version := this_version st; lastAccess := now |}.
Proof.
  intros Hwf Hsz Hclock. rewrite addToCache_cache.
  set (e := {| data := next_array (mem st); version := this_version st; lastAccess := now |}).
  set (c1 := JsMap.set (cache st) table e).
  assert (Hg : JsMap.get c1 table = Some e) by apply get_set_eq.
  destruct (le_lt_dec (JsMap.size c1) 50) as [Hs|Hl].
  { rewrite evict_small by exact Hs. exact Hg. }
  assert (Hnew : JsMap.get (cache st) table = None).
  { destruct (JsMap.get (cache st) table) eqn:Hold; [|reflexivity].
    unfold c1 in Hl. rewrite size_set, Hold in Hl. lia. }
  assert (Ec1 : c1 = cache st ++ [(table, e)]) by (apply keys_set_new, Hnew).
  assert (Hlen : JsMap.size c1 = S (JsMap.size (cache st)))
    by (unfold c1; rewrite size_set, Hnew; reflexivity).
  destruct (evict_large c1 (wf_set _ _ _ Hwf) Hl) as [E _]. rewrite E.
  rewrite get_filter_keys; [exact Hg|].
  rewrite Ec1, js_sort_snoc.
  2:{ eapply Forall_impl; [exact Hclock|]. intros p Hp. unfold byLastAccess, e. cbn in *. lia. }
  rewrite <- Ec1. unfold JsMap.size in *.
  rewrite take_app_le.
  2:{ rewrite (Permutation_length (js_sort_perm byLastAccess (cache st))). lia. }
  intros Hin. apply get_None_not_key in Hnew. apply Hnew.
  unfold JsMap.keys. rewrite <- (js_sort_perm byLastAccess (cache st)).
  eapply elem_of_sublist; [exact Hin|]. apply fmap_sublist, sublist_take.
Qed.

Lemma saveData_cache table a now st :
  cache (saveData table a now st) =
  cache (addToCache table a now (with_version (S (this_version st)) st)).
Proof.
  unfold saveData.
  match goal with |- context [if ?c then _ else _] => destruct c end; reflexivity.
Qed.

Lemma saveData_mem table a now st :
  mem (saveData table a now st) = new_array true (elems (mem st) a) (mem st).
Proof.
  unfold saveData.
  match goal with |- context [if ?c then _ else _] => destruct c end; reflexivity.
Qed.

(** A frozen array that is still the cached snapshot of a table is what a
    read of the table copies. *)
Lemma getData_copies_frozen table now st stored l :
  frozen_at (mem st) stored l ->
  data <$> JsMap.get (cache st) table = Some stored ->
  exists st' copy,
    getData table now st = (st', Now copy) /\
    copy = next_array (mem st) /\
    elems (mem st') copy = l /\
    is_frozen (mem st') copy = false /\
    objs (mem st') = objs (mem st) /\
    frozen_at (mem st') stored l /\
    data <$> JsMap.get (cache st') table = Some stored /\
    disk st' = disk st /\ flushes st' = flushes st /\
    writeQueue st' = writeQueue st /\ writeTimer st' = writeTimer st.
Proof.
  intros Hf Hres.
  destruct (JsMap.get (cache st) table) as [cached|] eqn:Hc; [|discriminate].
  cbn in Hres. injection Hres as Hd.
  eexists _, _. split; [apply getData_hit, Hc|]. cbn.
  subst stored. rewrite (elems_frozen_at _ _ _ Hf).
  split; [reflexivity|]. split; [apply elems_new_array|].
  split; [unfold is_frozen; rewrite new_array_lookup_new; reflexivity|].
  split; [reflexivity|].
  split; [apply heap_le_new_array, Hf|].
  split; [rewrite get_set_eq; reflexivity|].
  repeat split.
Qed.




(** ** Isolation of the cached snapshot *)

Lemma cached_data_caller_step ev st st' table :
  caller_array_use ev -> step ev st = Some st' ->
  data <$> JsMap.get (cache st') table = data <$> JsMap.get (cache st) table.
Proof.
  destruct ev; cbn [caller_array_use step]; intros Hev H; try contradiction;
    injection H as <-; [|reflexivity].
  unfold getData. destruct (JsMap.get (cache st) table0) as [cached|] eqn:Hc; cbn.
  - destruct (decide (table0 = table)) as [->|Hne].
    + rewrite get_set_eq, Hc. reflexivity.
    + rewrite get_set_ne by exact Hne. reflexivity.
  - destruct (JsMap.get (pendingReads st) table0); reflexivity.
Qed.

Lemma cached_data_caller_run evs table : forall st st',
  Forall caller_array_use evs -> run evs st = Some st' ->
  data <$> JsMap.get (cache st') table = data <$> JsMap.get (cache st) table.
Proof.
  induction evs as [|ev evs IH]; intros st st' Hevs H; cbn in H.
  - injection H as <-. reflexivity.
  - destruct (step ev st) as [st1|] eqn:Hs; [|discriminate]. cbn in H.
    apply Forall_cons in Hevs as [Hev Hevs].
    rewrite (IH _ _ Hevs H). eapply cached_data_caller_step; eassumption.
Qed.

(** ** Paths *)

Lemma list_ascii_of_string_app a b :
  String.list_ascii_of_string (a +:+ b) =
  (String.list_ascii_of_string a ++ String.list_ascii_of_string b)%list.
Proof.
  induction a as [|c a IH]; [reflexivity|].
  change (String c a +:+ b) with (String c (a +:+ b)). cbn. f_equal. exact IH.
Qed.

Lemma list_ascii_of_string_inj a b :
  String.list_ascii_of_string a = String.list_ascii_of_string b -> a = b.
Proof.
  intros H. rewrite <- (String.string_of_list_ascii_of_string a),
    <- (String.string_of_list_ascii_of_string b), H. reflexivity.
Qed.

Lemma append_inj_r s a b : a +:+ s = b +:+ s -> a = b.
Proof.
  intros H. apply list_ascii_of_string_inj.
  apply (f_equal String.list_ascii_of_string) in H.
  rewrite !list_ascii_of_string_app in H. apply (app_inv_tail _ _ _ H).
Qed.

Lemma filePath_inj dir t t' : filePath dir t = filePath dir t' -> t = t'.
Proof.
  unfold filePath, path_join. intros H.
  apply String.app_inj in H. apply String.app_inj in H.
  apply (append_inj_r _ _ _ H).
Qed.

Lemma tempPath_inj dir t t' : tempPath dir t = tempPath dir t' -> t = t'.
Proof.
  unfold tempPath. intros H. apply append_inj_r in H. apply (filePath_inj _ _ _ H).
Qed.

Lemma filePath_ne_tempPath dir t t' : filePath dir t <> tempPath dir t'.
Proof.
  unfold tempPath, filePath, path_join. intros H.
  apply (f_equal String.list_ascii_of_string) in H.
  rewrite !list_ascii_of_string_app in H.
  change (String.list_ascii_of_string ".json")
    with (String.list_ascii_of_string ".jso" ++ ["n"%char])%list in H.
  change (String.list_ascii_of_string ".tmp")
    with (String.list_ascii_of_string ".tm" ++ ["p"%char])%list in H.
  rewrite !app_assoc in H. apply app_inj_tail in H as [_ H]. discriminate H.
Qed.

(** ** A flush and its writes *)

Lemma set_stage_eq j i s st f w :
  flushes st !! j = Some f -> writes f !! i = Some w ->
  set_stage j i s st =
  with_flushes (<[j := with_writes f (<[i := restage w s]> (writes f))]> (flushes st)) st.
Proof. intros Hf Hw. unfold set_stage. rewrite Hf, Hw. reflexivity. Qed.

Lemma reject_eq j st f :
  flushes st !! j = Some f ->
  reject j st =
  match status f with
  | Pending => with_flushes (<[j := with_status f Aborted]> (flushes st)) st
  | _ => st
  end.
Proof. intros Hf. unfold reject. rewrite Hf. reflexivity. Qed.

Lemma resolve_if_done_eq j st f :
  flushes st !! j = Some f ->
  resolve_if_done j st =
  match status f with
  | Pending =>
      if forallb persisted (writes f)
      then after_flush f (with_flushes (<[j := with_status f Resolved]> (flushes st)) st)
      else st
  | _ => st
  end.
Proof. intros Hf. unfold resolve_if_done. rewrite Hf. reflexivity. Qed.

Lemma fmap_restage {B} (g : write -> B) (ws : list write) (i : nat) w s :
  ws !! i = Some w -> g (restage w s) = g w ->
  g <$> <[i := restage w s]> ws = g <$> ws.
Proof.
  intros Hw Hg. rewrite list_fmap_insert, Hg.
  apply list_insert_id. rewrite list_lookup_fmap, Hw. reflexivity.
Qed.

Lemma stage_on_disk_ext st st' w :
  dataDir st' = dataDir st ->
  disk st' !! tempPath (dataDir st) (wtable w) = disk st !! tempPath (dataDir st) (wtable w) ->
  disk st' !! filePath (dataDir st) (wtable w) = disk st !! filePath (dataDir st) (wtable w) ->
  stage_on_disk st w -> stage_on_disk st' w.
Proof.
  unfold stage_on_disk. intros -> Ht Hf. destruct (wstage w); congruence.
Qed.

Lemma NoDup_tables_lookup (ws : list write) (i i' : nat) w w' :
  NoDup (wtable <$> ws) -> ws !! i = Some w -> ws !! i' = Some w' ->
  wtable w = wtable w' -> i = i'.
Proof.
  intros Hnd Hi Hi' Ht. eapply (NoDup_lookup _ _ _ _ Hnd).
  - rewrite list_lookup_fmap, Hi. reflexivity.
  - rewrite list_lookup_fmap, Hi', Ht. reflexivity.
Qed.

(** Moving write [i] to a new stage while the disk changes at most at the
    two paths of its table keeps every write of the flush in step with the
    disk. *)
Lemma restage_on_disk st st' (ws : list write) (i : nat) w s :
  NoDup (wtable <$> ws) -> ws !! i = Some w ->
  dataDir st' = dataDir st ->
  (forall p, p <> tempPath (dataDir st) (wtable w) ->
             p <> filePath (dataDir st) (wtable w) ->
             disk st' !! p = disk st !! p) ->
  stage_on_disk st' (restage w s) ->
  Forall (stage_on_disk st) ws ->
  Forall (stage_on_disk st') (<[i := restage w s]> ws).
Proof.
  intros Hnd Hw Hdir Hdisk Hnew Hold. rewrite Forall_lookup in Hold |- *.
  intros i' w' Hw'. destruct (decide (i = i')) as [<-|Hne].
  - rewrite list_lookup_insert_eq in Hw' by (eapply lookup_lt_Some, Hw).
    injection Hw' as <-. exact Hnew.
  - rewrite list_lookup_insert_ne in Hw' by exact Hne.
    assert (Ht : wtable w <> wtable w').
    { intros Ht. apply Hne. eapply NoDup_tables_lookup; eassumption. }
    apply (stage_on_disk_ext st); [exact Hdir| | |apply (Hold i'), Hw'].
    + apply Hdisk.
      * intros E. apply tempPath_inj in E. congruence.
      * intros E. symmetry in E. apply filePath_ne_tempPath in E. exact E.
    + apply Hdisk.
      * apply filePath_ne_tempPath.
      * intros E. apply filePath_inj in E. congruence.
Qed.

Lemma forallb_persisted_insert (ws : list write) (i : nat) w s :
  ws !! i = Some w -> s <> Persisted ->
  forallb persisted (<[i := restage w s]> ws) = false.
Proof.
  intros Hw Hs. apply not_true_iff_false. intros H.
  rewrite forallb_forall in H.
  assert (Hin : In (restage w s) (<[i := restage w s]> ws)).
  { apply list_elem_of_In, list_elem_of_lookup. exists i.
    apply list_lookup_insert_eq. eapply lookup_lt_Some, Hw. }
  specialize (H _ Hin). unfold persisted in H. cbn in H. destruct s; congruence.
Qed.

Lemma forallb_persisted_lookup (ws : list write) (i : nat) w :
  forallb persisted ws = true -> ws !! i = Some w -> wstage w = Persisted.
Proof.
  intros H Hw. rewrite forallb_forall in H.
  assert (Hin : In w ws) by (apply list_elem_of_In, list_elem_of_lookup; eauto).
  specialize (H _ Hin). unfold persisted in H. destruct (wstage w); congruence.
Qed.

Lemma Exists_failed_insert (ws : list write) (i : nat) w s :
  ws !! i = Some w -> wstage w <> Failed ->
  Exists (fun w => wstage w = Failed) ws ->
  Exists (fun w => wstage w = Failed) (<[i := restage w s]> ws).
Proof.
  intros Hw Hs. rewrite !Exists_exists. intros (w' & Hin & Hf).
  apply list_elem_of_lookup in Hin as [i' Hi'].
  exists w'. split; [|exact Hf]. apply list_elem_of_lookup. exists i'.
  rewrite list_lookup_insert_ne; [exact Hi'|]. intros <-. congruence.
Qed.

Lemma Forall_not_failed_insert (ws : list write) (i : nat) w s :
  s <> Failed ->
  Forall (fun w => wstage w <> Failed) ws ->
  Forall (fun w => wstage w <> Failed) (<[i := restage w s]> ws).
Proof. intros Hs H. apply Forall_insert; [exact H|exact Hs]. Qed.

Lemma forallb_persisted_writing (ws : list write) :
  Forall (fun w => wstage w = Writing) ws ->
  forallb persisted ws = match ws with [] => true | _ => false end.
Proof.
  destruct 1 as [|w ws Hw _]; [reflexivity|]. cbn. unfold persisted at 1.
  rewrite Hw. reflexivity.
Qed.

Lemma flush_state_init pre c :
  JsMap.wf (writeQueue pre) ->
  exists f, flush_state pre c (length (flushes pre)) (flushWrites c pre) f /\
            flush_status f /\
            Forall (fun w => wstage w = Writing) (writes f).
Proof.
  intros Hwf. unfold flushWrites. cbn [flushes with_writeQueue with_writeTimer writeQueue].
  set (st' := with_writeQueue [] (with_writeTimer false pre)).
  set (ws := (fun '(table, data) => writeToDisk table data st') <$> JsMap.entries (writeQueue pre)).
  set (f0 := {| writes := ws; status := Pending; closing := c |}).
  set (st1 := with_flushes (flushes pre ++ [f0]) st').
  assert (Hl : flushes st1 !! length (flushes pre) = Some f0).
  { cbn. rewrite lookup_app_r by lia. rewrite Nat.sub_diag. reflexivity. }
  assert (Hb : (fun w => (wtable w, wtext w)) <$> ws = batch pre).
  { unfold ws, batch, JsMap.entries. rewrite <- list_fmap_compose.
    apply list_fmap_ext. intros i [t a] _. reflexivity. }
  assert (Hnd : NoDup (wtable <$> ws)).
  { unfold ws, JsMap.entries. rewrite <- list_fmap_compose.
    erewrite list_fmap_ext; [exact Hwf|]. intros i [t a] _. reflexivity. }
  assert (Hst : Forall (fun w => wstage w = Writing) ws).
  { unfold ws. apply Forall_fmap, Forall_forall. intros [t a] _. reflexivity. }
  rewrite (resolve_if_done_eq _ _ _ Hl).
  change (status f0) with Pending. change (writes f0) with ws. cbv iota.
  rewrite (forallb_persisted_writing ws Hst).
  destruct ws as [|w ws'] eqn:Ews.
  - exists (with_status f0 Resolved). unfold after_flush.
    change (closing f0) with c.
    assert (Hlk : <[length (flushes pre) := with_status f0 Resolved]>
                    (flushes pre ++ [f0]) !! length (flushes pre)
                  = Some (with_status f0 Resolved)).
    { rewrite list_lookup_insert_eq; [reflexivity|]. rewrite length_app. cbn. lia. }
    destruct c; (split; [split; cbn; try reflexivity; try assumption; constructor|]);
      unfold flush_status; cbn; repeat split; constructor.
  - exists f0. split; [split; cbn; try reflexivity; try assumption|split; [|exact Hst]].
    + eapply Forall_impl; [exact Hst|]. intros w0 Hw0. unfold stage_on_disk.
      rewrite Hw0. exact I.
    + unfold flush_status. cbn. split.
      * eapply Forall_impl; [exact Hst|]. intros w0 Hw0. rewrite Hw0. discriminate.
      * exact (forallb_persisted_writing _ Hst).
Qed.

Lemma flush_state_set_stage pre c j st f i w s d' :
  flush_state pre c j st f -> writes f !! i = Some w ->
  (forall p, p <> tempPath (dataDir st) (wtable w) ->
             p <> filePath (dataDir st) (wtable w) ->
             d' !! p = disk st !! p) ->
  stage_on_disk (with_disk d' st) (restage w s) ->
  set_stage j i s (with_disk d' st) =
    with_flushes (<[j := with_writes f (<[i := restage w s]> (writes f))]> (flushes st))
      (with_disk d' st) /\
  flush_state pre c j (set_stage j i s (with_disk d' st))
    (with_writes f (<[i := restage w s]> (writes f))).
Proof.
  intros [Hl Hb Hc Hnd Hd Hdir] Hw Hdisk Hnew.
  assert (E : set_stage j i s (with_disk d' st) =
    with_flushes (<[j := with_writes f (<[i := restage w s]> (writes f))]> (flushes st))
      (with_disk d' st)).
  { apply (set_stage_eq j i s (with_disk d' st) f w); assumption. }
  split; [exact E|]. rewrite E. split; cbn; try assumption.
  - apply list_lookup_insert_eq. eapply lookup_lt_Some, Hl.
  - rewrite (fmap_restage _ _ _ _ _ Hw); [exact Hb|reflexivity].
  - rewrite (fmap_restage _ _ _ _ _ Hw); [exact Hnd|reflexivity].
  - apply (restage_on_disk st); try assumption; reflexivity.
Qed.

Lemma flush_state_frame pre c j st f st' f' :
  flush_state pre c j st f ->
  flushes st' !! j = Some f' -> writes f' = writes f -> closing f' = closing f ->
  disk st' = disk st -> dataDir st' = dataDir st ->
  flush_state pre c j st' f'.
Proof.
  intros [Hl Hb Hc Hnd Hd Hdir] Hl' Hw Hc' Hd' Hdir'.
  split; try congruence.
  rewrite Hw. eapply Forall_impl; [exact Hd|]. intros w. unfold stage_on_disk.
  rewrite Hd', Hdir'. auto.
Qed.

(** A write of the flush fails: [Promise.all] rejects unless it already
    has. *)
Lemma flush_fail pre c j st f i w d' :
  flush_state pre c j st f -> flush_status f ->
  writes f !! i = Some w -> wstage w <> Persisted ->
  (forall p, p <> tempPath (dataDir st) (wtable w) ->
             p <> filePath (dataDir st) (wtable w) ->
             d' !! p = disk st !! p) ->
  let st' := reject j (set_stage j i Failed (with_disk d' st)) in
  exists f',
    flush_state pre c j st' f' /\ flush_status f' /\
    status f' = Aborted /\
    writes f' = <[i := restage w Failed]> (writes f) /\
    turn_of c st st' f f'.
Proof.
  intros Hfs Hst Hw Hnp Hdisk st'. unfold st'. clear st'.
  destruct (flush_state_set_stage pre c j st f i w Failed d' Hfs Hw Hdisk I)
    as [E Hfs1].
  set (st1 := set_stage j i Failed (with_disk d' st)) in *.
  set (f1 := with_writes f (<[i := restage w Failed]> (writes f))) in *.
  assert (Hl1 : flushes st1 !! j = Some f1) by apply Hfs1.
  assert (Hlen : (j < length (flushes st1))%nat) by (eapply lookup_lt_Some, Hl1).
  assert (Hex : Exists (fun w => wstage w = Failed) (writes f1)).
  { apply Exists_exists. exists (restage w Failed). split; [|reflexivity].
    apply list_elem_of_lookup. exists i. cbn.
    apply list_lookup_insert_eq. eapply lookup_lt_Some, Hw. }
  rewrite (reject_eq _ _ _ Hl1). unfold flush_status in Hst.
  change (status f1) with (status f). destruct (status f) eqn:Es.
  - exists (with_status f1 Aborted). split; [|split; [|split; [|split]]];
      try reflexivity.
    + eapply flush_state_frame; [exact Hfs1| |reflexivity..].
      cbn. apply list_lookup_insert_eq, Hlen.
    + exact Hex.
    + unfold turn_of, resolves. rewrite Es, E. cbn. rewrite app_nil_r.
      repeat split; try discriminate.
  - exfalso. apply Hnp. eapply forallb_persisted_lookup; eassumption.
  - exists f1. split; [exact Hfs1|]. split; [|split; [exact Es|split; [reflexivity|]]].
    + unfold flush_status. change (status f1) with (status f). rewrite Es. exact Hex.
    + unfold turn_of, resolves. change (status f1) with (status f).
      rewrite Es, E. cbn. rewrite app_nil_r. repeat split.
Qed.

(** A temporary file is written in full: the rename is issued. *)
Lemma flush_written pre c j st f i w :
  flush_state pre c j st f -> flush_status f ->
  writes f !! i = Some w -> wstage w = Writing ->
  let st' := set_stage j i Renaming
               (with_disk (<[tempPath (dataDir st) (wtable w) := wtext w]> (disk st)) st) in
  let f' := with_writes f (<[i := restage w Renaming]> (writes f)) in
  flush_state pre c j st' f' /\ flush_status f' /\ turn_of c st st' f f'.
Proof.
  intros Hfs Hst Hw Hs st' f'.
  destruct (flush_state_set_stage pre c j st f i w Renaming
              (<[tempPath (dataDir st) (wtable w) := wtext w]> (disk st)) Hfs Hw)
    as [E Hfs1].
  { intros p Hp _. apply lookup_insert_ne. congruence. }
  { unfold stage_on_disk. cbn. apply lookup_insert_eq. }
  split; [exact Hfs1|]. split.
  - unfold flush_status in *. change (status f') with (status f).
    cbn [writes f' with_writes]. destruct (status f).
    + destruct Hst as (Hnf & Hnp). split.
      * apply Forall_not_failed_insert; [discriminate|exact Hnf].
      * apply forallb_persisted_insert; [exact Hw|discriminate].
    + exfalso. pose proof (forallb_persisted_lookup _ _ _ Hst Hw). congruence.
    + apply Exists_failed_insert; [exact Hw|congruence|exact Hst].
  - unfold turn_of, resolves, st'. change (status f') with (status f). rewrite E. cbn.
    assert (Er : match status f with Pending => false | _ => false end = false)
      by (destruct (status f); reflexivity).
    destruct (status f); cbn; rewrite ?app_nil_r; repeat split; auto.
Qed.

Lemma after_flush_fields f st :
  let st' := after_flush f st in
  dataDir st' = dataDir st /\ writeQueue st' = writeQueue st /\
  writeTimer st' = writeTimer st /\ mem st' = mem st /\ disk st' = disk st /\
  flushes st' = flushes st /\ loads st' = loads st /\
  emitted st' = emitted st ++ (wtable <$> writes f) /\
  cache st' = (if closing f then [] else cache st).
Proof. unfold after_flush. destruct (closing f); repeat split. Qed.

(** A rename goes through: the table's file holds the text, and
    [Promise.all] resolves if this was the last write. *)
Lemma flush_renamed pre c j st f i w :
  flush_state pre c j st f -> flush_status f ->
  writes f !! i = Some w -> wstage w = Renaming ->
  let tmp := tempPath (dataDir st) (wtable w) in
  let d' := <[filePath (dataDir st) (wtable w) := wtext w]> (delete tmp (disk st)) in
  let st' := resolve_if_done j (set_stage j i Persisted (with_disk d' st)) in
  disk st !! tmp = Some (wtext w) /\
  exists f',
    flush_state pre c j st' f' /\ flush_status f' /\
    writes f' = <[i := restage w Persisted]> (writes f) /\
    turn_of c st st' f f'.
Proof.
  intros Hfs Hst Hw Hs tmp d' st'.
  assert (Htmp : disk st !! tmp = Some (wtext w)).
  { pose proof (fs_disk _ _ _ _ _ Hfs) as Hd. rewrite Forall_lookup in Hd.
    specialize (Hd _ _ Hw). unfold stage_on_disk in Hd. rewrite Hs in Hd. exact Hd. }
  split; [exact Htmp|].
  destruct (flush_state_set_stage pre c j st f i w Persisted d' Hfs Hw)
    as [E Hfs1].
  { intros p Hp Hp'. unfold d', tmp.
    rewrite lookup_insert_ne by (intros Heq; apply Hp'; symmetry; exact Heq).
    apply lookup_delete_ne. intros Heq; apply Hp; symmetry; exact Heq. }
  { unfold stage_on_disk. cbn. apply lookup_insert_eq. }
  set (st1 := set_stage j i Persisted (with_disk d' st)) in *.
  set (f1 := with_writes f (<[i := restage w Persisted]> (writes f))) in *.
  assert (Hl1 : flushes st1 !! j = Some f1) by apply Hfs1.
  assert (Hlen : (j < length (flushes st1))%nat) by (eapply lookup_lt_Some, Hl1).
  unfold st'. rewrite (resolve_if_done_eq _ _ _ Hl1). unfold flush_status in Hst.
  change (status f1) with (status f). destruct (status f) eqn:Es.
  - destruct Hst as (Hnf & Hnp).
    destruct (forallb persisted (writes f1)) eqn:Hall.
    + exists (with_status f1 Resolved).
      match goal with |- context [after_flush f1 ?s] =>
        destruct (after_flush_fields f1 s)
          as (Hdir & Hq & Ht & Hm & Hdk & Hfl & _ & Hem & Hca) end.
      split; [|split; [|split; [reflexivity|]]].
      * eapply flush_state_frame; [exact Hfs1| |reflexivity|reflexivity|..];
          try assumption.
        rewrite Hfl. cbn. apply list_lookup_insert_eq, Hlen.
      * unfold flush_status. cbn [status with_status]. exact Hall.
      * unfold turn_of, resolves. rewrite Es. cbn [status with_status].
        rewrite Hq, Ht, Hm, Hem, Hca. rewrite E. cbn.
        rewrite (fs_closing _ _ _ _ _ Hfs). repeat split; try discriminate.
    + exists f1. split; [exact Hfs1|]. split; [|split; [reflexivity|]].
      * unfold flush_status. change (status f1) with (status f). rewrite Es.
        split; [|exact Hall].
        apply Forall_not_failed_insert; [discriminate|exact Hnf].
      * unfold turn_of, resolves. change (status f1) with (status f).
        rewrite Es, E. cbn. rewrite app_nil_r. repeat split; try discriminate.
  - exfalso. pose proof (forallb_persisted_lookup _ _ _ Hst Hw). congruence.
  - exists f1. split; [exact Hfs1|]. split; [|split; [reflexivity|]].
    + unfold flush_status. change (status f1) with (status f). rewrite Es.
      apply Exists_failed_insert; [exact Hw|congruence|exact Hst].
    + unfold turn_of, resolves. change (status f1) with (status f).
      rewrite Es, E. cbn. rewrite app_nil_r. repeat split.
Qed.

(** Flush [j] keeps its shape whatever becomes of its writes: a turn of
    one of its file operations moves one write, and no other. *)
Lemma flush_step pre c j st f ev st' :
  flush_state pre c j st f -> flush_status f ->
  own j ev -> step ev st = Some st' ->
  exists i w s f',
    writes f !! i = Some w /\ writes f' = <[i := restage w s]> (writes f) /\
    flush_state pre c j st' f' /\ flush_status f' /\ turn_of c st st' f f'.
Proof.
  intros Hfs Hst Hown Hstep.
  pose proof (fs_lookup _ _ _ _ _ Hfs) as Hl.
  destruct ev; cbn [own step] in *; try contradiction; subst j0.
  - unfold writeFile_settled in Hstep. rewrite Hl in Hstep. cbn in Hstep.
    destruct (writes f !! i) as [w|] eqn:Hw; [|discriminate]. cbn in Hstep.
    destruct (wstage w) eqn:Hs; try discriminate.
    destruct fault as [torn|]; injection Hstep as <-.
    + destruct (flush_fail pre c j st f i w
                  (if torn then <[tempPath (dataDir st) (wtable w) := truncated (wtext w)]> (disk st)
                   else disk st) Hfs Hst Hw) as (f' & H1 & H2 & _ & H3 & H4);
        [congruence| |exists i, w, Failed, f'; auto].
      intros p Hp _. destruct torn; [apply lookup_insert_ne; congruence|reflexivity].
    + destruct (flush_written pre c j st f i w Hfs Hst Hw Hs) as (H1 & H2 & H3).
      exists i, w, Renaming, (with_writes f (<[i := restage w Renaming]> (writes f))).
      split; [exact Hw|]. split; [reflexivity|auto].
  - unfold rename_settled in Hstep. rewrite Hl in Hstep. cbn in Hstep.
    destruct (writes f !! i) as [w|] eqn:Hw; [|discriminate]. cbn in Hstep.
    destruct (wstage w) eqn:Hs; try discriminate.
    destruct (flush_renamed pre c j st f i w Hfs Hst Hw Hs)
      as (Htmp & f' & H1 & H2 & H3 & H4).
    destruct fault.
    + injection Hstep as <-.
      destruct (flush_fail pre c j st f i w (disk st) Hfs Hst Hw)
        as (f'' & H5 & H6 & _ & H7 & H8); [congruence|reflexivity|].
      replace (with_disk (disk st) st) with st in H5, H8 by (destruct st; reflexivity).
      exists i, w, Failed, f''. auto.
    + rewrite Htmp in Hstep. injection Hstep as <-.
      exists i, w, Persisted, f'. auto.
Qed.

(** ** Write coalescing *)

Lemma queue_frame_step ev st st' :
  step ev st = Some st' ->
  match ev with SaveData _ _ _ | TimerFired | Close => False | _ => True end ->
  writeQueue st' = writeQueue st /\ writeTimer st' = writeTimer st.
Proof.
  destruct ev; cbn [step]; intros H Hev; try contradiction.
  - injection H as <-. unfold getData. repeat break_match; cbn; auto.
  - unfold load_settled in H.
    destruct (loads st !! p) as [[table [s|]]|]; try discriminate.
    destruct (loadFromDisk table fault st) as [d|e].
    + cbn zeta in H. injection H as <-.
      match goal with |- context [if ?c then _ else _] => destruct c end; cbn; auto.
    + injection H as <-. auto.
  - unfold writeFile_settled in H.
    destruct (flushes st !! j) as [f|]; [|discriminate]. cbn in H.
    destruct (writes f !! i) as [w|]; [|discriminate]. cbn in H.
    destruct (wstage w); try discriminate.
    destruct fault as [torn|]; injection H as <-.
    + match goal with |- context [reject ?j ?s] =>
        destruct (reject_fields j s) as (_ & _ & _ & Hq & Ht & _) end.
      match type of Hq with context [set_stage ?j ?i ?s ?x] =>
        destruct (set_stage_fields j i s x) as (_ & _ & _ & Hq' & Ht' & _) end.
      rewrite Hq, Ht, Hq', Ht'. auto.
    + match goal with |- context [set_stage ?j ?i ?s ?x] =>
        destruct (set_stage_fields j i s x) as (_ & _ & _ & Hq' & Ht' & _) end.
      rewrite Hq', Ht'. auto.
  - unfold rename_settled in H.
    destruct (flushes st !! j) as [f|]; [|discriminate]. cbn in H.
    destruct (writes f !! i) as [w|]; [|discriminate]. cbn in H.
    destruct (wstage w); try discriminate.
    match type of H with context [match ?x with _ => _ end] => destruct x end;
      injection H as <-.
    + match goal with |- context [resolve_if_done ?j ?s] =>
        destruct (resolve_if_done_fields j s) as (_ & Hq & Ht & _) end.
      match type of Hq with context [set_stage ?j ?i ?s ?x] =>
        destruct (set_stage_fields j i s x) as (_ & _ & _ & Hq' & Ht' & _) end.
      rewrite Hq, Ht, Hq', Ht'. auto.
    + match goal with |- context [reject ?j ?s] =>
        destruct (reject_fields j s) as (_ & _ & _ & Hq & Ht & _) end.
      match type of Hq with context [set_stage ?j ?i ?s ?x] =>
        destruct (set_stage_fields j i s x) as (_ & _ & _ & Hq' & Ht' & _) end.
      rewrite Hq, Ht, Hq', Ht'. auto.
  - injection H as <-. auto.
  - injection H as <-. auto.
Qed.

Lemma saveData_queue table a now st :
  writeQueue (saveData table a now st) = JsMap.set (writeQueue st) table a /\
  writeTimer (saveData table a now st) = true.
Proof.
  unfold saveData.
  match goal with |- context [if ?c then _ else _] => destruct c eqn:E end;
    cbn; split; try reflexivity. exact E.
Qed.

Lemma window_queue_step table ev st st' :
  in_window table ev -> step ev st = Some st' ->
  JsMap.get (writeQueue st') table = JsMap.get (writeQueue st) table /\
  (writeTimer st = true -> writeTimer st' = true).
Proof.
  intros Hev H. destruct ev; cbn [in_window] in Hev; try contradiction.
  1:{ cbn in H. injection H as <-.
      destruct (saveData_queue table0 a now st) as [-> ->].
      split; [apply get_set_ne, Hev|reflexivity]. }
  all: destruct (queue_frame_step _ _ _ H I) as [-> ->]; auto.
Qed.

Lemma arrs_prefix_step ev st st' :
  step ev st = Some st' ->
  match ev with MutateArray _ _ => False | _ => True end ->
  arrs (mem st) `prefix_of` arrs (mem st').
Proof.
  destruct ev; cbn [step]; intros H Hev; try contradiction.
  - injection H as <-. rewrite saveData_mem. unfold new_array. cbn.
    apply prefix_app_r. reflexivity.
  - injection H as <-. unfold getData, new_array.
    repeat break_match; cbn; try reflexivity. apply prefix_app_r. reflexivity.
  - unfold load_settled in H.
    destruct (loads st !! p) as [[table [s|]]|]; try discriminate.
    destruct (loadFromDisk table fault st) as [d|e].
    + cbn zeta in H. injection H as <-.
      match goal with |- context [if ?c then _ else _] => destruct c end; cbn;
        rewrite ?mem_addToCache; unfold new_snapshot, new_array; cbn;
        rewrite <- ?app_assoc; apply prefix_app_r; reflexivity.
    + injection H as <-. reflexivity.
  - destruct (writeTimer st); [|discriminate]. injection H as <-.
    rewrite mem_flushWrites. reflexivity.
  - unfold writeFile_settled in H.
    destruct (flushes st !! j) as [f|]; [|discriminate]. cbn in H.
    destruct (writes f !! i) as [w|]; [|discriminate]. cbn in H.
    destruct (wstage w); try discriminate.
    destruct fault as [torn|]; injection H as <-;
      rewrite ?mem_reject, ?mem_set_stage; reflexivity.
  - unfold rename_settled in H.
    destruct (flushes st !! j) as [f|]; [|discriminate]. cbn in H.
    destruct (writes f !! i) as [w|]; [|discriminate]. cbn in H.
    destruct (wstage w); try discriminate.
    match type of H with context [match ?x with _ => _ end] => destruct x end;
      injection H as <-;
      rewrite ?mem_resolve_if_done, ?mem_reject, ?mem_set_stage; reflexivity.
  - injection H as <-. unfold close. destruct (writeTimer st).
    + rewrite mem_flushWrites. reflexivity.
    + reflexivity.
  - injection H as <-. reflexivity.
Qed.

Lemma deref_prefix h h' a :
  arrs h `prefix_of` arrs h' -> objs h `prefix_of` objs h' ->
  (a < next_array h)%nat -> valid_array h a ->
  deref h' a = deref h a /\ (a < next_array h')%nat /\ valid_array h' a.
Proof.
  intros Ha Ho Hlt Hv. unfold next_array in *.
  destruct (lookup_lt_is_Some_2 (arrs h) a Hlt) as [[fz l] Hl].
  pose proof (prefix_lookup_Some _ _ _ _ Hl Ha) as Hl'.
  assert (He : elems h' a = elems h a) by (unfold elems; rewrite Hl, Hl'; reflexivity).
  split; [|split].
  - unfold deref. rewrite He. apply omap_lookup_prefix; assumption.
  - apply (lookup_lt_Some _ _ _ Hl').
  - unfold valid_array in *. rewrite He. eapply Forall_impl; [exact Hv|].
    intros o [r Hr]. exists r. apply (prefix_lookup_Some _ _ _ _ Hr Ho).
Qed.

Lemma window_run table evs : forall st st',
  Forall (in_window table) evs -> run evs st = Some st' ->
  JsMap.get (writeQueue st') table = JsMap.get (writeQueue st) table /\
  (writeTimer st = true -> writeTimer st' = true).
Proof.
  induction evs as [|ev evs IH]; intros st st' Hevs H; cbn in H.
  - injection H as <-. auto.
  - destruct (step ev st) as [st1|] eqn:Hs; [|discriminate]. cbn in H.
    apply Forall_cons in Hevs as [Hev Hevs].
    destruct (window_queue_step table ev st st1 Hev Hs) as [Hq Ht].
    destruct (IH st1 st' Hevs H) as (Hq' & Ht').
    rewrite Hq', Hq. auto.
Qed.

Lemma unaltered_run evs : forall st st' a,
  Forall unaltered evs -> run evs st = Some st' ->
  (a < next_array (mem st))%nat -> valid_array (mem st) a ->
  deref (mem st') a = deref (mem st) a.
Proof.
  induction evs as [|ev evs IH]; intros st st' a Hevs H Hlt Hv; cbn in H.
  - injection H as <-. reflexivity.
  - destruct (step ev st) as [st1|] eqn:Hs; [|discriminate]. cbn in H.
    apply Forall_cons in Hevs as [Hev Hevs].
    destruct (deref_prefix (mem st) (mem st1) a) as (Hd & Hlt1 & Hv1); try assumption.
    { apply (arrs_prefix_step _ _ _ Hs). destruct ev; try exact I; contradiction. }
    { apply (objs_prefix_step _ _ _ Hs). destruct ev; try reflexivity; contradiction. }
    rewrite (IH st1 st' a Hevs H Hlt1 Hv1). exact Hd.
Qed.

Lemma length_flushes_reject j st :
  length (flushes (reject j st)) = length (flushes st).
Proof. unfold reject. repeat break_match; cbn; rewrite ?length_insert; reflexivity. Qed.

Lemma length_flushes_set_stage j i s st :
  length (flushes (set_stage j i s st)) = length (flushes st).
Proof. unfold set_stage. repeat break_match; cbn; rewrite ?length_insert; reflexivity. Qed.

Lemma length_flushes_resolve_if_done j st :
  length (flushes (resolve_if_done j st)) = length (flushes st).
Proof.
  unfold resolve_if_done, after_flush.
  repeat break_match; cbn; rewrite ?length_insert; reflexivity.
Qed.

Lemma flushes_addToCache table a now st :
  flushes (addToCache table a now st) = flushes st.
Proof. reflexivity. Qed.

Lemma flushes_saveData table a now st :
  flushes (saveData table a now st) = flushes st.
Proof. unfold saveData. break_match; reflexivity. Qed.

Lemma in_window_no_flush table ev : in_window table ev -> no_flush ev.
Proof. destruct ev; cbn; auto. Qed.

Lemma no_flush_step ev st st' :
  no_flush ev -> step ev st = Some st' ->
  length (flushes st') = length (flushes st).
Proof.
  destruct ev; cbn [no_flush step]; intros Hev H; try contradiction.
  - injection H as <-. rewrite flushes_saveData. reflexivity.
  - injection H as <-. unfold getData. repeat break_match; reflexivity.
  - unfold load_settled in H.
    destruct (loads st !! p) as [[table [s|]]|]; try discriminate.
    destruct (loadFromDisk table fault st) as [d|e].
    + cbn zeta in H. injection H as <-.
      match goal with |- context [if ?c then _ else _] => destruct c end; reflexivity.
    + injection H as <-. reflexivity.
  - unfold writeFile_settled in H.
    destruct (flushes st !! j) as [f|]; [|discriminate]. cbn in H.
    destruct (writes f !! i) as [w|]; [|discriminate]. cbn in H.
    destruct (wstage w); try discriminate.
    destruct fault as [torn|]; injection H as <-;
      rewrite ?length_flushes_reject, ?length_flushes_set_stage; reflexivity.
  - unfold rename_settled in H.
    destruct (flushes st !! j) as [f|]; [|discriminate]. cbn in H.
    destruct (writes f !! i) as [w|]; [|discriminate]. cbn in H.
    destruct (wstage w); try discriminate.
    match type of H with context [match ?x with _ => _ end] => destruct x end;
      injection H as <-;
      rewrite ?length_flushes_resolve_if_done, ?length_flushes_reject,
        ?length_flushes_set_stage; reflexivity.
  - injection H as <-. reflexivity.
  - injection H as <-. reflexivity.
Qed.

Lemma no_flush_run evs : forall st st',
  Forall no_flush evs -> run evs st = Some st' ->
  length (flushes st') = length (flushes st).
Proof.
  induction evs as [|ev evs IH]; intros st st' Hevs H; cbn in H.
  - injection H as <-. reflexivity.
  - destruct (step ev st) as [st1|] eqn:Hs; [|discriminate]. cbn in H.
    apply Forall_cons in Hevs as [Hev Hevs].
    rewrite (IH st1 st' Hevs H). apply (no_flush_step _ _ _ Hev Hs).
Qed.

Lemma flushWrites_started c pre :
  writeQueue pre <> [] ->
  flushWrites c pre =
  with_flushes
    (flushes pre ++
       [{| writes := (fun '(table, a) => writeToDisk table a pre) <$> writeQueue pre;
           status := Pending; closing := c |}])
    (with_writeQueue [] (with_writeTimer false pre)).
Proof.
  intros Hne. unfold flushWrites.
  cbn [flushes with_writeQueue with_writeTimer writeQueue].
  erewrite resolve_if_done_eq.
  2:{ cbn. rewrite lookup_app_r by lia. rewrite Nat.sub_diag. reflexivity. }
  cbn [status writes]. unfold JsMap.entries.
  destruct (writeQueue pre) as [|[t a] q]; [congruence|]. reflexivity.
Qed.

Lemma filter_table_writes (q : list (string * nat)) table a pre :
  JsMap.wf q -> JsMap.get q table = Some a ->
  filter (fun w => wtable w = table)
    ((fun '(t, a) => writeToDisk t a pre) <$> q) = [writeToDisk table a pre].
Proof.
  unfold JsMap.wf, JsMap.keys. induction q as [|[t a'] q IH]; [discriminate|].
  rewrite !fmap_cons, NoDup_cons. cbn [JsMap.get fst]. intros [Hnin Hnd] Hg.
  destruct (decide (t = table)) as [->|Hne].
  - injection Hg as ->. rewrite filter_cons_True by reflexivity. f_equal.
    apply filter_none. intros w Hin Hw.
    apply list_elem_of_fmap in Hin as ([t' a''] & -> & Hin). cbn in Hw. subst t'.
    apply Hnin. apply (list_elem_of_fmap_2 fst _ _ Hin).
  - rewrite filter_cons_False by (cbn; exact Hne). apply IH; assumption.
Qed.

(** ** Teardown *)

Lemma remaining_insert (ws : list write) (i : nat) w s :
  ws !! i = Some w ->
  (remaining (<[i := restage w s]> ws) + weight (wstage w) =
   remaining ws + weight s)%nat.
Proof.
  revert i. induction ws as [|w0 ws IH]; intros i Hw; [discriminate|].
  destruct i as [|i].
  - injection Hw as ->.
    change ((weight s + remaining ws + weight (wstage w))%nat =
            (weight (wstage w) + remaining ws + weight s)%nat). lia.
  - specialize (IH i Hw).
    change ((weight (wstage w0) + remaining (<[i := restage w s]> ws)
             + weight (wstage w))%nat =
            (weight (wstage w0) + remaining ws + weight s)%nat). lia.
Qed.

Lemma forallb_persisted_false (ws : list write) :
  forallb persisted ws = false ->
  exists (i : nat) w, ws !! i = Some w /\ wstage w <> Persisted.
Proof.
  induction ws as [|w ws IH]; cbn; [discriminate|].
  destruct (persisted w) eqn:Hp; cbn.
  - intros H. destruct (IH H) as (i & w' & Hi & Hs). exists (S i), w'. auto.
  - intros _. exists 0%nat, w. split; [reflexivity|].
    unfold persisted in Hp. intros E. rewrite E in Hp. discriminate.
Qed.

(** While no write has failed, the writes of a flush can all be seen
    through, and then the flush resolves. *)
Lemma flush_completes pre c j (n : nat) : forall st f,
  remaining (writes f) = n ->
  flush_state pre c j st f -> flush_status f ->
  Forall (fun w => wstage w <> Failed) (writes f) ->
  exists evs st' f',
    Forall (own j) evs /\ run evs st = Some st' /\
    flush_state pre c j st' f' /\ flush_status f' /\
    status f' = Resolved.
Proof.
  induction n as [n IH] using lt_wf_ind. intros st f Hn Hfs Hst Hnf.
  pose proof (fs_lookup _ _ _ _ _ Hfs) as Hl.
  destruct (status f) eqn:Es.
  - assert (Hp : forallb persisted (writes f) = false).
    { unfold flush_status in Hst. rewrite Es in Hst. apply Hst. }
    destruct (forallb_persisted_false _ Hp) as (i & w & Hw & Hs).
    assert (Hs' : wstage w <> Failed).
    { rewrite Forall_lookup in Hnf. apply (Hnf i w Hw). }
    pose proof (remaining_insert (writes f) i w) as Hrem.
    destruct (wstage w) eqn:Ew; try congruence.
    + destruct (flush_written pre c j st f i w Hfs Hst Hw Ew) as (Hfs1 & Hst1 & _).
      cbn zeta in Hfs1, Hst1. specialize (Hrem Renaming Hw). cbn in Hrem.
      assert (Hlt : (remaining (<[i := restage w Renaming]> (writes f)) < n)%nat) by lia.
      assert (Hnf1 : Forall (fun w => wstage w <> Failed)
                       (<[i := restage w Renaming]> (writes f)))
        by (apply Forall_not_failed_insert; [discriminate|exact Hnf]).
      destruct (IH _ Hlt _ (with_writes f (<[i := restage w Renaming]> (writes f)))
                  eq_refl Hfs1 Hst1 Hnf1)
        as (evs & st' & f' & Hown & Hrun & H1 & H2 & H3).
      exists (WriteFileSettled j i None :: evs), st', f'.
      split; [constructor; [reflexivity|exact Hown]|].
      split; [|auto]. cbn. unfold writeFile_settled. rewrite Hl. cbn.
      rewrite Hw. cbn. rewrite Ew. cbn. exact Hrun.
    + destruct (flush_renamed pre c j st f i w Hfs Hst Hw Ew)
        as (Htmp & f1 & Hfs1 & Hst1 & Hw1 & _).
      cbn zeta in Htmp, Hfs1, Hst1. specialize (Hrem Persisted Hw). cbn in Hrem.
      assert (Hlt : (remaining (writes f1) < n)%nat) by (rewrite Hw1; lia).
      assert (Hnf1 : Forall (fun w => wstage w <> Failed) (writes f1))
        by (rewrite Hw1; apply Forall_not_failed_insert; [discriminate|exact Hnf]).
      destruct (IH _ Hlt _ f1 eq_refl Hfs1 Hst1 Hnf1)
        as (evs & st' & f' & Hown & Hrun & H1 & H2 & H3).
      exists (RenameSettled j i false :: evs), st', f'.
      split; [constructor; [reflexivity|exact Hown]|].
      split; [|auto]. cbn. unfold rename_settled. rewrite Hl. cbn.
      rewrite Hw. cbn. rewrite Ew, Htmp. cbn. exact Hrun.
  - exists [], st, f. split; [constructor|]. auto.
  - exfalso. unfold flush_status in Hst. rewrite Es in Hst.
    apply Exists_exists in Hst as (w & Hin & Hs).
    rewrite Forall_forall in Hnf. apply (Hnf w Hin Hs).
Qed.

Lemma batch_on_disk pre st f :
  (fun w => (wtable w, wtext w)) <$> writes f = batch pre ->
  Forall (stage_on_disk st) (writes f) -> dataDir st = dataDir pre ->
  forallb persisted (writes f) = true ->
  forall t a, (t, a) ∈ writeQueue pre ->
    disk st !! filePath (dataDir pre) t = Some (JSON_stringify (deref (mem pre) a)).
Proof.
  intros Hb Hd Hdir Hall t a Hin.
  assert (Hin' : (t, JSON_stringify (deref (mem pre) a)) ∈ batch pre).
  { unfold batch. apply list_elem_of_fmap. exists (t, a). split; [reflexivity|exact Hin]. }
  rewrite <- Hb in Hin'. apply list_elem_of_fmap in Hin' as (w & Hw & Hin').
  injection Hw as -> ->.
  rewrite Forall_forall in Hd. specialize (Hd w Hin'). unfold stage_on_disk in Hd.
  apply list_elem_of_lookup in Hin' as [i Hi].
  rewrite (forallb_persisted_lookup _ _ _ Hall Hi), Hdir in Hd. exact Hd.
Qed.

(** ** Loading a table *)

Lemma omap_lookup_seq (o d : list record) :
  omap (fun i => (o ++ d) !! i) (seq (length o) (length d)) = d.
Proof.
  revert o. induction d as [|r d IH]; intros o; [reflexivity|].
  cbn [length seq]. unfold omap. cbn [list_omap]. fold (@omap list _).
  rewrite list_lookup_middle by reflexivity. f_equal.
  specialize (IH (o ++ [r])). rewrite <- app_assoc, length_app in IH. cbn in IH.
  rewrite Nat.add_1_r in IH. exact IH.
Qed.

Lemma deref_new_snapshot d h : deref (new_snapshot d h) (next_array h) = d.
Proof.
  unfold deref, new_snapshot.
  change (next_array h) with (next_array {| objs := objs h ++ d; arrs := arrs h |}).
  rewrite elems_new_array. unfold new_array. cbn. apply omap_lookup_seq.
Qed.

Lemma deref_new_array frozen l h a :
  (a < next_array h)%nat -> deref (new_array frozen l h) a = deref h a.
Proof.
  intros H. unfold deref, elems. rewrite new_array_lookup_old by exact H. reflexivity.
Qed.

Lemma settled_settle_load p table s st :
  (p < length (loads st))%nat ->
  settled p (settle_load p table s st) =
  Some match s with
       | Fulfilled a => inl (deref (mem st) a)
       | Rejected e => inr e
       end.
Proof.
  intros Hp. unfold settled, settle_load. cbn.
  rewrite list_lookup_insert_eq by exact Hp. reflexivity.
Qed.

Lemma settled_addToCache p table a now st r :
  settled p st = Some r ->
  (forall a', loads st !! p ≫= lstate = Some (Fulfilled a') -> (a' < next_array (mem st))%nat) ->
  settled p (addToCache table a now st) = Some r.
Proof.
  unfold settled. intros H Hlt.
  change (loads (addToCache table a now st)) with (loads st).
  rewrite mem_addToCache.
  destruct (loads st !! p) as [ld|]; [|discriminate]. cbn in *.
  destruct (lstate ld) as [[a'|e]|]; cbn in *; try discriminate; [|exact H].
  rewrite deref_new_array; [exact H|]. apply Hlt. reflexivity.
Qed.

Lemma load_settled_outcome p table fault now st :
  loads st !! p = Some {| ltable := table; lstate := None |} ->
  exists st',
    load_settled p fault now st = Some st' /\ disk st' = disk st /\
    settled p st' = Some (loadFromDisk table fault st).
Proof.
  intros Hl. pose proof (lookup_lt_Some _ _ _ Hl) as Hp.
  unfold load_settled. rewrite Hl.
  destruct (loadFromDisk table fault st) as [d|e] eqn:El.
  - eexists. split; [reflexivity|]. cbn zeta.
    set (h := new_snapshot d (mem st)).
    set (st1 := settle_load p table (Fulfilled (next_array (mem st))) (with_mem h st)).
    assert (Hs : settled p st1 = Some (inl d)).
    { unfold st1. rewrite settled_settle_load by exact Hp. cbn.
      unfold h. rewrite deref_new_snapshot. reflexivity. }
    match goal with |- context [if ?c then _ else _] => destruct c end.
    + split; [reflexivity|].
      match goal with |- settled p (with_pendingReads _ (addToCache ?t ?a ?n ?s)) = _ =>
        change (settled p (addToCache t a n s) = Some (inl d));
        apply settled_addToCache; [exact Hs|] end.
      cbn. rewrite list_lookup_insert_eq by exact Hp. cbn. intros a' [= <-].
      unfold h, new_snapshot. rewrite next_array_new_array. unfold next_array. cbn. lia.
    + split; [reflexivity|]. exact Hs.
  - eexists. split; [reflexivity|]. split; [reflexivity|].
    cbn. unfold settled. cbn. rewrite list_lookup_insert_eq by exact Hp. reflexivity.
Qed.

(** C5 as stated fails: a table that was written and not flushed yet has
    no file, and [getData] answers with what was written, not with the empty
    snapshot. *)
Lemma cached_table_without_file :
  disk (saveData "products" 0 1000 s0) !! filePath "data" "products" = None /\
  answered (getData "products" 1001 (saveData "products" 0 1000 s0)) = Some [r1].
Proof. split; vm_compute; reflexivity. Qed.

(** C5, amended.  A [getData(T)] that finds [T] neither cached nor being
    loaded starts a load and creates no file; every [getData(T)] issued
    while the load is in flight is handed the same promise.  When the read
    settles, no file is created; the load resolves to the empty snapshot if
    the file is absent, to the parsed snapshot if it holds one, and it
    rejects with the error of any other read failure or with the decode
    error, which all the callers holding the promise receive. *)
Theorem missing_file_is_not_an_error table now st :
  JsMap.get (cache st) table = None ->
  JsMap.get (pendingReads st) table = None ->
  let p := length (loads st) in
  exists st1,
    getData table now st = (st1, Later p) /\
    disk st1 = disk st /\
    loads st1 !! p = Some {| ltable := table; lstate := None |} /\
    (forall now', getData table now' st1 = (st1, Later p)) /\
    forall st2 fault now2,
      loads st2 !! p = Some {| ltable := table; lstate := None |} ->
      exists st3,
        load_settled p fault now2 st2 = Some st3 /\
        disk st3 = disk st2 /\
        settled p st3 =
          Some match fault, disk st2 !! filePath (dataDir st2) table with
               | None, None => inl []
               | None, Some text =>
                   match JSON_parse text with
                   | Some d => inl d
                   | None => inr SyntaxError
                   end
               | Some code, _ =>
                   if decide (code = "ENOENT"%string) then inl []
                   else inr (SystemError code)
               end.
Proof.
  intros Hc Hp p. unfold getData. rewrite Hc, Hp. eexists. split; [reflexivity|].
  split; [reflexivity|]. split.
  { cbn. rewrite lookup_app_r by lia. rewrite Nat.sub_diag. reflexivity. }
  split.
  { intros now'. cbn. rewrite Hc, get_set_eq. reflexivity. }
  intros st2 fault now2 Hl.
  destruct (load_settled_outcome p table fault now2 st2 Hl) as (st3 & H1 & H2 & H3).
  exists st3. split; [exact H1|]. split; [exact H2|]. rewrite H3. f_equal.
  unfold loadFromDisk, readFile. destruct fault as [code|].
  - destruct (decide (code = "ENOENT"%string)); reflexivity.
  - destruct (disk st2 !! filePath (dataDir st2) table) as [text|].
    + destruct (JSON_parse text); reflexivity.
    + reflexivity.
Qed.

(** ** Atomic replacement of a table file *)

Lemma write_at_resolve_if_done j' st j i :
  write_at (resolve_if_done j' st) j i = write_at st j i.
Proof.
  unfold resolve_if_done. destruct (flushes st !! j') as [f|] eqn:Hf; [|reflexivity].
  destruct (status f); try reflexivity.
  destruct (forallb persisted (writes f)); [|reflexivity].
  unfold write_at.
  destruct (after_flush_fields f
              (with_flushes (<[j' := with_status f Resolved]> (flushes st)) st))
    as (_ & _ & _ & _ & _ & -> & _). cbn.
  destruct (decide (j' = j)) as [->|Hne].
  - rewrite list_lookup_insert_eq by (eapply lookup_lt_Some, Hf). rewrite Hf. reflexivity.
  - rewrite list_lookup_insert_ne by exact Hne. reflexivity.
Qed.

Lemma write_at_reject j' st j i : write_at (reject j' st) j i = write_at st j i.
Proof.
  unfold reject. destruct (flushes st !! j') as [f|] eqn:Hf; [|reflexivity].
  destruct (status f); try reflexivity. unfold write_at. cbn.
  destruct (decide (j' = j)) as [->|Hne].
  - rewrite list_lookup_insert_eq by (eapply lookup_lt_Some, Hf). rewrite Hf. reflexivity.
  - rewrite list_lookup_insert_ne by exact Hne. reflexivity.
Qed.

Lemma write_at_set_stage j' i' s st j i :
  (j', i') <> (j, i) -> write_at (set_stage j' i' s st) j i = write_at st j i.
Proof.
  intros Hne. unfold set_stage.
  destruct (flushes st !! j') as [f|] eqn:Hf; [|reflexivity].
  destruct (writes f !! i') as [w|] eqn:Hw; [|reflexivity].
  unfold write_at. cbn. destruct (decide (j' = j)) as [->|Hj].
  - rewrite list_lookup_insert_eq by (eapply lookup_lt_Some, Hf). rewrite Hf. cbn.
    apply list_lookup_insert_ne. congruence.
  - rewrite list_lookup_insert_ne by exact Hj. reflexivity.
Qed.

Lemma write_at_set_stage_eq j i s st w :
  write_at st j i = Some w -> write_at (set_stage j i s st) j i = Some (restage w s).
Proof.
  unfold write_at, set_stage. intros H.
  destruct (flushes st !! j) as [f|] eqn:Hf; [|discriminate]. cbn in H. rewrite H.
  cbn. rewrite list_lookup_insert_eq by (eapply lookup_lt_Some, Hf). cbn.
  apply list_lookup_insert_eq. eapply lookup_lt_Some, H.
Qed.

Lemma write_at_flushWrites c st j i w :
  write_at st j i = Some w -> write_at (flushWrites c st) j i = Some w.
Proof.
  intros H. unfold flushWrites. rewrite write_at_resolve_if_done.
  unfold write_at in *. cbn.
  destruct (flushes st !! j) as [f|] eqn:Hf; [|discriminate].
  rewrite (lookup_app_l_Some _ _ _ _ Hf). exact H.
Qed.

Lemma flushWrites_disk c st :
  disk (flushWrites c st) = disk st /\ dataDir (flushWrites c st) = dataDir st.
Proof.
  unfold flushWrites.
  match goal with |- context [resolve_if_done ?j ?s] =>
    destruct (resolve_if_done_fields j s) as (-> & _ & _ & _ & _ & _ & -> & _) end.
  split; reflexivity.
Qed.

Ltac paths_differ :=
  let E := fresh "E" in
  first
    [ apply filePath_ne_tempPath
    | intros E; symmetry in E; apply filePath_ne_tempPath in E; exact E
    | intros E; apply tempPath_inj in E; congruence
    | intros E; apply filePath_inj in E; congruence ].

(** The files of a table and the writes for it are out of reach of
    everything but the file operations of those writes. *)
Lemma apart_step table ev st st' j i w :
  touches table ev st = false -> step ev st = Some st' ->
  write_at st j i = Some w -> wtable w = table ->
  write_at st' j i = Some w /\ dataDir st' = dataDir st /\
  disk st' !! filePath (dataDir st) table = disk st !! filePath (dataDir st) table /\
  disk st' !! tempPath (dataDir st) table = disk st !! tempPath (dataDir st) table.
Proof.
  intros Hto Hstep Hw Ht. destruct ev; cbn [step touches] in *.
  - injection Hstep as <-. unfold saveData.
    match goal with |- context [if ?c then _ else _] => destruct c end; cbn; auto.
  - injection Hstep as <-. unfold getData. repeat break_match; cbn; auto.
  - unfold load_settled in Hstep.
    destruct (loads st !! p) as [[tb [s|]]|]; try discriminate.
    destruct (loadFromDisk tb fault st) as [d|e].
    + cbn zeta in Hstep. injection Hstep as <-.
      match goal with |- context [if ?c then _ else _] => destruct c end; cbn; auto.
    + injection Hstep as <-. auto.
  - destruct (writeTimer st); [|discriminate]. injection Hstep as <-.
    destruct (flushWrites_disk false st) as [-> ->].
    split; [apply write_at_flushWrites, Hw|auto].
  - apply bool_decide_eq_false in Hto.
    unfold writeFile_settled in Hstep. unfold write_at in Hto.
    destruct (flushes st !! j0) as [f0|] eqn:Hf0; [|discriminate]. cbn in Hstep, Hto.
    destruct (writes f0 !! i0) as [w0|] eqn:Hw0; [|discriminate]. cbn in Hstep, Hto.
    assert (Hne : (j0, i0) <> (j, i)).
    { intros [= -> ->]. unfold write_at in Hw. rewrite Hf0 in Hw. cbn in Hw.
      rewrite Hw0 in Hw. injection Hw as ->. congruence. }
    assert (Htb : wtable w0 <> table) by congruence.
    destruct (wstage w0); try discriminate.
    destruct fault as [torn|]; injection Hstep as <-.
    + rewrite write_at_reject, write_at_set_stage by exact Hne.
      match goal with |- context [reject ?j ?s] =>
        destruct (reject_fields j s) as (-> & _ & _ & _ & _ & _ & _ & _ & -> & _) end.
      match goal with |- context [set_stage ?j ?i ?s ?x] =>
        destruct (set_stage_fields j i s x) as (-> & _ & _ & _ & _ & _ & _ & _ & -> & _) end.
      cbn. split; [exact Hw|]. split; [reflexivity|].
      destruct torn; [|auto].
      rewrite !lookup_insert_ne by paths_differ. auto.
    + rewrite write_at_set_stage by exact Hne.
      match goal with |- context [set_stage ?j ?i ?s ?x] =>
        destruct (set_stage_fields j i s x) as (-> & _ & _ & _ & _ & _ & _ & _ & -> & _) end.
      cbn. split; [exact Hw|]. split; [reflexivity|].
      rewrite !lookup_insert_ne by paths_differ. auto.
  - apply bool_decide_eq_false in Hto.
    unfold rename_settled in Hstep. unfold write_at in Hto.
    destruct (flushes st !! j0) as [f0|] eqn:Hf0; [|discriminate]. cbn in Hstep, Hto.
    destruct (writes f0 !! i0) as [w0|] eqn:Hw0; [|discriminate]. cbn in Hstep, Hto.
    assert (Hne : (j0, i0) <> (j, i)).
    { intros [= -> ->]. unfold write_at in Hw. rewrite Hf0 in Hw. cbn in Hw.
      rewrite Hw0 in Hw. injection Hw as ->. congruence. }
    assert (Htb : wtable w0 <> table) by congruence.
    destruct (wstage w0); try discriminate.
    match type of Hstep with context [match ?x with _ => _ end] => destruct x end;
      injection Hstep as <-.
    + rewrite write_at_resolve_if_done, write_at_set_stage by exact Hne.
      match goal with |- context [resolve_if_done ?j ?s] =>
        destruct (resolve_if_done_fields j s) as (-> & _ & _ & _ & _ & _ & -> & _) end.
      match goal with |- context [set_stage ?j ?i ?s ?x] =>
        destruct (set_stage_fields j i s x) as (-> & _ & _ & _ & _ & _ & _ & _ & -> & _) end.
      cbn. split; [exact Hw|]. split; [reflexivity|].
      rewrite !lookup_insert_ne by paths_differ.
      rewrite !lookup_delete_ne by paths_differ. auto.
    + rewrite write_at_reject, write_at_set_stage by exact Hne.
      match goal with |- context [reject ?j ?s] =>
        destruct (reject_fields j s) as (-> & _ & _ & _ & _ & _ & _ & _ & -> & _) end.
      match goal with |- context [set_stage ?j ?i ?s ?x] =>
        destruct (set_stage_fields j i s x) as (-> & _ & _ & _ & _ & _ & _ & _ & -> & _) end.
      auto.
  - injection Hstep as <-. unfold close. destruct (writeTimer st).
    + destruct (flushWrites_disk true st) as [-> ->].
      split; [apply write_at_flushWrites, Hw|auto].
    + auto.
  - injection Hstep as <-. auto.
  - injection Hstep as <-. auto.
Qed.

Lemma apart_run table evs : forall st st' j i w,
  run_apart table evs st = Some st' ->
  write_at st j i = Some w -> wtable w = table ->
  write_at st' j i = Some w /\ dataDir st' = dataDir st /\
  disk st' !! filePath (dataDir st) table = disk st !! filePath (dataDir st) table /\
  disk st' !! tempPath (dataDir st) table = disk st !! tempPath (dataDir st) table.
Proof.
  induction evs as [|ev evs IH]; intros st st' j i w Hrun Hw Ht; cbn in Hrun.
  - injection Hrun as <-. auto.
  - destruct (touches table ev st) eqn:Hto; [discriminate|].
    destruct (step ev st) as [st1|] eqn:Hs; [|discriminate]. cbn in Hrun.
    destruct (apart_step table ev st st1 j i w Hto Hs Hw Ht) as (Hw1 & Hd1 & Hf1 & Ht1).
    destruct (IH st1 st' j i w Hrun Hw1 Ht) as (Hw2 & Hd2 & Hf2 & Ht2).
    rewrite Hd1 in Hf2, Ht2. rewrite Hd2, Hf2, Ht2. auto.
Qed.

Lemma write_at_inv st j i w :
  write_at st j i = Some w ->
  exists f, flushes st !! j = Some f /\ writes f !! i = Some w.
Proof.
  unfold write_at. destruct (flushes st !! j) as [f|]; [|discriminate].
  cbn. eauto.
Qed.

Lemma writeFile_settled_effect st j i w fault :
  write_at st j i = Some w -> wstage w = Writing ->
  exists st',
    writeFile_settled j i fault st = Some st' /\
    dataDir st' = dataDir st /\
    disk st' !! filePath (dataDir st) (wtable w) =
      disk st !! filePath (dataDir st) (wtable w) /\
    match fault with
    | None =>
        write_at st' j i = Some (restage w Renaming) /\
        disk st' !! tempPath (dataDir st) (wtable w) = Some (wtext w)
    | Some _ => write_at st' j i = Some (restage w Failed)
    end.
Proof.
  intros Hw Hs. destruct (write_at_inv _ _ _ _ Hw) as (f & Hf & Hwi).
  unfold writeFile_settled. rewrite Hf. cbn. rewrite Hwi. cbn. rewrite Hs.
  destruct fault as [torn|]; eexists; (split; [reflexivity|]).
  - match goal with |- context [reject ?j ?s] =>
      destruct (reject_fields j s) as (-> & _ & _ & _ & _ & _ & _ & _ & -> & _) end.
    match goal with |- context [set_stage ?j ?i ?s ?x] =>
      destruct (set_stage_fields j i s x) as (-> & _ & _ & _ & _ & _ & _ & _ & -> & _) end.
    rewrite write_at_reject. cbn. split; [reflexivity|]. split.
    + destruct torn; [|reflexivity]. apply lookup_insert_ne. paths_differ.
    + apply write_at_set_stage_eq. exact Hw.
  - match goal with |- context [set_stage ?j ?i ?s ?x] =>
      destruct (set_stage_fields j i s x) as (-> & _ & _ & _ & _ & _ & _ & _ & -> & _) end.
    cbn. split; [reflexivity|]. split; [apply lookup_insert_ne; paths_differ|].
    split; [apply write_at_set_stage_eq; exact Hw|apply lookup_insert_eq].
Qed.

Lemma rename_settled_effect st j i w fault :
  write_at st j i = Some w -> wstage w = Renaming ->
  disk st !! tempPath (dataDir st) (wtable w) = Some (wtext w) ->
  exists st',
    rename_settled j i fault st = Some st' /\
    dataDir st' = dataDir st /\
    write_at st' j i = Some (restage w (if fault then Failed else Persisted)) /\
    disk st' !! filePath (dataDir st) (wtable w) =
      (if fault then disk st !! filePath (dataDir st) (wtable w)
       else Some (wtext w)).
Proof.
  intros Hw Hs Htmp. destruct (write_at_inv _ _ _ _ Hw) as (f & Hf & Hwi).
  unfold rename_settled. rewrite Hf. cbn. rewrite Hwi. cbn. rewrite Hs.
  destruct fault; [|rewrite Htmp]; eexists; (split; [reflexivity|]).
  - match goal with |- context [reject ?j ?s] =>
      destruct (reject_fields j s) as (-> & _ & _ & _ & _ & _ & _ & _ & -> & _) end.
    match goal with |- context [set_stage ?j ?i ?s ?x] =>
      destruct (set_stage_fields j i s x) as (-> & _ & _ & _ & _ & _ & _ & _ & -> & _) end.
    rewrite write_at_reject. split; [reflexivity|]. split; [|reflexivity].
    apply write_at_set_stage_eq. exact Hw.
  - match goal with |- context [resolve_if_done ?j ?s] =>
      destruct (resolve_if_done_fields j s) as (-> & _ & _ & _ & _ & _ & -> & _) end.
    match goal with |- context [set_stage ?j ?i ?s ?x] =>
      destruct (set_stage_fields j i s x) as (-> & _ & _ & _ & _ & _ & _ & _ & -> & _) end.
    rewrite write_at_resolve_if_done. cbn. split; [reflexivity|]. split.
    + apply write_at_set_stage_eq. exact Hw.
    + apply lookup_insert_eq.
Qed.

(** ** The properties at work on the sample runs *)

Lemma s2_reachable : reachable s2.
Proof.
  exists "data"%string, h0, ∅, [SaveData "products" 0 1000; SaveData "tags" 1 1001].
  vm_compute. reflexivity.
Defined.

Lemma s2_queue_wf : JsMap.wf (writeQueue s2).
Proof. apply (bool_decide_unpack _). vm_compute. exact I. Defined.

Example eviction_after_51_tables :
  (fun st => JsMap.keys (cache st)) <$> run (writes_after_t0 50) s0 =
  Some (tableName <$> seq 11 40).
Proof. vm_compute. reflexivity. Qed.

Lemma addToCache_eviction_bound_witness :
  JsMap.wf (cache s50) /\
  JsMap.size (cache s50) = 50%nat /\
  JsMap.size (cache (addToCache "orders" 0 1002 s50)) = 40%nat.
Proof.
  assert (Hwf : JsMap.wf (cache s50)).
  { apply (bool_decide_unpack _). vm_compute. exact I. }
  split; [exact Hwf|]. split; [vm_compute; reflexivity|].
  destruct (addToCache_eviction_bound "orders" 0 1002 s50 Hwf)
    as (_ & _ & _ & _ & H & _).
  apply H. vm_compute. lia.
Defined.

Lemma missing_file_is_not_an_error_witness :
  JsMap.get (cache s0) "tags" = None /\
  JsMap.get (pendingReads s0) "tags" = None /\
  exists st1, getData "tags" 5 s0 = (st1, Later 0) /\ disk st1 = disk s0.
Proof.
  assert (Hc : JsMap.get (cache s0) "tags" = None) by reflexivity.
  assert (Hp : JsMap.get (pendingReads s0) "tags" = None) by reflexivity.
  split; [exact Hc|]. split; [exact Hp|].
  destruct (missing_file_is_not_an_error "tags" 5 s0 Hc Hp)
    as (st1 & H1 & H2 & _).
  exists st1. split; assumption.
Defined.

(** * Further properties of the provider *)

(** ** Binary search on any array *)

Lemma binarySearch_loop_inv arr field value findFirst (n : nat) : forall lo hi result,
  Z.to_nat (hi - lo + 1) = n ->
  let s := binarySearch_loop arr field value findFirst lo hi result in
  s = result \/
  (lo <= s <= hi /\
   (if findFirst then js_ge (field_at arr field s) value
    else js_le (field_at arr field s) value) = true).
Proof.
  induction n as [n IH] using lt_wf_ind. intros lo hi result Hn.
  rewrite binarySearch_loop_eq.
  destruct (Z.leb_spec lo hi) as [Hle|Hgt]; cbn zeta; [|left; reflexivity].
  pose proof (mid_bounds lo hi Hle) as Hmid.
  set (mid := (lo + hi) / 2) in *.
  destruct findFirst.
  - destruct (js_ge (field_at arr field mid) value) eqn:Hge.
    + destruct (IH (Z.to_nat (mid - 1 - lo + 1)) ltac:(lia) lo (mid - 1) mid eq_refl)
        as [E|[Hb Ht]].
      * right. cbn zeta in E. rewrite E. split; [lia|exact Hge].
      * right. split; [lia|exact Ht].
    + destruct (IH (Z.to_nat (hi - (mid + 1) + 1)) ltac:(lia) (mid + 1) hi result eq_refl)
        as [E|[Hb Ht]].
      * left. exact E.
      * right. split; [lia|exact Ht].
  - destruct (js_le (field_at arr field mid) value) eqn:Hge.
    + destruct (IH (Z.to_nat (hi - (mid + 1) + 1)) ltac:(lia) (mid + 1) hi mid eq_refl)
        as [E|[Hb Ht]].
      * right. cbn zeta in E. rewrite E. split; [lia|exact Hge].
      * right. split; [lia|exact Ht].
    + destruct (IH (Z.to_nat (mid - 1 - lo + 1)) ltac:(lia) lo (mid - 1) result eq_refl)
        as [E|[Hb Ht]].
      * left. exact E.
      * right. split; [lia|exact Ht].
Qed.

Lemma binarySearch_bounds arr field value :
  let s := binarySearch arr field value true in
  let e := binarySearch arr field value false in
  0 <= s <= Z.of_nat (length arr) /\
  -1 <= e <= Z.of_nat (length arr) - 1 /\
  (s < Z.of_nat (length arr) -> js_ge (field_at arr field s) value = true) /\
  (0 <= e -> js_le (field_at arr field e) value = true).
Proof.
  cbn zeta. unfold binarySearch. cbn zeta.
  pose proof (binarySearch_loop_inv arr field value true _ 0 (Z.of_nat (length arr) - 1)
                (Z.of_nat (length arr)) eq_refl) as Hs.
  pose proof (binarySearch_loop_inv arr field value false _ 0 (Z.of_nat (length arr) - 1)
                (-1) eq_refl) as He.
  cbn zeta in Hs, He.
  set (s := binarySearch_loop arr field value true _ _ _) in *.
  set (e := binarySearch_loop arr field value false _ _ _) in *.
  split; [lia|]. split; [lia|]. split.
  - intros Hlt. destruct Hs as [Hs|[_ Hs]]; [lia|exact Hs].
  - intros Hge. destruct He as [He|[_ He]]; [lia|exact He].
Qed.

(** X1. Sorted or not, [binarySearch] stays within the array: searching for
    the first position it returns an index of the array or its length,
    searching for the last position an index of the array or [-1]; and an
    index it returns is one whose record passed the comparison.  On the empty
    array the answers are [0] and [-1]. *)
Theorem binarySearch_in_bounds arr field value :
  let s := binarySearch arr field value true in
  let e := binarySearch arr field value false in
  0 <= s <= Z.of_nat (length arr) /\
  -1 <= e <= Z.of_nat (length arr) - 1 /\
  (s < Z.of_nat (length arr) -> js_ge (field_at arr field s) value = true) /\
  (0 <= e -> js_le (field_at arr field e) value = true) /\
  (arr = [] -> s = 0 /\ e = -1).
Proof.
  destruct (binarySearch_bounds arr field value) as (Hs & He & Hts & Hte).
  cbn zeta in *.
  split; [exact Hs|]. split; [exact He|]. split; [exact Hts|]. split; [exact Hte|].
  intros Harr. assert (Hlen : Z.of_nat (length arr) = 0) by (rewrite Harr; reflexivity).
  lia.
Qed.

(** ** Range queries with a bound that is [undefined] *)

Lemma js_ge_undefined v : js_ge v None = false.
Proof. destruct v; reflexivity. Qed.

Lemma js_le_undefined v : js_le v None = false.
Proof. destruct v; reflexivity. Qed.

Lemma binarySearch_undefined arr field :
  binarySearch arr field None true = Z.of_nat (length arr) /\
  binarySearch arr field None false = -1.
Proof.
  destruct (binarySearch_bounds arr field None) as (Hs & He & Hts & Hte).
  cbn zeta in *. rewrite js_ge_undefined in Hts. rewrite js_le_undefined in Hte.
  split.
  - destruct (Z_lt_ge_dec (binarySearch arr field None true) (Z.of_nat (length arr)))
      as [Hlt|Hge]; [discriminate (Hts Hlt)|lia].
  - destruct (Z_le_gt_dec 0 (binarySearch arr field None false))
      as [Hle|Hgt]; [discriminate (Hte Hle)|lia].
Qed.

Lemma js_slice_nothing {A} (l : list A) (start end_ : Z) :
  0 <= start -> 0 <= end_ -> (end_ <= start \/ Z.of_nat (length l) <= start) ->
  js_slice l start end_ = [].
Proof.
  intros Hs He Hor. unfold js_slice.
  destruct (Z.ltb_spec start 0); [lia|]. destruct (Z.ltb_spec end_ 0); [lia|].
  replace (Z.to_nat (Z.min end_ (Z.of_nat (length l)) - Z.min start (Z.of_nat (length l))))
    with 0%nat by lia.
  reflexivity.
Qed.

Lemma filter_nothing {A} (P : A -> bool) (l : list A) :
  (forall x, P x = false) -> List.filter P l = [].
Proof.
  intros H. induction l as [|x l IH]; [reflexivity|]. cbn. rewrite H. exact IH.
Qed.

(** X2. A range query with a bound that is [undefined] finds nothing, with
    an index file or without one and whatever they hold: a missing bound is
    not an open end of the range. *)
Theorem queryRange_undefined_bound dataDir data table field min max disk :
  min = None \/ max = None ->
  queryRange dataDir data table field min max disk = [].
Proof.
  intros Hb. unfold queryRange.
  destruct (disk !! indexPath dataDir table field ≫= JSON_parse) as [sorted|].
  - cbn zeta.
    destruct (binarySearch_bounds sorted field min) as (Hs & _).
    destruct (binarySearch_bounds sorted field max) as (_ & He & _).
    cbn zeta in *.
    destruct Hb as [->| ->].
    + destruct (binarySearch_undefined sorted field) as [E _]. rewrite E.
      apply js_slice_nothing; lia.
    + destruct (binarySearch_undefined sorted field) as [_ E]. rewrite E.
      apply js_slice_nothing; lia.
  - apply filter_nothing. intros r. unfold inRange.
    destruct Hb as [->| ->].
    + rewrite js_ge_undefined. reflexivity.
    + rewrite js_le_undefined. apply andb_false_r.
Qed.

Lemma queryRange_undefined_bound_witness :
  (@None Z = None \/ Some 100 = None) /\
  queryRange "data" [r1; r2] "products" "price" None (Some 100)
    (createIndex "data" [r1; r2] "products" "price" ∅) = [].
Proof.
  assert (H : @None Z = None \/ Some 100 = None) by (left; reflexivity).
  split; [exact H|].
  apply (queryRange_undefined_bound "data" [r1; r2] "products" "price" None (Some 100) _ H).
Defined.

(** ** The index file *)

Lemma same_field_sorted field (v : jsval) (l : list record) :
  Forall (fun r => r !! field = v) l ->
  StronglySorted (precedes (compareByField field)) l.
Proof.
  induction 1 as [|x l Hx Hl IH]; constructor; [exact IH|].
  eapply Forall_impl; [exact Hl|]. intros y Hy. unfold precedes, compareByField.
  rewrite Hx, Hy. destruct v as [z|]; cbn; [|lia].
  rewrite Z.ltb_irrefl. destruct (Z.gtb_spec z z); lia.
Qed.

(** X3. [createIndex] writes, under the index path and nowhere else, the
    records of the table in ascending order of the field: a permutation of
    the table, in which the records with equal field values keep the order
    they have in the table. *)
Theorem createIndex_sorted_copy dataDir data table field disk :
  Forall (fun r : record => is_Some (r !! field)) data ->
  let disk' := createIndex dataDir data table field disk in
  exists sorted,
    disk' !! indexPath dataDir table field ≫= JSON_parse = Some sorted /\
    sorted ≡ₚ data /\
    sorted_by field sorted /\
    (forall v : jsval,
       List.filter (fun r => bool_decide (r !! field = v)) sorted =
       List.filter (fun r => bool_decide (r !! field = v)) data) /\
    (forall path, path <> indexPath dataDir table field ->
       disk' !! path = disk !! path).
Proof.
  intros Dl disk'. exists (js_sort (compareByField field) data).
  split; [unfold disk', createIndex; rewrite lookup_insert_eq; reflexivity|].
  split; [apply js_sort_perm|]. split; [apply js_sort_sorted_by, Dl|]. split.
  - intros v.
    rewrite (filter_js_sort _ _ (compareByField_trans field)
               (compareByField_total field)) by exact Dl.
    apply js_sort_id, (same_field_sorted field v).
    apply Forall_forall. intros r Hr. apply list_elem_of_In, filter_In in Hr as [_ Hr].
    apply bool_decide_eq_true in Hr. exact Hr.
  - intros path Hne. unfold disk', createIndex.
    apply lookup_insert_ne. intros E. apply Hne. symmetry. exact E.
Qed.

Lemma createIndex_sorted_copy_witness :
  Forall (fun r : record => is_Some (r !! "price"%string)) [r1; r2; r3] /\
  exists sorted,
    createIndex "data" [r1; r2; r3] "products" "price" ∅
      !! indexPath "data" "products" "price" ≫= JSON_parse = Some sorted /\
    sorted ≡ₚ [r1; r2; r3].
Proof.
  assert (H : Forall (fun r : record => is_Some (r !! "price"%string)) [r1; r2; r3]).
  { repeat constructor; vm_compute; eauto. }
  split; [exact H|].
  destruct (createIndex_sorted_copy "data" [r1; r2; r3] "products" "price" ∅ H)
    as (sorted & H1 & H2 & _).
  exists sorted. split; assumption.
Defined.

(** ** The files the provider touches *)

Lemma indexPath_foreign dir table field : foreign_path dir (indexPath dir table field).
Proof.
  intros t. unfold indexPath, tempPath, filePath, path_join.
  split; intros H; apply (f_equal String.list_ascii_of_string) in H;
    rewrite !list_ascii_of_string_app in H;
    change (String.list_ascii_of_string ".idx")
      with (String.list_ascii_of_string ".id" ++ ["x"%char])%list in H;
    change (String.list_ascii_of_string ".json")
      with (String.list_ascii_of_string ".jso" ++ ["n"%char])%list in H;
    change (String.list_ascii_of_string ".tmp")
      with (String.list_ascii_of_string ".tm" ++ ["p"%char])%list in H;
    rewrite !app_assoc in H; apply app_inj_tail in H as [_ H]; discriminate H.
Qed.

Lemma step_dataDir ev st st' : step ev st = Some st' -> dataDir st' = dataDir st.
Proof.
  destruct ev; cbn [step]; intros H.
  - injection H as <-. unfold saveData. break_match; reflexivity.
  - injection H as <-. unfold getData. repeat break_match; reflexivity.
  - unfold load_settled in H.
    destruct (loads st !! p) as [[table [s|]]|]; try discriminate.
    destruct (loadFromDisk table fault st) as [d|e].
    + cbn zeta in H. injection H as <-.
      match goal with |- context [if ?c then _ else _] => destruct c end; reflexivity.
    + injection H as <-. reflexivity.
  - destruct (writeTimer st); [|discriminate]. injection H as <-.
    unfold flushWrites.
    match goal with |- context [resolve_if_done ?j ?s] =>
      destruct (resolve_if_done_fields j s) as (Hd & _) end.
    rewrite Hd. reflexivity.
  - unfold writeFile_settled in H.
    destruct (flushes st !! j) as [f|]; [|discriminate]. cbn in H.
    destruct (writes f !! i) as [w|]; [|discriminate]. cbn in H.
    destruct (wstage w); try discriminate.
    destruct fault as [torn|]; injection H as <-.
    + match goal with |- context [reject ?j ?s] =>
        destruct (reject_fields j s) as (Hd & _) end.
      match type of Hd with context [set_stage ?j ?i ?s ?x] =>
        destruct (set_stage_fields j i s x) as (Hd' & _) end.
      rewrite Hd, Hd'. reflexivity.
    + match goal with |- context [set_stage ?j ?i ?s ?x] =>
        destruct (set_stage_fields j i s x) as (Hd' & _) end.
      rewrite Hd'. reflexivity.
  - unfold rename_settled in H.
    destruct (flushes st !! j) as [f|]; [|discriminate]. cbn in H.
    destruct (writes f !! i) as [w|]; [|discriminate]. cbn in H.
    destruct (wstage w); try discriminate.
    match type of H with context [match ?x with _ => _ end] => destruct x end;
      injection H as <-.
    + match goal with |- context [resolve_if_done ?j ?s] =>
        destruct (resolve_if_done_fields j s) as (Hd & _) end.
      match type of Hd with context [set_stage ?j ?i ?s ?x] =>
        destruct (set_stage_fields j i s x) as (Hd' & _) end.
      rewrite Hd, Hd'. reflexivity.
    + match goal with |- context [reject ?j ?s] =>
        destruct (reject_fields j s) as (Hd & _) end.
      match type of Hd with context [set_stage ?j ?i ?s ?x] =>
        destruct (set_stage_fields j i s x) as (Hd' & _) end.
      rewrite Hd, Hd'. reflexivity.
  - injection H as <-. unfold close. destruct (writeTimer st); [|reflexivity].
    unfold flushWrites.
    match goal with |- context [resolve_if_done ?j ?s] =>
      destruct (resolve_if_done_fields j s) as (Hd & _) end.
    rewrite Hd. reflexivity.
  - injection H as <-. reflexivity.
  - injection H as <-. reflexivity.
Qed.

Lemma step_disk_effect ev st st' :
  step ev st = Some st' -> disk_effect (dataDir st) (disk st) (disk st').
Proof.
  destruct ev; cbn [step]; intros H.
  - injection H as <-. apply de_none. unfold saveData. break_match; reflexivity.
  - injection H as <-. apply de_none. unfold getData. repeat break_match; reflexivity.
  - unfold load_settled in H.
    destruct (loads st !! p) as [[table [s|]]|]; try discriminate.
    destruct (loadFromDisk table fault st) as [d|e].
    + cbn zeta in H. injection H as <-. apply de_none.
      match goal with |- context [if ?c then _ else _] => destruct c end; reflexivity.
    + injection H as <-. apply de_none. reflexivity.
  - destruct (writeTimer st); [|discriminate]. injection H as <-.
    apply de_none, flushWrites_disk.
  - unfold writeFile_settled in H.
    destruct (flushes st !! j) as [f|]; [|discriminate]. cbn in H.
    destruct (writes f !! i) as [w|]; [|discriminate]. cbn in H.
    destruct (wstage w); try discriminate.
    destruct fault as [torn|]; injection H as <-.
    + match goal with |- context [reject ?j ?s] =>
        destruct (reject_fields j s) as (_ & _ & _ & _ & _ & _ & _ & _ & Hd & _) end.
      match type of Hd with context [set_stage ?j ?i ?s ?x] =>
        destruct (set_stage_fields j i s x) as (_ & _ & _ & _ & _ & _ & _ & _ & Hd' & _) end.
      rewrite Hd, Hd'. cbn. destruct torn.
      * eapply de_write. reflexivity.
      * apply de_none. reflexivity.
    + match goal with |- context [set_stage ?j ?i ?s ?x] =>
        destruct (set_stage_fields j i s x) as (_ & _ & _ & _ & _ & _ & _ & _ & Hd' & _) end.
      rewrite Hd'. cbn. eapply de_write. reflexivity.
  - unfold rename_settled in H.
    destruct (flushes st !! j) as [f|]; [|discriminate]. cbn in H.
    destruct (writes f !! i) as [w|]; [|discriminate]. cbn in H.
    destruct (wstage w); try discriminate.
    destruct fault.
    + injection H as <-.
      match goal with |- context [reject ?j ?s] =>
        destruct (reject_fields j s) as (_ & _ & _ & _ & _ & _ & _ & _ & Hd & _) end.
      match type of Hd with context [set_stage ?j ?i ?s ?x] =>
        destruct (set_stage_fields j i s x) as (_ & _ & _ & _ & _ & _ & _ & _ & Hd' & _) end.
      rewrite Hd, Hd'. apply de_none. reflexivity.
    + destruct (disk st !! tempPath (dataDir st) (wtable w)) as [text|] eqn:Et;
        injection H as <-.
      * match goal with |- context [resolve_if_done ?j ?s] =>
          destruct (resolve_if_done_fields j s) as (_ & _ & _ & _ & _ & _ & Hd & _) end.
        match type of Hd with context [set_stage ?j ?i ?s ?x] =>
          destruct (set_stage_fields j i s x) as (_ & _ & _ & _ & _ & _ & _ & _ & Hd' & _) end.
        rewrite Hd, Hd'. cbn. eapply de_rename; [exact Et|reflexivity].
      * match goal with |- context [reject ?j ?s] =>
          destruct (reject_fields j s) as (_ & _ & _ & _ & _ & _ & _ & _ & Hd & _) end.
        match type of Hd with context [set_stage ?j ?i ?s ?x] =>
          destruct (set_stage_fields j i s x) as (_ & _ & _ & _ & _ & _ & _ & _ & Hd' & _) end.
        rewrite Hd, Hd'. apply de_none. reflexivity.
  - injection H as <-. apply de_none. unfold close.
    destruct (writeTimer st); [apply flushWrites_disk|reflexivity].
  - injection H as <-. apply de_none. reflexivity.
  - injection H as <-. apply de_none. reflexivity.
Qed.

Lemma disk_effect_foreign dir d d' path :
  disk_effect dir d d' -> foreign_path dir path -> d' !! path = d !! path.
Proof.
  intros [->| t c -> | t c _ ->] Hf; [reflexivity| |]; destruct (Hf t) as [Hfile Htmp].
  - apply lookup_insert_ne. intros E. apply Htmp. symmetry. exact E.
  - rewrite lookup_insert_ne by (intros E; apply Hfile; symmetry; exact E).
    apply lookup_delete_ne. intros E. apply Htmp. symmetry. exact E.
Qed.

Lemma run_dataDir evs : forall st st', run evs st = Some st' -> dataDir st' = dataDir st.
Proof.
  induction evs as [|ev evs IH]; intros st st' H; cbn in H.
  - injection H as <-. reflexivity.
  - destruct (step ev st) as [st1|] eqn:Hs; [|discriminate]. cbn in H.
    rewrite (IH _ _ H). apply (step_dataDir _ _ _ Hs).
Qed.

Lemma run_disk_foreign evs path : forall st st',
  run evs st = Some st' -> foreign_path (dataDir st) path ->
  disk st' !! path = disk st !! path.
Proof.
  induction evs as [|ev evs IH]; intros st st' H Hf; cbn in H.
  - injection H as <-. reflexivity.
  - destruct (step ev st) as [st1|] eqn:Hs; [|discriminate]. cbn in H.
    rewrite (IH _ _ H) by (rewrite (step_dataDir _ _ _ Hs); exact Hf).
    apply (disk_effect_foreign _ _ _ _ (step_disk_effect _ _ _ Hs) Hf).
Qed.

(** X4. Reads, writes, flushes and [close], in whatever order, write
    table files and their temporary siblings and nothing else.  So none of
    them refreshes or removes an index file: once it is there, a range query
    keeps answering from it, whatever is saved to the table afterwards. *)
Theorem index_files_left_alone evs st st' :
  run evs st = Some st' ->
  (forall path, foreign_path (dataDir st) path -> disk st' !! path = disk st !! path) /\
  (forall table field,
     disk st' !! indexPath (dataDir st') table field =
     disk st !! indexPath (dataDir st) table field) /\
  (forall table field min max data data',
     is_Some (disk st !! indexPath (dataDir st) table field ≫= JSON_parse) ->
     queryRange (dataDir st') data' table field min max (disk st') =
     queryRange (dataDir st) data table field min max (disk st)).
Proof.
  intros Hrun.
  assert (Hidx : forall table field,
            disk st' !! indexPath (dataDir st') table field =
            disk st !! indexPath (dataDir st) table field).
  { intros table field. rewrite (run_dataDir _ _ _ Hrun).
    apply (run_disk_foreign _ _ _ _ Hrun), indexPath_foreign. }
  split; [intros path; apply (run_disk_foreign _ _ _ _ Hrun)|]. split; [exact Hidx|].
  intros table field min max data data' [sorted Hs]. unfold queryRange.
  rewrite Hidx, Hs. reflexivity.
Qed.

(** ** One turn of the flusher *)

Lemma lookup_insert_same {A} (l : list A) (j : nat) x y :
  l !! j = Some x -> <[j := y]> l !! j = Some y.
Proof. intros H. apply list_lookup_insert_eq, (lookup_lt_Some _ _ _ H). Qed.

(** What the settling of a file operation of flush [j] does to the state. *)
Lemma flusher_step ev j st st' :
  own j ev -> step ev st = Some st' ->
  exists f i w s d' f',
    flushes st !! j = Some f /\ writes f !! i = Some w /\
    writes f' = <[i := restage w s]> (writes f) /\ closing f' = closing f /\
    disk_effect (dataDir st) (disk st) d' /\
    (s = Persisted -> is_Some (d' !! filePath (dataDir st) (wtable w))) /\
    (st' = with_flushes (<[j := f']> (flushes st)) (with_disk d' st) \/
     (forallb persisted (writes f') = true /\
      st' = after_flush f' (with_flushes (<[j := f']> (flushes st)) (with_disk d' st)))).
Proof.
  destruct ev; cbn [own step]; intros Hown H; try contradiction; subst j0.
  - unfold writeFile_settled in H.
    destruct (flushes st !! j) as [f|] eqn:Hf; [|discriminate]. cbn in H.
    destruct (writes f !! i) as [w|] eqn:Hw; [|discriminate]. cbn in H.
    destruct (wstage w); try discriminate.
    destruct fault as [torn|]; injection H as <-.
    + set (d := if torn then <[tempPath (dataDir st) (wtable w) := truncated (wtext w)]> (disk st)
                else disk st).
      set (f1 := with_writes f (<[i := restage w Failed]> (writes f))).
      rewrite (set_stage_eq j i Failed (with_disk d st) f w Hf Hw). fold f1.
      erewrite reject_eq by (cbn; apply (lookup_insert_same _ _ _ _ Hf)).
      exists f, i, w, Failed, d.
      exists (match status f with Pending => with_status f1 Aborted | _ => f1 end).
      split; [first [reflexivity|exact Hf]|]. split; [first [reflexivity|exact Hw]|].
      split; [destruct (status f); reflexivity|].
      split; [destruct (status f); reflexivity|]. split.
      { unfold d. destruct torn; [eapply de_write; reflexivity|apply de_none; reflexivity]. }
      split; [discriminate|]. left.
      change (status f1) with (status f).
      destruct (status f); cbn; rewrite ?list_insert_insert_eq; reflexivity.
    + set (d := <[tempPath (dataDir st) (wtable w) := wtext w]> (disk st)).
      rewrite (set_stage_eq j i Renaming (with_disk d st) f w Hf Hw).
      exists f, i, w, Renaming, d, (with_writes f (<[i := restage w Renaming]> (writes f))).
      split; [first [reflexivity|exact Hf]|]. split; [first [reflexivity|exact Hw]|]. split; [reflexivity|].
      split; [reflexivity|]. split; [eapply de_write; reflexivity|].
      split; [discriminate|]. left. reflexivity.
  - unfold rename_settled in H.
    destruct (flushes st !! j) as [f|] eqn:Hf; [|discriminate]. cbn in H.
    destruct (writes f !! i) as [w|] eqn:Hw; [|discriminate]. cbn in H.
    destruct (wstage w); try discriminate.
    destruct (if fault then None else disk st !! tempPath (dataDir st) (wtable w))
      as [text|] eqn:Et; injection H as <-.
    + destruct fault; [discriminate|].
      set (d := <[filePath (dataDir st) (wtable w) := text]>
                  (delete (tempPath (dataDir st) (wtable w)) (disk st))).
      set (f1 := with_writes f (<[i := restage w Persisted]> (writes f))).
      rewrite (set_stage_eq j i Persisted (with_disk d st) f w Hf Hw). fold f1.
      erewrite resolve_if_done_eq by (cbn; apply (lookup_insert_same _ _ _ _ Hf)).
      change (status f1) with (status f).
      assert (Hde : disk_effect (dataDir st) (disk st) d)
        by (eapply de_rename; [exact Et|reflexivity]).
      assert (Hfile : is_Some (d !! filePath (dataDir st) (wtable w)))
        by (unfold d; rewrite lookup_insert_eq; eauto).
      destruct (status f) eqn:Es.
      * destruct (forallb persisted (writes f1)) eqn:Hall.
        -- exists f, i, w, Persisted, d, (with_status f1 Resolved).
           repeat (split; [first [reflexivity|assumption|intros _; exact Hfile]|]).
           right. split; [exact Hall|]. cbn. rewrite list_insert_insert_eq. reflexivity.
        -- exists f, i, w, Persisted, d, f1.
           repeat (split; [first [reflexivity|assumption|intros _; exact Hfile]|]).
           left. reflexivity.
      * exists f, i, w, Persisted, d, f1.
        repeat (split; [first [reflexivity|assumption|intros _; exact Hfile]|]).
        left. reflexivity.
      * exists f, i, w, Persisted, d, f1.
        repeat (split; [first [reflexivity|assumption|intros _; exact Hfile]|]).
        left. reflexivity.
    + set (f1 := with_writes f (<[i := restage w Failed]> (writes f))).
      rewrite (set_stage_eq j i Failed st f w Hf Hw). fold f1.
      erewrite reject_eq by (cbn; apply (lookup_insert_same _ _ _ _ Hf)).
      exists f, i, w, Failed, (disk st).
      exists (match status f with Pending => with_status f1 Aborted | _ => f1 end).
      split; [first [reflexivity|exact Hf]|]. split; [first [reflexivity|exact Hw]|].
      split; [destruct (status f); reflexivity|].
      split; [destruct (status f); reflexivity|].
      split; [apply de_none; reflexivity|].
      split; [discriminate|]. left.
      change (status f1) with (status f).
      destruct (status f); cbn; rewrite ?list_insert_insert_eq; destruct st; reflexivity.
Qed.

(** ** The loads in flight *)

Lemma flushWrites_reads c st :
  loads (flushWrites c st) = loads st /\
  (pendingReads (flushWrites c st) = pendingReads st \/
   (pendingReads (flushWrites c st) = [] /\ c = true)).
Proof.
  unfold flushWrites, resolve_if_done. cbn.
  rewrite lookup_app_r by lia. rewrite Nat.sub_diag. cbn.
  destruct (forallb persisted _); [|auto].
  unfold after_flush. cbn. destruct c; cbn; auto.
Qed.

Lemma step_reads ev st st' :
  step ev st = Some st' ->
  (loads st' = loads st /\
   (pendingReads st' = pendingReads st \/
    (pendingReads st' = [] /\
     (is_Close ev = true \/ Exists (fun f => closing f = true) (flushes st))))) \/
  (exists t now, ev = GetData t now /\
     JsMap.get (pendingReads st) t = None /\
     loads st' = loads st ++ [{| ltable := t; lstate := None |}] /\
     pendingReads st' = JsMap.set (pendingReads st) t (length (loads st))) \/
  (exists p fault now t s, ev = LoadSettled p fault now /\
     loads st !! p = Some {| ltable := t; lstate := None |} /\
     loads st' = <[p := {| ltable := t; lstate := Some s |}]> (loads st) /\
     pendingReads st' = JsMap.delete (pendingReads st) t).
Proof.
  intros H.
  assert (Hfl : forall j, own j ev ->
            loads st' = loads st /\
            (pendingReads st' = pendingReads st \/
             (pendingReads st' = [] /\
              (is_Close ev = true \/ Exists (fun f => closing f = true) (flushes st))))).
  { intros j Hown. destruct (flusher_step ev j st st' Hown H)
      as (f & i & w & s & d' & f' & Hf & Hw & Hws & Hc & _ & _ & [->|[_ ->]]).
    - cbn. auto.
    - unfold after_flush. rewrite Hc. destruct (closing f) eqn:Ec; cbn; [|auto].
      split; [reflexivity|]. right. split; [reflexivity|]. right.
      apply Exists_exists. exists f. split; [|exact Ec].
      apply (list_elem_of_lookup_2 _ _ _ Hf). }
  destruct ev; cbn [step] in H;
    [clear Hfl|clear Hfl|clear Hfl|clear Hfl
    |left; apply (Hfl j); reflexivity|left; apply (Hfl j); reflexivity
    |clear Hfl|clear Hfl|clear Hfl].
  - left. injection H as <-. unfold saveData. break_match; cbn; auto.
  - injection H as <-. unfold getData.
    destruct (JsMap.get (cache st) table) as [cached|]; [left; cbn; auto|].
    destruct (JsMap.get (pendingReads st) table) as [pending|] eqn:Hp; [left; cbn; auto|].
    right. left. exists table, now. cbn. auto.
  - right. right. unfold load_settled in H.
    destruct (loads st !! p) as [[table [s|]]|] eqn:Hl; try discriminate.
    destruct (loadFromDisk table fault st) as [d|e].
    + cbn zeta in H. injection H as <-.
      exists p, fault, now, table, (Fulfilled (next_array (mem st))).
      split; [reflexivity|]. split; [first [reflexivity|exact Hl]|].
      match goal with |- context [if ?c then _ else _] => destruct c end; cbn; auto.
    + injection H as <-. exists p, fault, now, table, (Rejected e). cbn. auto.
  - left. destruct (writeTimer st); [|discriminate]. injection H as <-.
    destruct (flushWrites_reads false st) as [Hl [Hp|[_ Hc]]]; [auto|discriminate].
  - left. injection H as <-. unfold close. destruct (writeTimer st).
    + destruct (flushWrites_reads true st) as [Hl [Hp|[Hp _]]]; [auto|].
      split; [exact Hl|]. right. split; [exact Hp|]. left. reflexivity.
    + cbn. split; [reflexivity|]. right. split; [reflexivity|]. left. reflexivity.
  - left. injection H as <-. cbn. auto.
  - left. injection H as <-. cbn. auto.
Qed.

Lemma get_Some_elem {V} (m : list (string * V)) k v :
  JsMap.get m k = Some v -> (k, v) ∈ m.
Proof.
  induction m as [|[k' v'] m IH]; cbn; [discriminate|].
  destruct (decide (k' = k)) as [->|Hne]; intros H.
  - injection H as ->. left.
  - right. apply IH, H.
Qed.

Lemma elem_get_Some {V} (m : list (string * V)) k v :
  JsMap.wf m -> (k, v) ∈ m -> JsMap.get m k = Some v.
Proof.
  unfold JsMap.wf, JsMap.keys. induction m as [|[k' v'] m IH]; intros Hwf Hin.
  - apply elem_of_nil in Hin. contradiction.
  - rewrite fmap_cons, NoDup_cons in Hwf. destruct Hwf as [Hnin Hwf]. cbn.
    apply elem_of_cons in Hin as [Heq|Hin].
    + injection Heq as -> ->. rewrite decide_True by reflexivity. reflexivity.
    + destruct (decide (k' = k)) as [->|Hne]; [|apply IH; assumption].
      exfalso. apply Hnin. apply (list_elem_of_fmap_2 fst _ _ Hin).
Qed.

Lemma wf_delete {V} (m : list (string * V)) k : JsMap.wf m -> JsMap.wf (JsMap.delete m k).
Proof.
  unfold JsMap.wf, JsMap.keys, JsMap.delete. intros H.
  apply (sublist_NoDup _ _ H). apply fmap_sublist, sublist_filter.
Qed.

Lemma elem_of_delete {V} (m : list (string * V)) k p :
  p ∈ JsMap.delete m k -> p ∈ m /\ p.1 <> k.
Proof. unfold JsMap.delete. rewrite list_elem_of_filter. tauto. Qed.

Lemma get_delete_ne {V} (m : list (string * V)) k k' :
  k <> k' -> JsMap.get (JsMap.delete m k) k' = JsMap.get m k'.
Proof.
  intros Hne. unfold JsMap.delete. induction m as [|[k0 v0] m IH]; [reflexivity|].
  rewrite filter_cons. cbn. destruct (decide (k0 <> k)) as [Hk|Hk]; cbn.
  - rewrite IH. reflexivity.
  - destruct (decide (k0 = k')) as [->|_]; [|exact IH].
    exfalso. apply Hk. intros E. apply Hne. symmetry. exact E.
Qed.

Lemma pending_in_flight_step ev st st' :
  pending_in_flight st -> step ev st = Some st' -> pending_in_flight st'.
Proof.
  intros [Hwf Hp] H.
  destruct (step_reads ev st st' H)
    as [[Hl [Hs|[Hs _]]]|[(t & now & _ & Hnone & Hl & Hs)|(p & fault & now & t & s & _ & Hlp & Hl & Hs)]];
    unfold pending_in_flight; rewrite Hs.
  - split; [exact Hwf|]. rewrite Hl. exact Hp.
  - split; [apply NoDup_nil_2|]. intros t p Hin. apply elem_of_nil in Hin. contradiction.
  - split; [apply wf_set, Hwf|]. intros t' p' Hin. rewrite Hl.
    rewrite (keys_set_new _ _ _ Hnone) in Hin. apply elem_of_app in Hin as [Hin|Hin].
    + apply lookup_app_l_Some, Hp, Hin.
    + apply list_elem_of_singleton in Hin. injection Hin as -> ->.
      rewrite lookup_app_r by lia. rewrite Nat.sub_diag. reflexivity.
  - split; [apply wf_delete, Hwf|]. intros t' p' Hin. rewrite Hl.
    apply elem_of_delete in Hin as [Hin Hne]. cbn in Hne.
    pose proof (Hp t' p' Hin) as Hl'.
    rewrite list_lookup_insert_ne; [exact Hl'|].
    intros ->. rewrite Hlp in Hl'. injection Hl' as E. apply Hne. symmetry. exact E.
Qed.

Lemma pending_in_flight_run evs : forall st st',
  pending_in_flight st -> run evs st = Some st' -> pending_in_flight st'.
Proof.
  induction evs as [|ev evs IH]; intros st st' Hinv H; cbn in H.
  - injection H as <-. exact Hinv.
  - destruct (step ev st) as [st1|] eqn:Hs; [|discriminate]. cbn in H.
    apply (IH st1 st'); [|exact H]. apply (pending_in_flight_step ev st st1 Hinv Hs).
Qed.

Lemma pending_in_flight_connected dir h d : pending_in_flight (connected dir h d).
Proof.
  split; [apply NoDup_nil_2|]. intros t p Hin. apply elem_of_nil in Hin. contradiction.
Qed.

(** X5. In every state a connected provider goes through, a read
    registered as pending is a load of that table which has not settled.  So
    a [getData] that leaves its caller waiting has it wait for a load in
    flight, one that can settle, with a result or with an error. *)
Theorem waiting_reads_are_in_flight st table now :
  reachable st ->
  pending_in_flight st /\
  forall p, (getData table now st).2 = Later p ->
    loads (getData table now st).1 !! p = Some {| ltable := table; lstate := None |} /\
    forall fault now', is_Some (load_settled p fault now' (getData table now st).1).
Proof.
  intros (dir & h & d & evs & Hrun).
  assert (Hinv : pending_in_flight st)
    by (apply (pending_in_flight_run evs _ _ (pending_in_flight_connected dir h d) Hrun)).
  split; [exact Hinv|]. intros p Hans.
  assert (Hl : loads (getData table now st).1 !! p =
               Some {| ltable := table; lstate := None |}).
  { revert Hans. unfold getData.
    destruct (JsMap.get (cache st) table) as [cached|]; [discriminate|].
    destruct (JsMap.get (pendingReads st) table) as [pending|] eqn:Hp; cbn.
    - intros E. injection E as <-. apply (proj2 Hinv), get_Some_elem, Hp.
    - intros E. injection E as <-. rewrite lookup_app_r by lia.
      rewrite Nat.sub_diag. reflexivity. }
  split; [exact Hl|]. intros fault now'.
  destruct (load_settled_outcome p table fault now' _ Hl) as (st' & Hs & _).
  rewrite Hs. eauto.
Qed.

(** ** The flushes a state holds *)

Lemma flushWrites_flushes c st :
  exists f0,
    closing f0 = c /\
    writes f0 = (fun '(t, a) => writeToDisk t a st) <$> writeQueue st /\
    flushes (flushWrites c st) = flushes st ++ [f0].
Proof.
  unfold flushWrites, resolve_if_done. cbn.
  rewrite lookup_app_r by lia. rewrite Nat.sub_diag. cbn.
  set (ws := (fun '(table, data) => writeToDisk table data _) <$> _).
  assert (Hws : ws = (fun '(t, a) => writeToDisk t a st) <$> writeQueue st).
  { unfold ws, JsMap.entries. apply list_fmap_ext. intros i [t a] _. reflexivity. }
  destruct (forallb persisted ws).
  - exists {| writes := ws; status := Resolved; closing := c |}.
    split; [reflexivity|]. split; [exact Hws|].
    unfold after_flush. cbn.
    assert (E : <[length (flushes st) :=
                   with_status {| writes := ws; status := Pending; closing := c |} Resolved]>
                  (flushes st ++ [{| writes := ws; status := Pending; closing := c |}]) =
                flushes st ++ [{| writes := ws; status := Resolved; closing := c |}]).
    { rewrite insert_app_r_alt by lia. rewrite Nat.sub_diag. reflexivity. }
    destruct c; cbn; exact E.
  - exists {| writes := ws; status := Pending; closing := c |}.
    split; [reflexivity|]. split; [exact Hws|]. reflexivity.
Qed.

Lemma step_flushes ev st st' :
  step ev st = Some st' ->
  flushes st' = flushes st \/
  (exists f0,
     (ev = TimerFired \/ ev = Close) /\ writeTimer st = true /\
     closing f0 = is_Close ev /\
     writes f0 = (fun '(t, a) => writeToDisk t a st) <$> writeQueue st /\
     flushes st' = flushes st ++ [f0]) \/
  (exists j f i w s f',
     own j ev /\ flushes st !! j = Some f /\ writes f !! i = Some w /\
     writes f' = <[i := restage w s]> (writes f) /\ closing f' = closing f /\
     flushes st' = <[j := f']> (flushes st)).
Proof.
  intros H.
  assert (Hfl : forall j, own j ev ->
            exists j f i w s f',
              own j ev /\ flushes st !! j = Some f /\ writes f !! i = Some w /\
              writes f' = <[i := restage w s]> (writes f) /\ closing f' = closing f /\
              flushes st' = <[j := f']> (flushes st)).
  { intros j Hown. destruct (flusher_step ev j st st' Hown H)
      as (f & i & w & s & d' & f' & Hf & Hw & Hws & Hc & _ & _ & Hst).
    exists j, f, i, w, s, f'. repeat (split; [assumption|]).
    destruct Hst as [->|[_ ->]]; [reflexivity|].
    unfold after_flush. destruct (closing f'); reflexivity. }
  destruct ev; cbn [step] in H;
    [clear Hfl|clear Hfl|clear Hfl|clear Hfl
    |right; right; apply (Hfl j); reflexivity|right; right; apply (Hfl j); reflexivity
    |clear Hfl|clear Hfl|clear Hfl].
  - left. injection H as <-. apply flushes_saveData.
  - left. injection H as <-. unfold getData. repeat break_match; reflexivity.
  - left. unfold load_settled in H.
    destruct (loads st !! p) as [[table [s|]]|]; try discriminate.
    destruct (loadFromDisk table fault st) as [d|e].
    + cbn zeta in H. injection H as <-.
      match goal with |- context [if ?c then _ else _] => destruct c end; reflexivity.
    + injection H as <-. reflexivity.
  - right. left. destruct (writeTimer st) eqn:Ht; [|discriminate]. injection H as <-.
    destruct (flushWrites_flushes false st) as (f0 & H1 & H2 & H3).
    exists f0. auto.
  - injection H as <-. unfold close. destruct (writeTimer st) eqn:Ht.
    + right. left. destruct (flushWrites_flushes true st) as (f0 & H1 & H2 & H3).
      exists f0. auto.
    + left. reflexivity.
  - left. injection H as <-. reflexivity.
  - left. injection H as <-. reflexivity.
Qed.

(** ** One load in flight for a table *)

Lemma registered_step ev st st' :
  is_Close ev = false -> pending_in_flight st -> registered st ->
  step ev st = Some st' -> registered st'.
Proof.
  intros Hnc [Hwf Hp] [Hreg Hcl] H. split.
  - destruct (step_reads ev st st' H)
      as [[Hl [Hs|[_ [Hc|Hex]]]]|[(t & now & _ & Hnone & Hl & Hs)|(p & fault & now & t & s & _ & Hlp & Hl & Hs)]].
    + rewrite Hl, Hs. exact Hreg.
    + congruence.
    + exfalso. apply Exists_exists in Hex as (f & Hin & Hc).
      rewrite Forall_forall in Hcl. rewrite (Hcl f Hin) in Hc. discriminate.
    + rewrite Hl, Hs. intros p t' Hl'.
      destruct (decide (p < length (loads st))%nat) as [Hlt|Hge].
      * rewrite lookup_app_l in Hl' by exact Hlt. pose proof (Hreg p t' Hl') as Hg.
        rewrite get_set_ne; [exact Hg|]. intros ->. congruence.
      * pose proof (lookup_lt_Some _ _ _ Hl') as Hlen. rewrite length_app in Hlen.
        cbn in Hlen. assert (p = length (loads st)) as -> by lia.
        rewrite lookup_app_r, Nat.sub_diag in Hl' by lia. injection Hl' as ->.
        apply get_set_eq.
    + rewrite Hl, Hs. intros q t' Hl'.
      destruct (decide (q = p)) as [->|Hne].
      { rewrite (lookup_insert_same _ _ _ _ Hlp) in Hl'. discriminate. }
      rewrite list_lookup_insert_ne in Hl' by (intros E; apply Hne; symmetry; exact E).
      pose proof (Hreg q t' Hl') as Hg.
      rewrite get_delete_ne; [exact Hg|].
      intros ->. rewrite (Hreg p t' Hlp) in Hg. injection Hg as E. apply Hne.
      symmetry. exact E.
  - destruct (step_flushes ev st st' H)
      as [->|[(f0 & Hev & _ & Hc & _ & ->)|(j & f & i & w & s & f' & _ & Hf & _ & _ & Hc & ->)]].
    + exact Hcl.
    + apply Forall_app. split; [exact Hcl|]. constructor; [|constructor]. congruence.
    + apply Forall_insert; [exact Hcl|]. rewrite Hc.
      rewrite Forall_forall in Hcl. apply Hcl, (list_elem_of_lookup_2 _ _ _ Hf).
Qed.

Lemma registered_run evs : forall st st',
  Forall (fun ev => is_Close ev = false) evs ->
  pending_in_flight st -> registered st ->
  run evs st = Some st' -> registered st'.
Proof.
  induction evs as [|ev evs IH]; intros st st' Hevs Hp Hr H; cbn in H.
  - injection H as <-. exact Hr.
  - destruct (step ev st) as [st1|] eqn:Hs; [|discriminate]. cbn in H.
    apply Forall_cons in Hevs as [Hev Hevs].
    apply (IH st1 st' Hevs); [| |exact H].
    + apply (pending_in_flight_step ev st st1 Hp Hs).
    + apply (registered_step ev st st1 Hev Hp Hr Hs).
Qed.

(** X6. As long as [close] is not called, at most one load of a table is in
    flight: a read of a table that is being loaded, and is not cached, is
    handed the promise of that load and starts no other. *)
Theorem one_load_in_flight dir h d evs st :
  Forall (fun ev => is_Close ev = false) evs ->
  run evs (connected dir h d) = Some st ->
  (forall p q t,
     loads st !! p = Some {| ltable := t; lstate := None |} ->
     loads st !! q = Some {| ltable := t; lstate := None |} -> p = q) /\
  (forall p t now,
     loads st !! p = Some {| ltable := t; lstate := None |} ->
     JsMap.get (cache st) t = None ->
     getData t now st = (st, Later p)).
Proof.
  intros Hevs Hrun.
  assert (Hreg : registered st).
  { apply (registered_run evs (connected dir h d) st Hevs); [| |exact Hrun].
    - apply pending_in_flight_connected.
    - split; [|constructor]. intros p t Hl. discriminate. }
  destruct Hreg as [Hreg _]. split.
  - intros p q t Hp Hq. pose proof (Hreg p t Hp) as E. rewrite (Hreg q t Hq) in E.
    injection E as ->. reflexivity.
  - intros p t now Hp Hc. unfold getData. rewrite Hc, (Hreg p t Hp). reflexivity.
Qed.

(** ** What a flush is started with *)

Lemma flushWrites_queue c st :
  writeTimer (flushWrites c st) = false /\ writeQueue (flushWrites c st) = [].
Proof.
  unfold flushWrites.
  match goal with |- context [resolve_if_done ?j ?s] =>
    destruct (resolve_if_done_fields j s) as (_ & Hq & Ht & _) end.
  rewrite Hq, Ht. split; reflexivity.
Qed.

Lemma set_not_nil {V} (m : list (string * V)) k v : JsMap.set m k v <> [].
Proof.
  destruct m as [|[k' v'] m]; cbn; [discriminate|].
  destruct (decide (k' = k)); discriminate.
Qed.

Lemma tables_writeToDisk (q : list (string * nat)) st :
  wtable <$> ((fun '(t, a) => writeToDisk t a st) <$> q) = q.*1.
Proof.
  rewrite <- list_fmap_compose. apply list_fmap_ext. intros i [t a] _. reflexivity.
Qed.

Lemma flusher_wf_step ev st st' :
  invariant st -> flusher_wf st -> step ev st = Some st' -> flusher_wf st'.
Proof.
  intros Hinv [Hti Hb] H. split.
  - destruct ev; try (destruct (queue_frame_step _ _ _ H I) as [-> ->]; exact Hti);
      cbn [step] in H.
    + injection H as <-. intros _.
      destruct (saveData_queue table a now st) as [-> _]. apply set_not_nil.
    + destruct (writeTimer st); [|discriminate]. injection H as <-.
      destruct (flushWrites_queue false st) as [-> _]. discriminate.
    + injection H as <-. unfold close. destruct (writeTimer st) eqn:Ht.
      * destruct (flushWrites_queue true st) as [-> _]. discriminate.
      * cbn. rewrite Ht. discriminate.
  - destruct (step_flushes ev st st' H)
      as [->|[(f0 & _ & Ht & _ & Hw & ->)|(j & f & i & w & s & f' & _ & Hf & Hw & Hws & _ & ->)]].
    + exact Hb.
    + apply Forall_app. split; [exact Hb|]. constructor; [|constructor].
      rewrite Hw. split.
      * intros E. apply fmap_nil_inv in E. apply (Hti Ht E).
      * rewrite tables_writeToDisk. apply (inv_queue_wf _ Hinv).
    + apply Forall_insert; [exact Hb|].
      rewrite Forall_forall in Hb.
      destruct (Hb f (list_elem_of_lookup_2 _ _ _ Hf)) as [Hne Hnd]. rewrite Hws. split.
      * intros E. apply (f_equal length) in E. rewrite length_insert in E.
        destruct (writes f); [congruence|discriminate].
      * rewrite (fmap_restage wtable _ _ _ _ Hw) by reflexivity. exact Hnd.
Qed.

Lemma flusher_wf_run evs : forall st st',
  invariant st -> flusher_wf st -> run evs st = Some st' -> flusher_wf st'.
Proof.
  induction evs as [|ev evs IH]; intros st st' Hinv Hf H; cbn in H.
  - injection H as <-. exact Hf.
  - destruct (step ev st) as [st1|] eqn:Hs; [|discriminate]. cbn in H.
    apply (IH st1 st'); [| |exact H].
    + apply (invariant_step _ _ _ Hs Hinv).
    + apply (flusher_wf_step ev st st1 Hinv Hf Hs).
Qed.

(** X7. In every state a connected provider goes through, a flush is
    scheduled exactly when the write queue holds something; so every flush
    that was started, by the timer or by [close], took at least one write,
    and none holds two writes for one table. *)
Theorem flushes_take_writes st :
  reachable st ->
  (writeTimer st = true <-> writeQueue st <> []) /\
  Forall (fun f => writes f <> [] /\ NoDup (wtable <$> writes f)) (flushes st).
Proof.
  intros Hreach. pose proof (invariant_reachable st Hreach) as Hinv.
  destruct Hreach as (dir & h & d & evs & Hrun).
  assert (Hf : flusher_wf st).
  { apply (flusher_wf_run evs (connected dir h d) st); [| |exact Hrun].
    - apply invariant_connected.
    - split; [discriminate|constructor]. }
  destruct Hf as [Hti Hb]. split; [|exact Hb].
  split; [exact Hti|apply (inv_timer _ Hinv)].
Qed.

(** ** Files, once written, stay *)

Lemma disk_effect_keeps_file dir d d' t :
  disk_effect dir d d' -> is_Some (d !! filePath dir t) -> is_Some (d' !! filePath dir t).
Proof.
  intros [->| t' c -> | t' c _ ->] H; [exact H| |].
  - rewrite lookup_insert_ne; [exact H|]. intros E. symmetry in E.
    apply (filePath_ne_tempPath _ _ _ E).
  - destruct (decide (filePath dir t' = filePath dir t)) as [E|Hne].
    + rewrite E, lookup_insert_eq. eauto.
    + rewrite lookup_insert_ne by exact Hne.
      rewrite lookup_delete_ne; [exact H|]. intros E. symmetry in E.
      apply (filePath_ne_tempPath _ _ _ E).
Qed.

Lemma own_dec ev : (exists j, own j ev) \/ (forall j, ~ own j ev).
Proof. destruct ev; cbn; eauto. Qed.

Lemma flushWrites_emitted c st : emitted (flushWrites c st) = emitted st.
Proof.
  unfold flushWrites, resolve_if_done. cbn.
  rewrite lookup_app_r by lia. rewrite Nat.sub_diag. cbn. unfold JsMap.entries.
  destruct (writeQueue st) as [|[t a] q]; cbn; [|reflexivity].
  unfold after_flush. cbn. destruct c; cbn; apply app_nil_r.
Qed.

Lemma step_emitted ev st st' :
  (forall j, ~ own j ev) -> step ev st = Some st' -> emitted st' = emitted st.
Proof.
  intros Hn H. destruct ev; cbn [step] in H.
  - injection H as <-. unfold saveData. break_match; reflexivity.
  - injection H as <-. unfold getData. repeat break_match; reflexivity.
  - unfold load_settled in H.
    destruct (loads st !! p) as [[table [s|]]|]; try discriminate.
    destruct (loadFromDisk table fault st) as [d|e].
    + cbn zeta in H. injection H as <-.
      match goal with |- context [if ?c then _ else _] => destruct c end; reflexivity.
    + injection H as <-. reflexivity.
  - destruct (writeTimer st); [|discriminate]. injection H as <-.
    apply flushWrites_emitted.
  - exfalso. apply (Hn j). reflexivity.
  - exfalso. apply (Hn j). reflexivity.
  - injection H as <-. unfold close.
    destruct (writeTimer st); [apply flushWrites_emitted|reflexivity].
  - injection H as <-. reflexivity.
  - injection H as <-. reflexivity.
Qed.

Lemma files_present_step ev st st' :
  files_present st -> step ev st = Some st' -> files_present st'.
Proof.
  intros [Hp He] H.
  pose proof (step_dataDir _ _ _ H) as Hdir.
  pose proof (step_disk_effect _ _ _ H) as Hde.
  assert (Hkeep : forall t, is_Some (disk st !! filePath (dataDir st) t) ->
                    is_Some (disk st' !! filePath (dataDir st') t)).
  { intros t. rewrite Hdir. apply (disk_effect_keeps_file _ _ _ _ Hde). }
  assert (Hold : Forall (fun f => Forall (fun w => wstage w = Persisted ->
                    is_Some (disk st' !! filePath (dataDir st') (wtable w))) (writes f))
                   (flushes st)).
  { eapply Forall_impl; [exact Hp|]. intros f Hf. eapply Forall_impl; [exact Hf|].
    intros w Hw Hs. apply Hkeep, Hw, Hs. }
  assert (Hem : Forall (fun t => is_Some (disk st' !! filePath (dataDir st') t)) (emitted st)).
  { eapply Forall_impl; [exact He|]. intros t. apply Hkeep. }
  destruct (own_dec ev) as [[j Hown]|Hn].
  - destruct (flusher_step ev j st st' Hown H)
      as (f & i & w & s & d' & f' & Hf & Hw & Hws & Hc & _ & Hfile & Hst).
    assert (Hd' : disk st' = d' /\ flushes st' = <[j := f']> (flushes st)).
    { destruct Hst as [->|[_ ->]]; [split; reflexivity|].
      unfold after_flush. destruct (closing f'); split; reflexivity. }
    destruct Hd' as [Hd' Hfl].
    assert (Hf' : Forall (fun w => wstage w = Persisted ->
                    is_Some (disk st' !! filePath (dataDir st') (wtable w))) (writes f')).
    { rewrite Hws. apply Forall_insert.
      - rewrite Forall_forall in Hold. apply Hold, (list_elem_of_lookup_2 _ _ _ Hf).
      - cbn. intros Hs. rewrite Hd', Hdir. apply Hfile, Hs. }
    split.
    + rewrite Hfl. apply Forall_insert; [exact Hold|exact Hf'].
    + assert (Hemit : emitted st' = emitted st \/
                      (forallb persisted (writes f') = true /\
                       emitted st' = emitted st ++ (wtable <$> writes f'))).
      { destruct Hst as [->|[Hall ->]]; [left; reflexivity|]. right.
        split; [exact Hall|]. unfold after_flush. destruct (closing f'); reflexivity. }
      destruct Hemit as [->|[Hall ->]]; [exact Hem|].
      apply Forall_app. split; [exact Hem|]. apply Forall_fmap.
      rewrite Forall_forall in Hf' |- *. intros w' Hin. cbn. apply (Hf' w' Hin).
      rewrite forallb_forall in Hall. apply list_elem_of_In, Hall in Hin.
      unfold persisted in Hin. destruct (wstage w'); congruence.
  - split.
    + destruct (step_flushes ev st st' H)
        as [->|[(f0 & _ & _ & _ & Hw & ->)|(j & f & i & w & s & f' & Hown & _)]].
      * exact Hold.
      * apply Forall_app. split; [exact Hold|]. constructor; [|constructor].
        rewrite Hw. apply Forall_fmap, Forall_forall. intros [t a] _. cbn. discriminate.
      * exfalso. apply (Hn j Hown).
    + rewrite (step_emitted _ _ _ Hn H). exact Hem.
Qed.

Lemma files_present_run evs : forall st st',
  files_present st -> run evs st = Some st' -> files_present st'.
Proof.
  induction evs as [|ev evs IH]; intros st st' Hinv H; cbn in H.
  - injection H as <-. exact Hinv.
  - destruct (step ev st) as [st1|] eqn:Hs; [|discriminate]. cbn in H.
    apply (IH st1 st'); [|exact H]. apply (files_present_step ev st st1 Hinv Hs).
Qed.

Lemma run_keeps_file evs t : forall st st',
  run evs st = Some st' ->
  is_Some (disk st !! filePath (dataDir st) t) ->
  is_Some (disk st' !! filePath (dataDir st') t).
Proof.
  induction evs as [|ev evs IH]; intros st st' H Hf; cbn in H.
  - injection H as <-. exact Hf.
  - destruct (step ev st) as [st1|] eqn:Hs; [|discriminate]. cbn in H.
    apply (IH st1 st' H). rewrite (step_dataDir _ _ _ Hs).
    apply (disk_effect_keeps_file _ _ _ _ (step_disk_effect _ _ _ Hs) Hf).
Qed.

(** X8. In every state a connected provider goes through, a table whose
    write-complete notification was emitted has its file, and so has every
    table whose write went through; and no table file, once it is there, ever
    goes away again, whatever the provider does. *)
Theorem notified_tables_have_files st :
  reachable st ->
  (forall t, t ∈ emitted st -> is_Some (disk st !! filePath (dataDir st) t)) /\
  (forall f w, f ∈ flushes st -> w ∈ writes f -> wstage w = Persisted ->
     is_Some (disk st !! filePath (dataDir st) (wtable w))) /\
  (forall evs st' t,
     run evs st = Some st' ->
     is_Some (disk st !! filePath (dataDir st) t) ->
     is_Some (disk st' !! filePath (dataDir st') t)).
Proof.
  intros (dir & h & d & evs & Hrun).
  assert (Hf : files_present st).
  { apply (files_present_run evs (connected dir h d) st); [|exact Hrun].
    split; constructor. }
  destruct Hf as [Hp He]. split; [|split].
  - rewrite Forall_forall in He. exact He.
  - intros f w Hin Hw. rewrite Forall_forall in Hp. specialize (Hp f Hin).
    rewrite Forall_forall in Hp. apply (Hp w Hw).
  - intros evs' st' t. apply run_keeps_file.
Qed.


(** ** The arrays the cache holds *)

Lemma elem_of_set {V} (m : list (string * V)) k v p :
  p ∈ JsMap.set m k v -> p = (k, v) \/ p ∈ m.
Proof.
  induction m as [|[k' v'] m IH]; cbn.
  - intros H. apply list_elem_of_singleton in H. auto.
  - destruct (decide (k' = k)) as [->|Hne]; intros H;
      apply elem_of_cons in H as [H|H]; auto.
    + right. right. exact H.
    + right. rewrite H. left.
    + destruct (IH H) as [E|Hin]; [auto|]. right. right. exact Hin.
Qed.

Lemma elem_of_evict c p : p ∈ evict c -> p ∈ c.
Proof.
  unfold evict. destruct (50 <? JsMap.size c)%nat; [|auto]. cbn zeta.
  rewrite forEach_delete. rewrite list_elem_of_filter. tauto.
Qed.

Lemma is_frozen_frozen_at h a : is_frozen h a = true <-> exists l, frozen_at h a l.
Proof.
  unfold is_frozen, frozen_at. split.
  - destruct (arrs h !! a) as [[[] l]|]; try discriminate. eauto.
  - intros [l ->]. reflexivity.
Qed.

Lemma is_frozen_heap_le h h' a : heap_le h h' -> is_frozen h a = true -> is_frozen h' a = true.
Proof.
  intros [Hle _] H. apply is_frozen_frozen_at in H as [l Hl].
  apply is_frozen_frozen_at. exists l. apply Hle, Hl.
Qed.

Lemma is_frozen_new h l : is_frozen (new_array true l h) (next_array h) = true.
Proof. unfold is_frozen. rewrite new_array_lookup_new. reflexivity. Qed.

Lemma step_cache ev st st' :
  step ev st = Some st' ->
  forall p, p ∈ cache st' ->
    (exists p0, p0 ∈ cache st /\ data p0.2 = data p.2) \/
    is_frozen (mem st') (data p.2) = true.
Proof.
  intros H.
  assert (Hfl : forall j, own j ev -> cache st' = cache st \/ cache st' = []).
  { intros j Hown. destruct (flusher_step ev j st st' Hown H)
      as (f & i & w & s & d' & f' & _ & _ & _ & _ & _ & _ & [->|[_ ->]]); [auto|].
    unfold after_flush. destruct (closing f'); cbn; auto. }
  assert (Hsame : cache st' = cache st \/ cache st' = [] ->
            forall p, p ∈ cache st' ->
              (exists p0, p0 ∈ cache st /\ data p0.2 = data p.2) \/
              is_frozen (mem st') (data p.2) = true).
  { intros [->| ->] p Hin; [left; eauto|]. apply elem_of_nil in Hin. contradiction. }
  destruct ev; cbn [step] in H;
    [clear Hfl|clear Hfl|clear Hfl|clear Hfl
    |apply Hsame, (Hfl j); reflexivity|apply Hsame, (Hfl j); reflexivity
    |clear Hfl|clear Hfl|clear Hfl].
  - injection H as <-. clear Hsame. intros p Hin.
    rewrite saveData_cache, addToCache_cache in Hin. rewrite saveData_mem.
    apply elem_of_evict, elem_of_set in Hin as [->|Hin]; [|left; eauto].
    right. cbn. apply is_frozen_new.
  - injection H as <-. clear Hsame. intros p Hin. unfold getData in Hin.
    destruct (JsMap.get (cache st) table) as [cached|] eqn:Hc.
    + cbn in Hin. apply elem_of_set in Hin as [->|Hin]; [|left; eauto].
      left. exists (table, cached). split; [apply get_Some_elem, Hc|reflexivity].
    + left. exists p. split; [|reflexivity].
      destruct (JsMap.get (pendingReads st) table); exact Hin.
  - unfold load_settled in H.
    destruct (loads st !! p) as [[table [s|]]|]; try discriminate.
    destruct (loadFromDisk table fault st) as [d|e].
    + cbn zeta in H. injection H as <-. clear Hsame. intros q Hin.
      match goal with |- context [if ?c then _ else _] => destruct c end.
      * cbn in Hin. rewrite addToCache_cache in Hin.
        apply elem_of_evict, elem_of_set in Hin as [->|Hin]; [|left; eauto].
        right. cbn. rewrite mem_addToCache. apply is_frozen_new.
      * left. eauto.
    + injection H as <-. apply Hsame. left. reflexivity.
  - destruct (writeTimer st); [|discriminate]. injection H as <-. apply Hsame.
    unfold flushWrites.
    match goal with |- context [resolve_if_done ?j ?s] =>
      destruct (resolve_if_done_fields j s) as (_ & _ & _ & _ & _ & _ & _ & _ & Hc) end.
    exact Hc.
  - injection H as <-. apply Hsame. unfold close. destruct (writeTimer st); [|auto].
    unfold flushWrites.
    match goal with |- context [resolve_if_done ?j ?s] =>
      destruct (resolve_if_done_fields j s) as (_ & _ & _ & _ & _ & _ & _ & _ & Hc) end.
    exact Hc.
  - injection H as <-. apply Hsame. left. reflexivity.
  - injection H as <-. apply Hsame. left. reflexivity.
Qed.

Lemma cache_frozen_step ev st st' :
  cache_frozen st -> step ev st = Some st' -> cache_frozen st'.
Proof.
  unfold cache_frozen. rewrite !Forall_forall. intros Hinv H p Hin.
  destruct (step_cache ev st st' H p Hin) as [(p0 & Hin0 & <-)|Hf]; [|exact Hf].
  apply (is_frozen_heap_le _ _ _ (heap_le_step _ _ _ H)), Hinv, Hin0.
Qed.

Lemma cache_frozen_run evs : forall st st',
  cache_frozen st -> run evs st = Some st' -> cache_frozen st'.
Proof.
  induction evs as [|ev evs IH]; intros st st' Hinv H; cbn in H.
  - injection H as <-. exact Hinv.
  - destruct (step ev st) as [st1|] eqn:Hs; [|discriminate]. cbn in H.
    apply (IH st1 st'); [|exact H]. apply (cache_frozen_step ev st st1 Hinv Hs).
Qed.

(** X9. In every state a connected provider goes through, every array the
    cache holds is frozen, whether a write or the promotion of a hot table
    put it there: a caller's assignment to it changes nothing, and a read of
    the table is answered with another array, one that is not frozen and
    holds the same records. *)
Theorem cached_arrays_are_frozen st table e :
  reachable st ->
  JsMap.get (cache st) table = Some e ->
  is_frozen (mem st) (data e) = true /\
  (forall l, mutate_array (data e) l (mem st) = mem st) /\
  (forall now, exists st' copy,
     getData table now st = (st', Now copy) /\
     copy <> data e /\
     is_frozen (mem st') copy = false /\
     is_frozen (mem st') (data e) = true /\
     elems (mem st') copy = elems (mem st) (data e)).
Proof.
  intros (dir & h & d & evs & Hrun) He.
  assert (Hinv : cache_frozen st).
  { apply (cache_frozen_run evs (connected dir h d) st); [constructor|exact Hrun]. }
  unfold cache_frozen in Hinv. rewrite Forall_forall in Hinv.
  pose proof (Hinv _ (get_Some_elem _ _ _ He)) as Hf. cbn in Hf.
  split; [exact Hf|]. split.
  - intros l. unfold mutate_array. rewrite Hf. reflexivity.
  - intros now. apply is_frozen_frozen_at in Hf as [l Hl].
    destruct (getData_copies_frozen table now st (data e) l Hl)
      as (st' & copy & Hg & Hcopy & Hel & Hnf & _ & Hf' & _).
    { rewrite He. reflexivity. }
    exists st', copy. split; [exact Hg|]. split.
    { apply frozen_at_lt in Hl. lia. }
    split; [exact Hnf|]. split; [apply is_frozen_frozen_at; eauto|].
    rewrite Hel. symmetry. apply elems_frozen_at, Hl.
Qed.

(** ** Hot tables *)

Lemma deref_same_elems h h' a a' :
  elems h' a' = elems h a -> objs h' = objs h -> deref h' a' = deref h a.
Proof. intros He Ho. unfold deref. rewrite He, Ho. reflexivity. Qed.

Lemma loadFromDisk_ext table fault st st' :
  disk st' = disk st -> dataDir st' = dataDir st ->
  loadFromDisk table fault st' = loadFromDisk table fault st.
Proof. intros Hd Hdir. unfold loadFromDisk. rewrite Hd, Hdir. reflexivity. Qed.

Lemma get_delete_eq {V} (m : list (string * V)) k : JsMap.get (JsMap.delete m k) k = None.
Proof.
  apply get_None_not_key. unfold JsMap.keys, JsMap.delete.
  rewrite list_elem_of_fmap. intros ([t p] & -> & Hin).
  apply list_elem_of_filter in Hin as [Hne _]. apply Hne. reflexivity.
Qed.

(** One read that goes to disk and finds the snapshot [d]. *)
Lemma read_cycle table now st d :
  invariant st ->
  JsMap.get (cache st) table = None ->
  JsMap.get (pendingReads st) table = None ->
  loadFromDisk table None st = inl d ->
  Forall (fun p => lastAccess p.2 <= now) (cache st) ->
  let k := default 0%nat (JsMap.get (readCounts st) table) in
  exists st',
    run [GetData table now; LoadSettled (length (loads st)) None now] st = Some st' /\
    invariant st' /\
    default 0%nat (JsMap.get (readCounts st') table) = S k /\
    JsMap.get (pendingReads st') table = None /\
    disk st' = disk st /\ dataDir st' = dataDir st /\
    length (loads st') = S (length (loads st)) /\
    ((S k < 10)%nat -> cache st' = cache st) /\
    ((10 <= S k)%nat -> forall now', answered (getData table now' st') = Some d).
Proof.
  intros Hinv Hc Hp Hload Hclock k.
  pose (sa := with_pendingReads (JsMap.set (pendingReads st) table (length (loads st)))
                (with_loads (loads st ++ [{| ltable := table; lstate := None |}]) st)).
  pose (sb := with_mem (new_snapshot d (mem sa)) sa).
  pose (sc := settle_load (length (loads st)) table (Fulfilled (next_array (mem sa))) sb).
  pose (sd := with_readCounts (JsMap.set (readCounts sc) table (k + 1)%nat) sc).
  pose (se := if (hotDataThreshold <=? k + 1)%nat
              then addToCache table (next_array (mem sa)) now sd else sd).
  exists (with_pendingReads (JsMap.delete (pendingReads se) table) se).
  split.
  { assert (Hget : (getData table now st).1 = sa)
      by (unfold getData; rewrite Hc, Hp; reflexivity).
    cbn [run step]. rewrite Hget. cbn [mbind option_bind]. unfold load_settled.
    assert (Hla : loads sa !! length (loads st) =
                  Some {| ltable := table; lstate := None |}).
    { unfold sa. cbn. rewrite lookup_app_r by lia. rewrite Nat.sub_diag. reflexivity. }
    rewrite Hla. cbv beta iota.
    rewrite (loadFromDisk_ext table None st sa eq_refl eq_refl), Hload.
    reflexivity. }
  assert (Hk : (k + 1 = S k)%nat) by lia.
  assert (Hinvd : invariant sd).
  { unfold sd, sc, sb, sa.
    apply invariant_with_readCounts, invariant_settle_load, invariant_with_mem,
      invariant_with_pendingReads, invariant_with_loads, Hinv. }
  unfold se. clear se.
  destruct (Nat.leb_spec hotDataThreshold (k + 1)) as [Hhot|Hcold].
  - set (se := addToCache table (next_array (mem sa)) now sd).
    assert (Hres : JsMap.get (cache se) table =
              Some {| data := next_array (mem sd); version := this_version sd;
                      lastAccess := now |}).
    { apply addToCache_resident;
        [apply (inv_cache_wf _ Hinv)|apply (inv_cache_size _ Hinv)|exact Hclock]. }
    split; [apply invariant_with_pendingReads, invariant_addToCache, Hinvd|].
    split; [change (default 0%nat (JsMap.get (JsMap.set (readCounts sc) table (k + 1)%nat)
                                      table) = S k); rewrite get_set_eq; cbn; lia|].
    split; [apply get_delete_eq|].
    split; [reflexivity|]. split; [reflexivity|].
    split; [change (length (<[length (loads st) :=
                      {| ltable := table; lstate := Some (Fulfilled (next_array (mem sa))) |}]>
                      (loads st ++ [{| ltable := table; lstate := None |}])) =
                    S (length (loads st)));
            rewrite length_insert, length_app; cbn; lia|].
    split; [unfold hotDataThreshold in Hhot; lia|].
    intros _ now'.
    set (sf := with_pendingReads _ se).
    assert (Hf : frozen_at (mem sf) (next_array (mem sd)) (elems (mem sd) (next_array (mem sa)))).
    { unfold sf. cbn. unfold se. rewrite mem_addToCache. apply new_array_lookup_new. }
    destruct (getData_copies_frozen table now' sf _ _ Hf)
      as (sg & copy & Hg & _ & Hel & _ & Hobjs & _).
    { change (cache sf) with (cache se). rewrite Hres. reflexivity. }
    rewrite Hg. unfold answered. cbn.
    rewrite (deref_same_elems (mem sd) (mem sg) (next_array (mem sa)) copy Hel).
    + unfold sd, sc, sb. cbn. f_equal. apply deref_new_snapshot.
    + rewrite Hobjs. unfold sf, se. cbn. rewrite mem_addToCache. reflexivity.
  - split; [apply invariant_with_pendingReads, Hinvd|].
    split; [change (default 0%nat (JsMap.get (JsMap.set (readCounts sc) table (k + 1)%nat)
                                      table) = S k); rewrite get_set_eq; cbn; lia|].
    split; [apply get_delete_eq|].
    split; [reflexivity|]. split; [reflexivity|].
    split; [change (length (<[length (loads st) :=
                      {| ltable := table; lstate := Some (Fulfilled (next_array (mem sa))) |}]>
                      (loads st ++ [{| ltable := table; lstate := None |}])) =
                    S (length (loads st)));
            rewrite length_insert, length_app; cbn; lia|].
    split; [reflexivity|].
    unfold hotDataThreshold in Hcold. lia.
Qed.

Lemma run_app evs1 evs2 : forall st,
  run (evs1 ++ evs2) st = run evs1 st ≫= run evs2.
Proof.
  induction evs1 as [|ev evs1 IH]; intros st; [reflexivity|]. cbn.
  destruct (step ev st) as [st1|]; [apply IH|reflexivity].
Qed.

Lemma reachable_run evs st st' : reachable st -> run evs st = Some st' -> reachable st'.
Proof.
  intros (dir & h & d & evs0 & H0) H. exists dir, h, d, (evs0 ++ evs).
  rewrite run_app, H0. exact H.
Qed.

Lemma reads_from_disk_run table d : forall times st (k : nat),
  invariant st ->
  JsMap.get (cache st) table = None ->
  JsMap.get (pendingReads st) table = None ->
  loadFromDisk table None st = inl d ->
  default 0%nat (JsMap.get (readCounts st) table) = k ->
  (0 < length times)%nat -> (k + length times <= 10)%nat ->
  Forall (fun now => Forall (fun p => lastAccess p.2 <= now) (cache st)) times ->
  exists st',
    run (reads_from_disk table (length (loads st)) times) st = Some st' /\
    default 0%nat (JsMap.get (readCounts st') table) = (k + length times)%nat /\
    disk st' = disk st /\
    ((k + length times < 10)%nat -> cache st' = cache st) /\
    ((k + length times = 10)%nat ->
       forall now, answered (getData table now st') = Some d).
Proof.
  induction times as [|now times IH]; intros st k Hinv Hc Hp Hload Hk Hpos Hlen Hclock;
    [cbn in Hpos; lia|].
  apply Forall_cons in Hclock as [Hnow Hclock].
  destruct (read_cycle table now st d Hinv Hc Hp Hload Hnow)
    as (st1 & Hrun1 & Hinv1 & Hk1 & Hp1 & Hd1 & Hdir1 & Hl1 & Hcold & Hhot).
  cbn zeta in *. rewrite Hk in Hk1, Hcold, Hhot.
  assert (Hrun : forall rest,
            run (GetData table now :: LoadSettled (length (loads st)) None now :: rest) st =
            run rest st1).
  { intros rest.
    change (GetData table now :: LoadSettled (length (loads st)) None now :: rest)
      with ([GetData table now; LoadSettled (length (loads st)) None now] ++ rest).
    rewrite run_app, Hrun1. reflexivity. }
  cbn [reads_from_disk length] in *. rewrite Hrun.
  destruct times as [|now2 times].
  - exists st1. cbn [reads_from_disk run length] in *.
    split; [reflexivity|]. split; [lia|]. split; [exact Hd1|]. split.
    + intros Hlt. apply Hcold. lia.
    + intros Heq. apply Hhot. lia.
  - assert (Hsame : cache st1 = cache st) by (apply Hcold; cbn in Hlen; lia).
    destruct (IH st1 (S k)) as (st' & Hrun' & Hk' & Hd' & Hcold' & Hhot').
    + exact Hinv1.
    + rewrite Hsame. exact Hc.
    + exact Hp1.
    + rewrite (loadFromDisk_ext table None st st1 Hd1 Hdir1). exact Hload.
    + exact Hk1.
    + cbn. lia.
    + cbn in Hlen |- *. lia.
    + rewrite Hsame. exact Hclock.
    + exists st'. rewrite <- Hl1. split; [exact Hrun'|].
      split; [rewrite Hk'; cbn; lia|]. split; [congruence|]. split.
      * intros Hlt. rewrite Hcold', Hsame; [reflexivity|]. cbn in Hlt |- *. lia.
      * intros Heq. apply Hhot'. cbn in Heq |- *. lia.
Qed.


(** ** Through [close] and back *)

Lemma deref_saveData fz h a : deref (new_array fz (elems h a) h) a = deref h a.
Proof.
  destruct (decide (a < next_array h)%nat) as [Hlt|Hge];
    [apply deref_new_array, Hlt|].
  unfold next_array in Hge.
  assert (Hnone : arrs h !! a = None) by (apply lookup_ge_None_2; lia).
  unfold deref. f_equal.
  assert (He : elems h a = []) by (unfold elems; rewrite Hnone; reflexivity).
  rewrite He. unfold new_array, elems. cbn.
  destruct (decide (a = length (arrs h))) as [->|Hne].
  - rewrite lookup_app_r by lia. rewrite Nat.sub_diag. reflexivity.
  - rewrite lookup_ge_None_2; [reflexivity|]. rewrite length_app. cbn. lia.
Qed.

Lemma saveData_dataDir table a now st : dataDir (saveData table a now st) = dataDir st.
Proof. unfold saveData. break_match; reflexivity. Qed.

(** ** A read refreshes a cached table *)

Lemma evict_keeps_recent c T eT T' :
  JsMap.wf c -> JsMap.get c T = Some eT ->
  (forall k e, (k, e) ∈ c -> k <> T -> k <> T' -> lastAccess e < lastAccess eT) ->
  JsMap.get (evict c) T = Some eT.
Proof.
  intros Hwf Hg Hold.
  destruct (le_lt_dec (JsMap.size c) 50) as [Hs|Hl]; [rewrite evict_small; assumption|].
  destruct (evict_large c Hwf Hl) as [E _]. cbn zeta in E. rewrite E.
  rewrite get_filter_keys; [exact Hg|].
  set (sorted := js_sort byLastAccess c).
  assert (Hperm : sorted ≡ₚ c) by apply js_sort_perm.
  assert (Hlen : length sorted = length c) by (rewrite Hperm; reflexivity).
  unfold JsMap.size in Hl.
  intros Hin. apply list_elem_of_fmap in Hin as ([k x] & Hk & Hin). cbn in Hk. subst k.
  assert (Hx : x = eT).
  { assert (Hc : (T, x) ∈ c)
      by (rewrite <- Hperm; eapply elem_of_sublist; [exact Hin|apply sublist_take]).
    apply (elem_get_Some _ _ _ Hwf) in Hc. congruence. }
  subst x.
  pose proof (byLastAccess_sorted c) as Hsorted. fold sorted in Hsorted.
  rewrite <- (take_drop (length c - 40) sorted) in Hsorted.
  assert (Hnd : NoDup (take (length c - 40) sorted ++ drop (length c - 40) sorted).*1).
  { rewrite take_drop, Hperm. exact Hwf. }
  rewrite fmap_app in Hnd. apply NoDup_app in Hnd as (_ & Hdisj & Hndd).
  assert (Hall : forall y, y ∈ drop (length c - 40) sorted -> y.1 = T').
  { intros [k y] Hy. cbn.
    pose proof (StronglySorted_app_1_elem_of _ _ _ _ _ Hsorted Hin Hy) as Hle.
    unfold precedes, byLastAccess in Hle. cbn in Hle.
    destruct (decide (k = T')) as [->|HneT']; [reflexivity|]. exfalso.
    assert (HneT : k <> T).
    { intros ->. apply (Hdisj T).
      - apply (list_elem_of_fmap_2 fst _ _ Hin).
      - apply (list_elem_of_fmap_2 fst _ _ Hy). }
    assert (Hc : (k, y) ∈ c)
      by (rewrite <- Hperm; eapply elem_of_sublist; [exact Hy|apply sublist_drop]).
    pose proof (Hold k y Hc HneT HneT'). lia. }
  assert (Hdl : length (drop (length c - 40) sorted) = 40%nat)
    by (rewrite length_drop; lia).
  destruct (drop (length c - 40) sorted) as [|y1 [|y2 rest]]; [discriminate..|].
  rewrite !fmap_cons, NoDup_cons in Hndd. destruct Hndd as [Hnin _].
  apply Hnin. rewrite (Hall y1) by left. rewrite <- (Hall y2) by (right; left). left.
Qed.

(** X12. A read answered from the cache refreshes the table: when it
    leaves the table more recently accessed than every other cached table,
    the next promotion of another table, by a write or by a hot load, does
    not evict it, however full the cache is. *)
Theorem cache_hit_defers_eviction st table e now table' a now' :
  invariant st ->
  JsMap.get (cache st) table = Some e ->
  (forall k e', (k, e') ∈ cache st -> k <> table -> lastAccess e' < now) ->
  table' <> table ->
  let st1 := (getData table now st).1 in
  let e1 := {| data := data e; version := version e; lastAccess := now |} in
  JsMap.get (cache st1) table = Some e1 /\
  JsMap.get (cache (addToCache table' a now' st1)) table = Some e1 /\
  JsMap.get (cache (saveData table' a now' st1)) table = Some e1.
Proof.
  intros Hinv He Hold Hne st1 e1.
  assert (Hc1 : cache st1 = JsMap.set (cache st) table e1).
  { unfold st1. rewrite (getData_hit table now st e He). reflexivity. }
  assert (Hg1 : JsMap.get (cache st1) table = Some e1) by (rewrite Hc1; apply get_set_eq).
  assert (Hwf1 : JsMap.wf (cache st1)) by (rewrite Hc1; apply wf_set, (inv_cache_wf _ Hinv)).
  assert (Hkeep : forall e2,
            JsMap.get (evict (JsMap.set (cache st1) table' e2)) table = Some e1).
  { intros e2. apply (evict_keeps_recent _ table e1 table').
    - apply wf_set, Hwf1.
    - rewrite get_set_ne by exact Hne. exact Hg1.
    - intros k e0 Hin HkT HkT'.
      apply elem_of_set in Hin as [Heq|Hin]; [congruence|].
      rewrite Hc1 in Hin. apply elem_of_set in Hin as [Heq|Hin]; [congruence|].
      cbn. apply (Hold k e0 Hin HkT). }
  split; [exact Hg1|]. split.
  - rewrite addToCache_cache. apply Hkeep.
  - rewrite saveData_cache, addToCache_cache. apply Hkeep.
Qed.

(** ** [query] *)

Lemma omap_filter_refs (objs_ : list record) (test : record -> bool) (l : list nat) :
  Forall (fun o => is_Some (objs_ !! o)) l ->
  omap (fun o => objs_ !! o)
    (List.filter (fun o => match objs_ !! o with Some r => test r | None => false end) l) =
  List.filter test (omap (fun o => objs_ !! o) l).
Proof.
  induction 1 as [|o l [r Hr] Hl IH]; [reflexivity|].
  cbn. rewrite Hr. cbn. destruct (test r); cbn; rewrite ?Hr, IH; reflexivity.
Qed.

Lemma query_filter_spec test a st :
  valid_array (mem st) a ->
  let st' := (query_filter test a st).1 in
  let result := (query_filter test a st).2 in
  result = next_array (mem st) /\
  deref (mem st') result = List.filter test (deref (mem st) a) /\
  is_frozen (mem st') result = false /\
  arrs (mem st) `prefix_of` arrs (mem st') /\ objs (mem st') = objs (mem st) /\
  cache st' = cache st /\ disk st' = disk st /\ loads st' = loads st.
Proof.
  intros Hv. unfold query_filter. cbn [fst snd].
  split; [reflexivity|]. split.
  { unfold deref. change (mem (with_mem ?h _)) with h. rewrite elems_new_array.
    unfold new_array. cbn [objs]. apply omap_filter_refs, Hv. }
  split; [cbn; unfold is_frozen; rewrite new_array_lookup_new; reflexivity|].
  split; [cbn; unfold new_array; cbn; apply prefix_app_r; reflexivity|].
  repeat split.
Qed.


(** ** Connecting and preloading *)

Lemma warmCache_fields table fault now st :
  let st' := warmCache table fault now st in
  disk st' = disk st /\ dataDir st' = dataDir st /\
  pendingReads st' = pendingReads st /\ readCounts st' = readCounts st /\
  loads st' = loads st /\ writeQueue st' = writeQueue st /\
  flushes st' = flushes st /\
  arrs (mem st) `prefix_of` arrs (mem st') /\
  objs (mem st) `prefix_of` objs (mem st').
Proof.
  cbn zeta. unfold warmCache. destruct (loadFromDisk table fault st) as [d|e].
  - repeat (split; [reflexivity|]). rewrite mem_addToCache.
    unfold new_snapshot, new_array. cbn. split.
    + rewrite <- app_assoc. apply prefix_app_r. reflexivity.
    + apply prefix_app_r. reflexivity.
  - repeat (split; [reflexivity|]). reflexivity.
Qed.

Lemma warmCache_cache table fault now st :
  JsMap.wf (cache st) -> (JsMap.size (cache st) < 50)%nat ->
  match loadFromDisk table fault st with
  | inl d =>
      exists e l,
        cache (warmCache table fault now st) = JsMap.set (cache st) table e /\
        frozen_at (mem (warmCache table fault now st)) (data e) l /\
        valid_array (mem (warmCache table fault now st)) (data e) /\
        deref (mem (warmCache table fault now st)) (data e) = d
  | inr _ => warmCache table fault now st = st
  end.
Proof.
  intros Hwf Hsz. unfold warmCache. destruct (loadFromDisk table fault st) as [d|e];
    [|reflexivity].
  set (sb := with_mem (new_snapshot d (mem st)) st).
  set (loaded := next_array (mem st)).
  eexists _, _. rewrite addToCache_cache, mem_addToCache. split.
  { apply evict_small. rewrite size_set.
    change (cache sb) with (cache st). destruct (JsMap.get (cache st) table); lia. }
  cbn [data]. split; [apply new_array_lookup_new|].
  assert (Hd : deref (new_array true (elems (mem sb) loaded) (mem sb)) (next_array (mem sb)) = d).
  { rewrite <- (deref_new_snapshot d (mem st)). apply deref_same_elems.
    - rewrite elems_new_array. reflexivity.
    - reflexivity. }
  split; [|exact Hd].
  unfold valid_array. rewrite elems_new_array.
  unfold sb, loaded, new_snapshot. cbn [mem with_mem].
  change (next_array (mem st))
    with (next_array {| objs := objs (mem st) ++ d; arrs := arrs (mem st) |}).
  rewrite elems_new_array. unfold new_array. cbn [objs].
  apply Forall_forall. intros o Ho. apply elem_of_seq in Ho.
  apply lookup_lt_is_Some_2. rewrite length_app. lia.
Qed.

Lemma preload_cons x settles st :
  preload (x :: settles) st = preload settles (warmCache x.1.1 x.1.2 x.2 st).
Proof. destruct x as [[t f] n]. reflexivity. Qed.

Lemma frozen_at_prefix h h' a l :
  arrs h `prefix_of` arrs h' -> frozen_at h a l -> frozen_at h' a l.
Proof. unfold frozen_at. intros Hp Hl. apply (prefix_lookup_Some _ _ _ _ Hl Hp). Qed.

Lemma preload_spec : forall settles st,
  JsMap.wf (cache st) ->
  NoDup settles.*1.*1 ->
  (forall t, t ∈ settles.*1.*1 -> JsMap.get (cache st) t = None) ->
  (JsMap.size (cache st) + length settles <= 50)%nat ->
  let st' := preload settles st in
  disk st' = disk st /\ dataDir st' = dataDir st /\
  pendingReads st' = pendingReads st /\ readCounts st' = readCounts st /\
  loads st' = loads st /\ writeQueue st' = writeQueue st /\
  flushes st' = flushes st /\
  arrs (mem st) `prefix_of` arrs (mem st') /\
  objs (mem st) `prefix_of` objs (mem st') /\
  (forall t, t ∉ settles.*1.*1 -> JsMap.get (cache st') t = JsMap.get (cache st) t) /\
  (forall t fault now, (t, fault, now) ∈ settles ->
     match loadFromDisk t fault st with
     | inl d =>
         exists e l, JsMap.get (cache st') t = Some e /\
           frozen_at (mem st') (data e) l /\ valid_array (mem st') (data e) /\
           deref (mem st') (data e) = d
     | inr _ => JsMap.get (cache st') t = None
     end).
Proof.
  induction settles as [|[[t fault] now] settles IH]; intros st Hwf Hnd Hnew Hsz.
  - cbn. repeat (split; [reflexivity|]).
    intros t fault now Hin. apply elem_of_nil in Hin. contradiction.
  - rewrite !fmap_cons in Hnd, Hnew. cbn [fst] in Hnd, Hnew.
    apply NoDup_cons in Hnd as [Hnin Hnd]. cbn [length] in Hsz.
    cbn zeta. rewrite preload_cons. cbn [fst snd].
    set (st1 := warmCache t fault now st).
    destruct (warmCache_fields t fault now st)
      as (Hd1 & Hdir1 & Hp1 & Hr1 & Hl1 & Hq1 & Hf1 & Ha1 & Ho1). fold st1 in Hd1, Hdir1, Hp1, Hr1, Hl1, Hq1, Hf1, Ha1, Ho1.
    pose proof (warmCache_cache t fault now st Hwf ltac:(lia)) as Hc1. fold st1 in Hc1.
    assert (Hcache1 : cache st1 = cache st \/ exists e, cache st1 = JsMap.set (cache st) t e).
    { destruct (loadFromDisk t fault st) as [d|err]; [|left; rewrite Hc1; reflexivity].
      destruct Hc1 as (e & l & Hc & _). right. eauto. }
    assert (Hwf1 : JsMap.wf (cache st1)).
    { destruct Hcache1 as [->|[e ->]]; [exact Hwf|apply wf_set, Hwf]. }
    assert (Hsz1 : (JsMap.size (cache st1) + length settles <= 50)%nat).
    { destruct Hcache1 as [->|[e ->]]; [lia|]. rewrite size_set.
      destruct (JsMap.get (cache st) t); lia. }
    assert (Hother : forall t', t' <> t -> JsMap.get (cache st1) t' = JsMap.get (cache st) t').
    { intros t' Hne. destruct Hcache1 as [->|[e ->]]; [reflexivity|].
      apply get_set_ne. intros E. apply Hne. symmetry. exact E. }
    destruct (IH st1 Hwf1 Hnd) as (Hd & Hdir & Hp & Hr & Hl & Hq & Hf & Ha & Ho & Hframe & Hin);
      [|exact Hsz1|].
    { intros t' Ht'. rewrite Hother; [apply Hnew; right; exact Ht'|].
      intros ->. contradiction. }
    cbn zeta in *.
    split; [congruence|]. split; [congruence|]. split; [congruence|].
    split; [congruence|]. split; [congruence|]. split; [congruence|].
    split; [congruence|].
    split; [etransitivity; eassumption|]. split; [etransitivity; eassumption|]. split.
    + intros t' Ht'. apply not_elem_of_cons in Ht' as [Hne Ht'].
      rewrite Hframe by exact Ht'. apply Hother, Hne.
    + intros t' fault' now' Hel. apply elem_of_cons in Hel as [Heq|Hel].
      * injection Heq as -> -> ->. rewrite (Hframe t Hnin).
        destruct (loadFromDisk t fault st) as [d|err].
        -- destruct Hc1 as (e & l & Hc & Hfr & Hv & Hde). exists e, l.
           split; [rewrite Hc; apply get_set_eq|].
           split; [apply (frozen_at_prefix _ _ _ _ Ha Hfr)|].
           apply (deref_prefix (mem st1) (mem (preload settles st1)) (data e) Ha Ho
                    (frozen_at_lt _ _ _ Hfr)) in Hv as (Hde' & _ & Hv').
           split; [exact Hv'|]. rewrite Hde'. exact Hde.
        -- rewrite Hc1. apply Hnew. left.
      * specialize (Hin t' fault' now' Hel).
        rewrite (loadFromDisk_ext t' fault' st st1 Hd1 Hdir1) in Hin. exact Hin.
Qed.

(** X14. [connect] fails only if [mkdir] does, and then with its error.
    Of the tables to preload (no table twice, at most fifty, the cache being
    empty as in a provider just created), in whatever order their reads
    settle, those whose file holds a snapshot, or is missing, are cached with
    that snapshot, or with the empty one, and read from the cache from then
    on; a table whose read failed or whose file is corrupt is passed over,
    its next read goes to disk; and no other table is cached.  Preloading
    reads files and writes none, and counts no reads. *)
Theorem connect_preloads c settles st tables :
  cache st = [] ->
  cfg_preload c = Some tables ->
  settles.*1.*1 ≡ₚ tables -> NoDup tables -> (length tables <= 50)%nat ->
  let st0 := set_dataDir c st in
  let st' := (connect c None settles st).1 in
  (forall mkdir, (connect c mkdir settles st).2 = SystemError <$> mkdir) /\
  disk st' = disk st /\ dataDir st' = dataDir st0 /\
  loads st' = loads st /\ readCounts st' = readCounts st /\
  (forall t fault now, (t, fault, now) ∈ settles -> forall now',
     answered (getData t now' st') =
     match loadFromDisk t fault st0 with inl d => Some d | inr _ => None end) /\
  (forall t, t ∉ tables -> JsMap.get (cache st') t = None).
Proof.
  intros Hc Hpre Hperm Hnd Hlen st0 st'.
  assert (Hst' : st' = preload settles st0)
    by (unfold st', connect; rewrite Hpre; reflexivity).
  assert (Hc0 : cache st0 = []).
  { unfold st0, set_dataDir. destruct (cfg_dataDir c) as [d|]; [|exact Hc].
    destruct (decide (d = ""%string)); exact Hc. }
  assert (Hd0 : disk st0 = disk st /\ loads st0 = loads st /\ readCounts st0 = readCounts st).
  { unfold st0, set_dataDir. destruct (cfg_dataDir c) as [d|]; [|auto].
    destruct (decide (d = ""%string)); auto. }
  destruct Hd0 as (Hd0 & Hl0 & Hr0).
  destruct (preload_spec settles st0)
    as (Hd & Hdir & _ & Hr & Hl & _ & _ & _ & _ & Hframe & Hin).
  { rewrite Hc0. apply NoDup_nil_2. }
  { rewrite Hperm. exact Hnd. }
  { intros t _. rewrite Hc0. reflexivity. }
  { rewrite Hc0. cbn. rewrite <- (length_fmap fst), <- (length_fmap fst), Hperm. exact Hlen. }
  cbn zeta in *. rewrite <- Hst' in *.
  split.
  { intros [code|]; unfold connect; [reflexivity|]. rewrite Hpre. reflexivity. }
  split; [congruence|]. split; [exact Hdir|]. split; [congruence|]. split; [congruence|].
  split.
  - intros t fault now Hel now'. specialize (Hin t fault now Hel).
    destruct (loadFromDisk t fault st0) as [d|err].
    + destruct Hin as (e & l & Hg & Hfr & Hv & Hde).
      destruct (getData_copies_frozen t now' st' (data e) l Hfr)
        as (st2 & copy & Hget & _ & Hel' & _ & Hobjs & _).
      { rewrite Hg. reflexivity. }
      rewrite Hget. unfold answered. cbn. f_equal. rewrite <- Hde.
      apply deref_same_elems; [|exact Hobjs].
      rewrite Hel'. symmetry. apply elems_frozen_at, Hfr.
    + unfold getData. rewrite Hin.
      destruct (JsMap.get (pendingReads st') t); reflexivity.
  - intros t Ht. rewrite Hframe by (rewrite Hperm; exact Ht). rewrite Hc0. reflexivity.
Qed.

(** ** What a flush writes is fixed when it starts *)

Lemma step_keeps_batch ev st st' j f :
  step ev st = Some st' -> flushes st !! j = Some f ->
  exists f', flushes st' !! j = Some f' /\
    (fun w => (wtable w, wtext w)) <$> writes f' =
    (fun w => (wtable w, wtext w)) <$> writes f /\
    closing f' = closing f.
Proof.
  intros H Hf.
  destruct (step_flushes ev st st' H)
    as [->|[(f0 & _ & _ & _ & _ & ->)|(j0 & f1 & i & w & s & f' & _ & Hf1 & Hw & Hws & Hc & ->)]].
  - eauto.
  - exists f. split; [apply lookup_app_l_Some, Hf|]. auto.
  - destruct (decide (j0 = j)) as [->|Hne].
    + assert (f1 = f) as -> by congruence.
      exists f'. split; [apply (lookup_insert_same _ _ _ _ Hf)|].
      split; [|exact Hc]. rewrite Hws. apply (fmap_restage _ _ _ _ _ Hw). reflexivity.
    + exists f. split; [|auto]. rewrite list_lookup_insert_ne by exact Hne. exact Hf.
Qed.

Lemma run_keeps_batch evs j : forall st st' f,
  run evs st = Some st' -> flushes st !! j = Some f ->
  exists f', flushes st' !! j = Some f' /\
    (fun w => (wtable w, wtext w)) <$> writes f' =
    (fun w => (wtable w, wtext w)) <$> writes f /\
    closing f' = closing f.
Proof.
  induction evs as [|ev evs IH]; intros st st' f H Hf; cbn in H.
  - injection H as <-. eauto.
  - destruct (step ev st) as [st1|] eqn:Hs; [|discriminate]. cbn in H.
    destruct (step_keeps_batch ev st st1 j f Hs Hf) as (f1 & Hf1 & Hb1 & Hc1).
    destruct (IH st1 st' f1 H Hf1) as (f' & Hf' & Hb & Hc).
    exists f'. split; [exact Hf'|]. split; congruence.
Qed.

(** X15. What a flush writes is fixed when it starts: the tables of the
    queue and, for each, the text of its array as it is at that moment.
    Nothing that happens afterwards changes it, neither a later [saveData] of
    the same table nor a caller altering the array it passed nor another
    flush. *)
Theorem flush_writes_what_it_took st c evs st' :
  run evs (flushWrites c st) = Some st' ->
  exists f,
    flushes st' !! length (flushes st) = Some f /\
    (fun w => (wtable w, wtext w)) <$> writes f = batch st /\
    closing f = c.
Proof.
  intros Hrun.
  destruct (flushWrites_flushes c st) as (f0 & Hc0 & Hw0 & Hfl).
  assert (Hl : flushes (flushWrites c st) !! length (flushes st) = Some f0).
  { rewrite Hfl, lookup_app_r by lia. rewrite Nat.sub_diag. reflexivity. }
  destruct (run_keeps_batch evs _ _ _ _ Hrun Hl) as (f & Hf & Hb & Hc).
  exists f. split; [exact Hf|]. split; [|congruence].
  rewrite Hb, Hw0. unfold batch. rewrite <- list_fmap_compose.
  apply list_fmap_ext. intros i [t a] _. reflexivity.
Qed.

(** * Properties of the table sets *)

Lemma maxId_ge primaryKey data :
  0 <= DbSet.maxId primaryKey data /\
  forall item, item ∈ data -> DbSet.idOr0 primaryKey item <= DbSet.maxId primaryKey data.
Proof.
  unfold DbSet.maxId. induction data as [|x data [IH0 IH]]; cbn.
  - split; [lia|]. intros item Hin. apply elem_of_nil in Hin. contradiction.
  - split; [lia|]. intros item Hin. apply elem_of_cons in Hin as [->|Hin]; [lia|].
    specialize (IH item Hin). lia.
Qed.

Lemma maxId_snoc primaryKey data item :
  DbSet.maxId primaryKey (data ++ [item]) =
  Z.max (DbSet.maxId primaryKey data) (DbSet.idOr0 primaryKey item).
Proof.
  unfold DbSet.maxId. induction data as [|x data IH]; cbn; [lia|].
  rewrite IH. lia.
Qed.

Lemma round_double_exact z : Z.abs z <= 2 ^ 53 -> round_double z = z.
Proof.
  intros H. unfold round_double.
  destruct (Z.ltb_spec (Z.abs z) (2 ^ 53)) as [|Hge]; [reflexivity|].
  assert (E : z = 2 ^ 53 \/ z = - 2 ^ 53) by lia.
  destruct E as [->| ->]; vm_compute; reflexivity.
Qed.

Lemma js_add_1 x : 0 <= x < 2 ^ 53 -> js_add x 1 = x + 1.
Proof. intros H. apply round_double_exact. lia. Qed.

(** From [2 ^ 53] on, adding one changes nothing. *)
Lemma js_add_1_stuck : js_add (2 ^ 53) 1 = 2 ^ 53.
Proof. vm_compute. reflexivity. Qed.

Lemma find_snoc {A} (test : A -> bool) (l : list A) (y : A) :
  (forall x, x ∈ l -> test x = false) ->
  List.find test (l ++ [y]) = if test y then Some y else None.
Proof.
  induction l as [|x l IH]; intros H; cbn; [reflexivity|].
  rewrite (H x) by left. apply IH. intros z Hz. apply H. right. exact Hz.
Qed.

Lemma fresh_id primaryKey data item :
  item ∈ data -> item !! primaryKey <> Some (DbSet.maxId primaryKey data + 1).
Proof.
  intros Hin E. destruct (maxId_ge primaryKey data) as [_ Hle].
  specialize (Hle item Hin). unfold DbSet.idOr0 in Hle. rewrite E in Hle. cbn in Hle. lia.
Qed.


(** At [2 ^ 53] the key [add] gives is the largest key of the table again. *)
Lemma add_key_repeats primaryKey entity data :
  DbSet.falsy (entity !! primaryKey) = true ->
  DbSet.maxId primaryKey data = 2 ^ 53 ->
  (DbSet.add primaryKey entity data).1 !! primaryKey = Some (2 ^ 53) /\
  exists item, item ∈ data /\ item !! primaryKey = Some (2 ^ 53).
Proof.
  intros Hf Hm. unfold DbSet.add. rewrite Hf, Hm, js_add_1_stuck. cbn [fst].
  split; [apply lookup_insert_eq|].
  revert Hm. unfold DbSet.maxId. induction data as [|x data IH]; cbn; [discriminate|].
  intros Hm. destruct (Z.max_spec (DbSet.idOr0 primaryKey x)
                         (foldr Z.max 0 (DbSet.idOr0 primaryKey <$> data))) as [[_ E]|[_ E]].
  - rewrite E in Hm. destruct (IH Hm) as (item & Hin & Hk).
    exists item. split; [right; exact Hin|exact Hk].
  - rewrite E in Hm. exists x. split; [left|].
    unfold DbSet.idOr0 in Hm. destruct (x !! primaryKey) as [k|]; cbn in Hm;
      [congruence|discriminate].
Qed.


(** X17. [addRange] of entities that all come without a primary key, the
    keys staying within [2 ^ 53], does what adding them one after the other
    does: they get the keys that follow the largest key of the table, in
    their order, and are appended in that order. *)
Theorem addRange_is_repeated_add primaryKey entities data :
  Forall (fun entity => DbSet.falsy (entity !! primaryKey) = true) entities ->
  DbSet.maxId primaryKey data + Z.of_nat (length entities) <= 2 ^ 53 ->
  let results := (DbSet.addRange primaryKey entities data).1 in
  let saved := (DbSet.addRange primaryKey entities data).2 in
  DbSet.addRange primaryKey entities data =
    foldl (fun '(results, data) entity =>
             let '(newEntity, data) := DbSet.add primaryKey entity data in
             (results ++ [newEntity], data))
      ([], data) entities /\
  results =
    imap (fun i entity =>
            <[primaryKey := DbSet.maxId primaryKey data + 1 + Z.of_nat i]> entity)
      entities /\
  saved = data ++ results.
Proof.
  intros Hall Hbound. cbn zeta. unfold DbSet.addRange.
  pose proof (proj1 (maxId_ge primaryKey data)) as Hm0.
  assert (Hgen : forall entities data0 results0 (k : nat) nextId,
            Forall (fun entity => DbSet.falsy (entity !! primaryKey) = true) entities ->
            DbSet.maxId primaryKey data + Z.of_nat k + Z.of_nat (length entities) <= 2 ^ 53 ->
            DbSet.maxId primaryKey data0 = DbSet.maxId primaryKey data + Z.of_nat k ->
            (entities <> [] -> nextId = DbSet.maxId primaryKey data + 1 + Z.of_nat k) ->
            DbSet.addRange_loop primaryKey entities nextId data0 results0 =
              foldl (fun '(results, data) entity =>
                       let '(newEntity, data) := DbSet.add primaryKey entity data in
                       (results ++ [newEntity], data))
                (results0, data0) entities /\
            (DbSet.addRange_loop primaryKey entities nextId data0 results0).1 =
              results0 ++
              imap (fun i entity =>
                      <[primaryKey := DbSet.maxId primaryKey data + 1 + Z.of_nat (k + i)]>
                        entity) entities /\
            (DbSet.addRange_loop primaryKey entities nextId data0 results0).2 =
              data0 ++
              imap (fun i entity =>
                      <[primaryKey := DbSet.maxId primaryKey data + 1 + Z.of_nat (k + i)]>
                        entity) entities).
  { clear entities Hall Hbound. induction entities as [|entity entities IH];
      intros data0 results0 k nextId Hall Hbound Hmax Hnext.
    - cbn. rewrite !app_nil_r. auto.
    - apply Forall_cons in Hall as [Hf Hall]. cbn [DbSet.addRange_loop].
      rewrite Hf. cbn zeta. rewrite (Hnext ltac:(discriminate)).
      cbn [length] in Hbound.
      set (newEntity := <[primaryKey := DbSet.maxId primaryKey data + 1 + Z.of_nat k]> entity).
      set (step := fun '(results, data) entity =>
                     let '(newEntity, data) := DbSet.add primaryKey entity data in
                     (results ++ [newEntity], data)).
      assert (Hstep : step (results0, data0) entity =
                      (results0 ++ [newEntity], data0 ++ [newEntity])).
      { unfold step, DbSet.add. rewrite Hf, Hmax, js_add_1 by lia. unfold newEntity.
        replace (DbSet.maxId primaryKey data + Z.of_nat k + 1)
          with (DbSet.maxId primaryKey data + 1 + Z.of_nat k) by lia.
        reflexivity. }
      change (foldl step (results0, data0) (entity :: entities))
        with (foldl step (step (results0, data0) entity) entities).
      rewrite Hstep.
      destruct (IH (data0 ++ [newEntity]) (results0 ++ [newEntity]) (S k)
                  (js_add (DbSet.maxId primaryKey data + 1 + Z.of_nat k) 1) Hall)
        as (H1 & H2 & H3).
      { lia. }
      { rewrite maxId_snoc, Hmax. unfold DbSet.idOr0, newEntity.
        rewrite lookup_insert_eq. cbn. lia. }
      { intros Hne. assert (0 < length entities)%nat by (destruct entities; [congruence|cbn; lia]).
        rewrite js_add_1 by lia. lia. }
      split; [exact H1|]. rewrite H2, H3, <- !app_assoc. cbn [imap app].
      rewrite Nat.add_0_r. fold newEntity.
      split; do 2 f_equal; apply imap_ext; intros i x _; cbn; do 2 f_equal; lia. }
  destruct (Hgen entities data [] 0%nat (js_add (DbSet.maxId primaryKey data) 1) Hall)
    as (H1 & H2 & H3); [cbn; lia|cbn; lia| |].
  { intros Hne. assert (0 < length entities)%nat by (destruct entities; [congruence|cbn; lia]).
    rewrite js_add_1 by lia. cbn. lia. }
  cbn in H2, H3.
  split; [exact H1|]. split; [exact H2|]. rewrite H3, H2. reflexivity.
Qed.

Lemma findIndex_Some {A} (test : A -> bool) (l : list A) (i : nat) :
  DbSet.findIndex test l = Some i ->
  exists x, l !! i = Some x /\ test x = true /\
    forall (j : nat) y, (j < i)%nat -> l !! j = Some y -> test y = false.
Proof.
  revert i. induction l as [|x l IH]; intros i; cbn; [discriminate|].
  destruct (test x) eqn:Hx.
  - intros E. injection E as <-. exists x. split; [reflexivity|]. split; [exact Hx|].
    intros j y Hj. lia.
  - destruct (DbSet.findIndex test l) as [k|]; [|discriminate]. cbn.
    intros E. injection E as <-. destruct (IH k eq_refl) as (y & Hy & Hty & Hbefore).
    exists y. split; [exact Hy|]. split; [exact Hty|].
    intros [|j] z Hj Hz; cbn in Hz.
    + injection Hz as <-. exact Hx.
    + apply (Hbefore j z); [lia|exact Hz].
Qed.

Lemma findIndex_None {A} (test : A -> bool) (l : list A) :
  DbSet.findIndex test l = None <-> List.find test l = None.
Proof.
  induction l as [|x l IH]; cbn; [tauto|].
  destruct (test x); [split; discriminate|].
  destruct (DbSet.findIndex test l); cbn.
  - split; [discriminate|]. intros H. apply IH in H. discriminate.
  - split; [intros _; apply IH; reflexivity|reflexivity].
Qed.

Lemma find_first_match {A} (test : A -> bool) (l : list A) (i : nat) x :
  l !! i = Some x -> test x = true ->
  (forall (j : nat) y, (j < i)%nat -> l !! j = Some y -> test y = false) ->
  List.find test l = Some x.
Proof.
  revert i. induction l as [|z l IH]; intros i Hx Ht Hbefore; [discriminate|].
  destruct i as [|i]; cbn in Hx |- *.
  - injection Hx as ->. rewrite Ht. reflexivity.
  - rewrite (Hbefore 0%nat z) by (first [lia|reflexivity]).
    apply (IH i Hx Ht). intros j y Hj Hy. apply (Hbefore (S j) y); [lia|exact Hy].
Qed.

(** X18. [update] fails with "Entity not found" exactly when no record of
    the table has the key of the entity, and then nothing is saved.
    Otherwise the first record with that key is replaced by the entity and no
    other record is touched: the array keeps its length and its keys, and
    [find] with the key returns the entity. *)
Theorem update_replaces_first_match primaryKey entity data :
  let id := entity !! primaryKey in
  (DbSet.find primaryKey id data = None <->
   DbSet.update primaryKey entity data = inr "Entity not found"%string) /\
  (forall saved,
     DbSet.update primaryKey entity data = inl saved ->
     exists (index : nat) old,
       data !! index = Some old /\ old !! primaryKey = id /\
       (forall (j : nat) item, (j < index)%nat -> data !! j = Some item ->
          item !! primaryKey <> id) /\
       saved = <[index := entity]> data /\
       length saved = length data /\
       (.!! primaryKey) <$> saved = (.!! primaryKey) <$> data /\
       DbSet.find primaryKey id saved = Some entity).
Proof.
  cbn zeta. unfold DbSet.update, DbSet.find.
  set (id := entity !! primaryKey). set (test := DbSet.hasId primaryKey id).
  destruct (DbSet.findIndex test data) as [index|] eqn:Hfi.
  - split.
    + split; [|discriminate]. intros Hnone. apply findIndex_None in Hnone. congruence.
    + intros saved E. injection E as <-.
      destruct (findIndex_Some test data index Hfi) as (old & Hold & Ht & Hbefore).
      assert (Hoid : old !! primaryKey = id).
      { unfold test, DbSet.hasId in Ht. apply bool_decide_eq_true in Ht. exact Ht. }
      exists index, old. split; [exact Hold|]. split; [exact Hoid|]. split.
      { intros j item Hj Hitem E. specialize (Hbefore j item Hj Hitem).
        unfold test, DbSet.hasId in Hbefore. apply bool_decide_eq_false in Hbefore.
        contradiction. }
      split; [reflexivity|]. split; [apply length_insert|]. split.
      { rewrite list_fmap_insert. apply list_insert_id.
        rewrite list_lookup_fmap, Hold. cbn. rewrite Hoid. reflexivity. }
      apply (find_first_match test _ index).
      * apply list_lookup_insert_eq, (lookup_lt_Some _ _ _ Hold).
      * unfold test, DbSet.hasId. apply bool_decide_eq_true_2. reflexivity.
      * intros j y Hj Hy. rewrite list_lookup_insert_ne in Hy by lia.
        apply (Hbefore j y Hj Hy).
  - split; [|discriminate]. split; [reflexivity|].
    intros _. apply findIndex_None, Hfi.
Qed.

Lemma find_filter {A} (test keep : A -> bool) (l : list A) :
  (forall x, test x = true -> keep x = true) ->
  List.find test (List.filter keep l) = List.find test l.
Proof.
  intros H. induction l as [|x l IH]; cbn; [reflexivity|].
  destruct (keep x) eqn:Hk; cbn.
  - rewrite IH. reflexivity.
  - destruct (test x) eqn:Ht; [|exact IH]. rewrite (H x Ht) in Hk. discriminate.
Qed.

Lemma filter_id {A} (keep : A -> bool) (l : list A) :
  (forall x, x ∈ l -> keep x = true) -> List.filter keep l = l.
Proof.
  induction l as [|x l IH]; intros H; cbn; [reflexivity|].
  rewrite (H x) by left. f_equal. apply IH. intros y Hy. apply H. right. exact Hy.
Qed.

(** X19. [remove] saves the table without the records that have the key of
    the entity, all of them, the others in their order: [find] with that key
    then finds nothing and with any other key finds what it found before.
    When no record has the key, the table is saved as it is; removing twice
    is removing once. *)
Theorem remove_drops_the_key primaryKey entity data :
  let id := entity !! primaryKey in
  let saved := DbSet.remove primaryKey entity data in
  DbSet.find primaryKey id saved = None /\
  (forall id', id' <> id ->
     DbSet.find primaryKey id' saved = DbSet.find primaryKey id' data) /\
  saved `sublist_of` data /\
  (forall item, item ∈ saved <-> item ∈ data /\ item !! primaryKey <> id) /\
  (DbSet.find primaryKey id data = None -> saved = data) /\
  DbSet.remove primaryKey entity saved = saved.
Proof.
  cbn zeta. unfold DbSet.remove, DbSet.find.
  set (id := entity !! primaryKey).
  set (keep := fun item => negb (DbSet.hasId primaryKey id item)).
  assert (Hmem : forall item, item ∈ List.filter keep data <->
                   item ∈ data /\ item !! primaryKey <> id).
  { intros item. rewrite !list_elem_of_In, filter_In. unfold keep, DbSet.hasId.
    rewrite negb_true_iff, bool_decide_eq_false. reflexivity. }
  split; [|split; [|split; [|split; [exact Hmem|split]]]].
  - destruct (List.find (DbSet.hasId primaryKey id) (List.filter keep data)) as [x|] eqn:Hf;
      [|reflexivity].
    apply find_some in Hf as [Hin Ht]. apply filter_In in Hin as [_ Hk].
    unfold keep in Hk. rewrite Ht in Hk. discriminate.
  - intros id' Hne. apply find_filter. intros x Hx. unfold keep, DbSet.hasId in *.
    apply bool_decide_eq_true in Hx. apply negb_true_iff, bool_decide_eq_false.
    congruence.
  - clear Hmem. induction data as [|x data IH]; cbn; [constructor|].
    destruct (keep x); [apply sublist_skip, IH|apply sublist_cons, IH].
  - intros Hnone. apply filter_id. intros x Hx. unfold keep.
    apply negb_true_iff. apply list_elem_of_In in Hx.
    apply (find_none _ _ Hnone x Hx).
  - apply filter_id. intros x Hx. apply list_elem_of_In, filter_In in Hx as [_ Hk].
    exact Hk.
Qed.

(** * Properties of the query builder *)

Lemma js_slice_from {A} (l : list A) (n : Z) :
  0 <= n -> js_slice l n (Z.of_nat (length l)) = drop (Z.to_nat n) l.
Proof.
  intros Hn. unfold js_slice.
  destruct (Z.ltb_spec n 0); [lia|].
  destruct (Z.ltb_spec (Z.of_nat (length l)) 0); [lia|].
  rewrite Z.min_id.
  destruct (Z_le_gt_dec n (Z.of_nat (length l))) as [Hle|Hgt].
  - rewrite Z.min_l by lia. apply firstn_all2. rewrite length_drop. lia.
  - rewrite Z.min_r by lia. rewrite !drop_ge by lia. apply take_nil.
Qed.

Lemma js_slice_take {A} (l : list A) (m : Z) :
  0 <= m -> js_slice l 0 m = take (Z.to_nat m) l.
Proof.
  intros Hm. destruct (Z_le_gt_dec m (Z.of_nat (length l))) as [Hle|Hgt].
  - apply js_slice_prefix. lia.
  - unfold js_slice. change (0 <? 0) with false. cbv iota.
    destruct (Z.ltb_spec m 0); [lia|].
    rewrite (Z.min_l 0), (Z.min_r m) by lia. rewrite Z.sub_0_r, Nat2Z.id.
    change (Z.to_nat 0) with 0%nat. rewrite drop_0.
    rewrite (take_ge l (length l)) by lia.
    rewrite (take_ge l (Z.to_nat m)) by lia. reflexivity.
Qed.

(** What [toArray] has before it skips and takes. *)
Lemma toArray_unpaged loadRelations q data :
  Queryable.includeRelations q = [] ->
  Queryable.skipCount q = 0 -> Queryable.takeCount q = None ->
  forall n m, 0 <= n -> 0 <= m ->
    Queryable.toArray loadRelations (Queryable.skip n q) data =
      drop (Z.to_nat n) (Queryable.toArray loadRelations q data) /\
    Queryable.toArray loadRelations (Queryable.take m (Queryable.skip n q)) data =
      take (Z.to_nat m) (drop (Z.to_nat n) (Queryable.toArray loadRelations q data)).
Proof.
  intros Hi Hs Ht n m Hn Hm. unfold Queryable.toArray. cbn. rewrite Hi, Hs, Ht. cbn.
  set (base := foldl _ (foldl _ data (Queryable.filters q)) (Queryable.sortKeys q)).
  assert (Hskip : (if 0 <? n then js_slice base n (Z.of_nat (length base)) else base) =
                  drop (Z.to_nat n) base).
  { destruct (Z.ltb_spec 0 n); [apply js_slice_from; lia|].
    replace (Z.to_nat n) with 0%nat by lia. reflexivity. }
  rewrite Hskip, js_slice_take by exact Hm.
  destruct (Queryable.selectFields q) as [fields|];
    rewrite ?fmap_take, ?fmap_drop; auto.
Qed.

(** X20. Paging.  For a query that is not paged yet and includes no
    relation, [skip(n)] and [take(m)], given in either order, select the
    [m] results that follow the first [n] of the whole result, or as many as
    there are; so a page and what comes after it make up what came after the
    pages before. *)
Theorem paging_slices_the_result loadRelations q data n m :
  Queryable.includeRelations q = [] ->
  Queryable.skipCount q = 0 -> Queryable.takeCount q = None ->
  0 <= n -> 0 <= m ->
  let whole := Queryable.toArray loadRelations q data in
  let page := Queryable.toArray loadRelations (Queryable.take m (Queryable.skip n q)) data in
  Queryable.take m (Queryable.skip n q) = Queryable.skip n (Queryable.take m q) /\
  page = take (Z.to_nat m) (drop (Z.to_nat n) whole) /\
  (length page <= Z.to_nat m)%nat /\
  page ++ Queryable.toArray loadRelations (Queryable.skip (n + m) q) data =
    Queryable.toArray loadRelations (Queryable.skip n q) data.
Proof.
  intros Hi Hs Ht Hn Hm whole page.
  destruct (toArray_unpaged loadRelations q data Hi Hs Ht n m Hn Hm) as [Hskip Hpage].
  destruct (toArray_unpaged loadRelations q data Hi Hs Ht (n + m) m ltac:(lia) Hm)
    as [Hrest _].
  split; [reflexivity|]. split; [exact Hpage|]. split.
  - unfold page. rewrite Hpage, length_take. lia.
  - unfold page. rewrite Hpage, Hrest, Hskip. fold whole.
    replace (Z.to_nat (n + m)) with (Z.to_nat n + Z.to_nat m)%nat by lia.
    rewrite <- drop_drop. apply take_drop.
Qed.

(** ** Sorting by several keys *)

Section LexSort.
Context {A : Type} (cmp : A -> A -> Z) (D : A -> Prop) (R : A -> A -> Prop).
Hypothesis cmp_trans : forall x y z, D x -> D y -> D z ->
  cmp x y <= 0 -> cmp y z <= 0 -> cmp x z <= 0.
Hypothesis cmp_total : forall x y, D x -> D y -> 0 < cmp x y -> cmp y x <= 0.

Let lex (x y : A) : Prop := cmp x y <= 0 /\ (cmp y x <= 0 -> R x y).

Lemma js_insert_lex x s :
  D x -> Forall D s -> Forall (R x) s ->
  StronglySorted lex s -> StronglySorted lex (js_insert cmp x s).
Proof.
  intros Dx Ds Hx Hs. induction Hs as [|y s Hs IH Hy]; cbn.
  - repeat constructor.
  - apply Forall_cons in Ds as [Dy Ds]. apply Forall_cons in Hx as [Hxy Hx].
    destruct (Z.leb_spec (cmp x y) 0) as [Hle|Hgt].
    + constructor; [constructor; assumption|].
      constructor; [split; [exact Hle|intros _; exact Hxy]|].
      rewrite Forall_forall in Hy, Hx, Ds |- *. intros z Hz. split.
      * apply (cmp_trans x y z Dx Dy (Ds z Hz) Hle). apply (Hy z Hz).
      * intros _. apply (Hx z Hz).
    + constructor; [apply IH; assumption|].
      rewrite js_insert_perm. constructor; [|exact Hy].
      split; [apply cmp_total; assumption|]. intros Hle. lia.
Qed.

Lemma js_sort_lex l :
  Forall D l -> StronglySorted R l -> StronglySorted lex (js_sort cmp l).
Proof.
  intros Dl Hs. induction Hs as [|x l Hs IH Hx]; [constructor|].
  change (js_sort cmp (x :: l)) with (js_insert cmp x (js_sort cmp l)).
  apply Forall_cons in Dl as [Dx Dl].
  apply js_insert_lex; [exact Dx| | |apply IH, Dl];
    rewrite js_sort_perm; assumption.
Qed.
End LexSort.

Lemma compareByKey_le key desc (a b : record) x y :
  a !! key = Some x -> b !! key = Some y ->
  Queryable.compareByKey key desc a b <= 0 <-> (if desc then y <= x else x <= y).
Proof.
  intros Ha Hb. unfold Queryable.compareByKey. rewrite Ha, Hb. cbn.
  destruct (Z.ltb_spec x y), (Z.gtb_spec x y), desc; lia.
Qed.

Lemma compareByKey_trans key desc (x y z : record) :
  is_Some (x !! key) -> is_Some (y !! key) -> is_Some (z !! key) ->
  Queryable.compareByKey key desc x y <= 0 -> Queryable.compareByKey key desc y z <= 0 ->
  Queryable.compareByKey key desc x z <= 0.
Proof.
  intros [a Ha] [b Hb] [c Hc].
  rewrite (compareByKey_le key desc x y a b), (compareByKey_le key desc y z b c),
    (compareByKey_le key desc x z a c) by assumption.
  destruct desc; lia.
Qed.

Lemma compareByKey_total key desc (x y : record) :
  is_Some (x !! key) -> is_Some (y !! key) ->
  0 < Queryable.compareByKey key desc x y -> Queryable.compareByKey key desc y x <= 0.
Proof.
  intros [a Ha] [b Hb] H.
  pose proof (compareByKey_le key desc x y a b Ha Hb).
  rewrite (compareByKey_le key desc y x b a) by assumption.
  destruct desc; lia.
Qed.

Lemma filters_sublist (fs : list (record -> bool)) : forall data,
  foldl (fun results filter => List.filter filter results) data fs `sublist_of` data.
Proof.
  induction fs as [|f fs IH]; intros data; cbn; [reflexivity|].
  etransitivity; [apply IH|]. clear IH.
  induction data as [|x data IH]; cbn; [constructor|].
  destruct (f x); [apply sublist_skip, IH|apply sublist_cons, IH].
Qed.

Lemma sorts_spec (keys : list (string * bool)) (base : list record) :
  Forall (fun r : record => Forall (fun k => is_Some (r !! k.1)) keys) base ->
  let result :=
    foldl (fun results '(key, desc) => js_sort (Queryable.compareByKey key desc) results)
      base keys in
  result ≡ₚ base /\ StronglySorted (ordered_by (rev keys)) result.
Proof.
  induction keys as [|[key desc] keys IH] using rev_ind; intros Hall; cbn zeta.
  - split; [reflexivity|]. cbn. clear Hall.
    induction base as [|x base IHb]; constructor; [exact IHb|].
    apply Forall_forall. intros y _. exact I.
  - rewrite foldl_app, rev_unit. cbn [foldl].
    assert (Hkeys : Forall (fun r : record => Forall (fun k => is_Some (r !! k.1)) keys) base).
    { eapply Forall_impl; [exact Hall|]. intros r Hr. apply Forall_app in Hr. apply Hr. }
    assert (Hkey : Forall (fun r : record => is_Some (r !! key)) base).
    { eapply Forall_impl; [exact Hall|]. intros r Hr. apply Forall_app in Hr as [_ Hr].
      apply Forall_cons in Hr as [Hr _]. exact Hr. }
    destruct (IH Hkeys) as [Hperm Hsorted]. cbn zeta in *.
    split; [rewrite js_sort_perm; exact Hperm|].
    apply (js_sort_lex (Queryable.compareByKey key desc)
             (fun r : record => is_Some (r !! key)) (ordered_by (rev keys))
             (compareByKey_trans key desc) (compareByKey_total key desc)).
    + rewrite Hperm. exact Hkey.
    + exact Hsorted.
Qed.

(** X21. [toArray] sorts by the sort keys one after the other, and each
    sort is stable: of a query that is neither paged nor projected, the
    result holds the records that pass the filters, ordered by the key given
    last, the ties of a key being ordered by the keys given before it. *)
Theorem last_sort_key_leads loadRelations q data :
  Queryable.skipCount q = 0 -> Queryable.takeCount q = None ->
  Queryable.includeRelations q = [] -> Queryable.selectFields q = None ->
  Forall (fun r : record => Forall (fun k => is_Some (r !! k.1)) (Queryable.sortKeys q))
    data ->
  let result := Queryable.toArray loadRelations q data in
  result ≡ₚ
    foldl (fun results filter => List.filter filter results) data (Queryable.filters q) /\
  StronglySorted (ordered_by (rev (Queryable.sortKeys q))) result.
Proof.
  intros Hs Ht Hi Hsel Hall result.
  assert (E : result =
            foldl (fun results '(key, desc) =>
                     js_sort (Queryable.compareByKey key desc) results)
              (foldl (fun results filter => List.filter filter results) data
                 (Queryable.filters q))
              (Queryable.sortKeys q)).
  { unfold result, Queryable.toArray. rewrite Hs, Ht, Hi, Hsel. reflexivity. }
  rewrite E. apply sorts_spec.
  pose proof (filters_sublist (Queryable.filters q) data) as Hsub.
  rewrite Forall_forall in Hall |- *. intros r Hr. apply Hall.
  eapply elem_of_sublist; eassumption.
Qed.

(** ** Filters and projection *)

Lemma sorts_filter (p : record -> bool) : forall (keys : list (string * bool)) base,
  Forall (fun r : record => Forall (fun k => is_Some (r !! k.1)) keys) base ->
  foldl (fun results '(key, desc) => js_sort (Queryable.compareByKey key desc) results)
    (List.filter p base) keys =
  List.filter p
    (foldl (fun results '(key, desc) => js_sort (Queryable.compareByKey key desc) results)
       base keys).
Proof.
  induction keys as [|[key desc] keys IH]; intros base Hall; [reflexivity|].
  cbn [foldl].
  assert (Hkey : Forall (fun r : record => is_Some (r !! key)) base).
  { eapply Forall_impl; [exact Hall|]. intros r Hr.
    apply Forall_cons in Hr as [Hr _]. exact Hr. }
  rewrite <- (filter_js_sort _ (fun r : record => is_Some (r !! key))
                (compareByKey_trans key desc) (compareByKey_total key desc)) by exact Hkey.
  apply IH. rewrite js_sort_perm.
  eapply Forall_impl; [exact Hall|]. intros r Hr.
  apply Forall_cons in Hr as [_ Hr]. exact Hr.
Qed.

(** X22. Of a query that is neither paged nor projected, over records that
    all have the fields it sorts by, [where] narrows the result: with one
    more filter the result holds the records of the former result that pass
    it, in the order they had, whether the filter is given before the sort
    keys or after them. *)
Theorem where_narrows_the_result loadRelations q data predicate :
  Queryable.skipCount q = 0 -> Queryable.takeCount q = None ->
  Queryable.includeRelations q = [] -> Queryable.selectFields q = None ->
  Forall (fun r : record => Forall (fun k => is_Some (r !! k.1)) (Queryable.sortKeys q))
    data ->
  Queryable.toArray loadRelations (Queryable.where_ predicate q) data =
    List.filter predicate (Queryable.toArray loadRelations q data) /\
  (forall key,
     Queryable.where_ predicate (Queryable.orderBy key q) =
     Queryable.orderBy key (Queryable.where_ predicate q)) /\
  Forall (fun r => predicate r = true)
    (Queryable.toArray loadRelations (Queryable.where_ predicate q) data).
Proof.
  intros Hs Ht Hi Hsel Hall.
  assert (E : Queryable.toArray loadRelations (Queryable.where_ predicate q) data =
              List.filter predicate (Queryable.toArray loadRelations q data)).
  { unfold Queryable.toArray. cbn. rewrite Hs, Ht, Hi, Hsel. cbn.
    rewrite foldl_app. cbn [foldl]. apply sorts_filter.
    pose proof (filters_sublist (Queryable.filters q) data) as Hsub.
    rewrite Forall_forall in Hall |- *. intros r Hr. apply Hall.
    eapply elem_of_sublist; eassumption. }
  split; [exact E|]. split; [reflexivity|].
  rewrite E. apply Forall_forall. intros r Hr.
  apply list_elem_of_In, filter_In in Hr as [_ Hr]. exact Hr.
Qed.

Lemma project_lookup fields (item : record) field :
  Queryable.project fields item !! field =
  if decide (field ∈ fields) then item !! field else None.
Proof.
  unfold Queryable.project.
  assert (Hgen : forall acc : record,
            foldl (fun projected f =>
                     match item !! f with
                     | Some v => <[f := v]> projected
                     | None => projected
                     end) acc fields !! field =
            if decide (field ∈ fields) then
              match item !! field with Some v => Some v | None => acc !! field end
            else acc !! field).
  { induction fields as [|f fields IH]; intros acc; cbn [foldl].
    - rewrite decide_False by apply not_elem_of_nil. reflexivity.
    - rewrite IH. destruct (decide (field ∈ fields)) as [Hin|Hnin].
      + rewrite decide_True by (right; exact Hin).
        destruct (item !! field) as [v|] eqn:Hv; [reflexivity|].
        destruct (item !! f) as [v|] eqn:Hf; [|reflexivity].
        apply lookup_insert_ne. intros ->. congruence.
      + destruct (decide (field = f)) as [->|Hne].
        * rewrite decide_True by left.
          destruct (item !! f) as [v|]; [apply lookup_insert_eq|reflexivity].
        * rewrite decide_False by (rewrite not_elem_of_cons; tauto).
          destruct (item !! f) as [v|]; [|reflexivity].
          apply lookup_insert_ne. intros E. apply Hne. symmetry. exact E. }
  rewrite Hgen. destruct (decide (field ∈ fields)); [|apply lookup_empty].
  destruct (item !! field); reflexivity.
Qed.

(** X23. [select] projects the result, and does so last: the result of a
    query with [select(fields)] is the result without it, record by record
    in the same order, each record reduced to the selected fields, with the
    values it has; a field that is not selected, or that the record does not
    have, reads as [undefined]. *)
Theorem select_projects_the_result loadRelations q data fields :
  Queryable.selectFields q = None ->
  let projected := Queryable.toArray loadRelations (Queryable.select fields q) data in
  let whole := Queryable.toArray loadRelations q data in
  projected = Queryable.project fields <$> whole /\
  length projected = length whole /\
  (forall (i : nat) r field, projected !! i = Some r ->
     exists item, whole !! i = Some item /\
       r !! field = if decide (field ∈ fields) then item !! field else None).
Proof.
  intros Hsel projected whole.
  assert (E : projected = Queryable.project fields <$> whole).
  { unfold projected, whole, Queryable.toArray. cbn. rewrite Hsel. reflexivity. }
  split; [exact E|]. split; [rewrite E; apply length_fmap|].
  intros i r field Hr. rewrite E, list_lookup_fmap in Hr.
  destruct (whole !! i) as [item|]; [|discriminate]. cbn in Hr. injection Hr as <-.
  exists item. split; [reflexivity|]. apply project_lookup.
Qed.

(** ** [first], [single], [any] and [all] *)

Lemma head_take {A} (l : list A) : head (take 1 l) = head l.
Proof. destruct l; reflexivity. Qed.

Lemma head_fmap {A B} (f : A -> B) (l : list A) : head (f <$> l) = f <$> head l.
Proof. destruct l; reflexivity. Qed.

(** X24. [first] returns the first record of the result and [null] when
    there is none; a [take] given before is overridden by it.  [single]
    returns the record of a result of one and fails on any other result, the
    empty one too. *)
Theorem first_and_single loadRelations q data :
  Queryable.takeCount q = None -> Queryable.includeRelations q = [] ->
  let result := Queryable.toArray loadRelations q data in
  Queryable.first loadRelations q data = head result /\
  (forall m, Queryable.first loadRelations (Queryable.take m q) data = head result) /\
  (forall defaultValue,
     Queryable.firstOrDefault loadRelations defaultValue q data =
     default defaultValue (head result)) /\
  (forall r, Queryable.single loadRelations q data = inl r <-> result = [r]) /\
  (result = [] ->
     Queryable.first loadRelations q data = None /\
     Queryable.single loadRelations q data =
       inr "Sequence contains more than one element"%string).
Proof.
  intros Ht Hi result.
  assert (Hfirst : Queryable.first loadRelations q data = head result).
  { unfold Queryable.first, result, Queryable.toArray. cbn. rewrite Ht, Hi. cbn.
    set (base := if 0 <? Queryable.skipCount q then _ else _).
    rewrite js_slice_take by lia. change (Z.to_nat 1) with 1%nat.
    destruct (Queryable.selectFields q) as [fields|];
      rewrite ?head_fmap, head_take, ?head_fmap; reflexivity. }
  split; [exact Hfirst|]. split; [intros m; exact Hfirst|]. split.
  { intros d. unfold Queryable.firstOrDefault. rewrite Hfirst. reflexivity. }
  split.
  - intros r. unfold Queryable.single. fold result.
    destruct result as [|x [|y rest]]; split; intros E; try discriminate.
    + injection E as ->. reflexivity.
    + injection E as ->. reflexivity.
  - intros E. rewrite Hfirst. unfold Queryable.single. fold result. rewrite E.
    split; reflexivity.
Qed.

(** X25. Of a query that is neither paged nor projected, [any(p)] tells
    whether some record of the result passes [p], [any()] whether the result
    holds a record at all, and [all(p)] whether every record passes: [all(p)]
    holds exactly when [any] of the negated test does not. *)
Theorem any_and_all loadRelations q data predicate :
  Queryable.skipCount q = 0 -> Queryable.takeCount q = None ->
  Queryable.includeRelations q = [] -> Queryable.selectFields q = None ->
  Forall (fun r : record => Forall (fun k => is_Some (r !! k.1)) (Queryable.sortKeys q))
    data ->
  let result := Queryable.toArray loadRelations q data in
  Queryable.any loadRelations (Some predicate) q data = existsb predicate result /\
  Queryable.any loadRelations None q data = negb (bool_decide (result = [])) /\
  Queryable.all loadRelations predicate q data = forallb predicate result /\
  Queryable.all loadRelations predicate q data =
    negb (Queryable.any loadRelations (Some (fun r => negb (predicate r))) q data) /\
  Queryable.count loadRelations q data = length result.
Proof.
  intros Hs Ht Hi Hsel Hall result.
  assert (Hany : forall p, Queryable.any loadRelations (Some p) q data = existsb p result).
  { intros p. unfold Queryable.any.
    assert (E : Queryable.toArray loadRelations (Queryable.where_ p q) data =
                List.filter p result).
    { unfold result, Queryable.toArray. cbn. rewrite Hs, Ht, Hi, Hsel. cbn.
      rewrite foldl_app. cbn [foldl]. apply sorts_filter.
      pose proof (filters_sublist (Queryable.filters q) data) as Hsub.
      rewrite Forall_forall in Hall |- *. intros r Hr. apply Hall.
      eapply elem_of_sublist; eassumption. }
    rewrite E. clear. induction result as [|x l IH]; [reflexivity|]. cbn.
    destruct (p x); [reflexivity|exact IH]. }
  split; [apply Hany|]. split.
  { unfold Queryable.any. fold result. destruct result; reflexivity. }
  split; [reflexivity|]. split; [|reflexivity].
  rewrite Hany. unfold Queryable.all. fold result. clear.
  induction result as [|x l IH]; [reflexivity|]. cbn. rewrite IH.
  destruct (predicate x); reflexivity.
Qed.

(** ** The further properties at work on the sample runs *)

Lemma index_files_left_alone_witness :
  exists st',
    run save_and_flush s_indexed = Some st' /\
    disk st' !! indexPath (dataDir st') "products" "price" =
    disk s_indexed !! indexPath (dataDir s_indexed) "products" "price".
Proof.
  destruct (run save_and_flush s_indexed) as [st'|] eqn:Hrun;
    [|vm_compute in Hrun; discriminate Hrun].
  exists st'. split; [reflexivity|].
  apply (index_files_left_alone save_and_flush s_indexed st' Hrun).
Defined.

Lemma s_waiting_reachable : reachable s_waiting.
Proof.
  exists "data"%string, h0, ∅,
    [SaveData "products" 0 1000; SaveData "tags" 1 1001; GetData "orders" 5].
  vm_compute. reflexivity.
Defined.

Lemma waiting_reads_are_in_flight_witness :
  reachable s_waiting /\
  pendingReads s_waiting = [("orders"%string, 0%nat)] /\
  (getData "orders" 6 s_waiting).2 = Later 0 /\
  pending_in_flight s_waiting /\
  loads (getData "orders" 6 s_waiting).1 !! 0%nat =
    Some {| ltable := "orders"; lstate := None |} /\
  forall fault now', is_Some (load_settled 0 fault now' (getData "orders" 6 s_waiting).1).
Proof.
  assert (Hans : (getData "orders" 6 s_waiting).2 = Later 0) by (vm_compute; reflexivity).
  split; [exact s_waiting_reachable|].
  split; [vm_compute; reflexivity|]. split; [exact Hans|].
  destruct (waiting_reads_are_in_flight s_waiting "orders" 6 s_waiting_reachable)
    as [Hp Hl].
  split; [exact Hp|]. exact (Hl 0%nat Hans).
Defined.

Lemma one_load_in_flight_witness :
  Forall (fun ev => is_Close ev = false) [GetData "tags" 1; GetData "tags" 2] /\
  exists st,
    run [GetData "tags" 1; GetData "tags" 2] (connected "data" h0 ∅) = Some st /\
    forall p q t,
      loads st !! p = Some {| ltable := t; lstate := None |} ->
      loads st !! q = Some {| ltable := t; lstate := None |} -> p = q.
Proof.
  assert (Hevs : Forall (fun ev => is_Close ev = false) [GetData "tags" 1; GetData "tags" 2])
    by (repeat constructor).
  split; [exact Hevs|].
  destruct (run [GetData "tags" 1; GetData "tags" 2] (connected "data" h0 ∅))
    as [st|] eqn:Hrun; [|vm_compute in Hrun; discriminate Hrun].
  exists st. split; [reflexivity|].
  apply (one_load_in_flight "data" h0 ∅ _ st Hevs Hrun).
Defined.


Lemma cached_arrays_are_frozen_witness :
  reachable s2 /\
  JsMap.get (cache s2) "products" =
    Some {| data := 2; version := 1; lastAccess := 1000 |} /\
  is_frozen (mem s2) 2 = true.
Proof.
  assert (He : JsMap.get (cache s2) "products" =
               Some {| data := 2; version := 1; lastAccess := 1000 |})
    by (vm_compute; reflexivity).
  split; [exact s2_reachable|]. split; [exact He|].
  apply (cached_arrays_are_frozen s2 "products" _ s2_reachable He).
Defined.

Lemma flushes_take_writes_witness :
  reachable s2 /\ (writeTimer s2 = true <-> writeQueue s2 <> []).
Proof.
  split; [exact s2_reachable|]. apply (flushes_take_writes s2 s2_reachable).
Defined.

Lemma s_flushed_reachable : reachable s_flushed.
Proof.
  exists "data"%string, h0, ∅, save_and_flush. vm_compute. reflexivity.
Defined.

Lemma notified_tables_have_files_witness :
  reachable s_flushed /\
  forall t, t ∈ emitted s_flushed ->
    is_Some (disk s_flushed !! filePath (dataDir s_flushed) t).
Proof.
  split; [exact s_flushed_reachable|].
  apply (notified_tables_have_files s_flushed s_flushed_reachable).
Defined.

Lemma s0_reachable : reachable s0.
Proof. exists "data"%string, h0, ∅, []. reflexivity. Defined.

Lemma cache_hit_defers_eviction_witness :
  invariant s2 /\
  JsMap.get (cache s2) "products" =
    Some {| data := 2; version := 1; lastAccess := 1000 |} /\
  JsMap.get (cache (saveData "orders" 1 2001 (getData "products" 2000 s2).1)) "products" =
    Some {| data := 2; version := 1; lastAccess := 2000 |}.
Proof.
  assert (Hinv : invariant s2) by apply (invariant_reachable s2 s2_reachable).
  assert (He : JsMap.get (cache s2) "products" =
               Some {| data := 2; version := 1; lastAccess := 1000 |})
    by (vm_compute; reflexivity).
  split; [exact Hinv|]. split; [exact He|].
  assert (Hold : forall k e', (k, e') ∈ cache s2 -> k <> "products"%string ->
                   lastAccess e' < 2000).
  { intros k e' Hin Hne.
    assert (Hc : cache s2 = [("products"%string, {| data := 2; version := 1; lastAccess := 1000 |});
                             ("tags"%string, {| data := 3; version := 2; lastAccess := 1001 |})])
      by (vm_compute; reflexivity).
    rewrite Hc in Hin. apply elem_of_cons in Hin as [E|Hin].
    - injection E as -> ->. cbn. lia.
    - apply list_elem_of_singleton in Hin. injection Hin as -> ->. cbn. lia. }
  assert (Hne : "orders"%string <> "products"%string) by discriminate.
  apply (cache_hit_defers_eviction s2 "products" _ 2000 "orders" 1 2001 Hinv He Hold Hne).
Defined.

Lemma connect_preloads_witness :
  cache s_created = [] /\
  cfg_preload sample_config = Some ["products"; "tags"]%string /\
  sample_settles.*1.*1 ≡ₚ ["products"; "tags"]%string /\
  NoDup ["products"; "tags"]%string /\
  (length ["products"; "tags"]%string <= 50)%nat /\
  answered (getData "tags" 5 (connect sample_config None sample_settles s_created).1) =
    Some [r3].
Proof.
  assert (Hc : cache s_created = []) by reflexivity.
  assert (Hp : cfg_preload sample_config = Some ["products"; "tags"]%string) by reflexivity.
  assert (Hperm : sample_settles.*1.*1 ≡ₚ ["products"; "tags"]%string) by apply perm_swap.
  assert (Hnd : NoDup ["products"; "tags"]%string)
    by (apply (bool_decide_unpack _); vm_compute; exact I).
  assert (Hlen : (length ["products"; "tags"]%string <= 50)%nat) by (cbn; lia).
  repeat (split; [assumption|]).
  destruct (connect_preloads sample_config sample_settles s_created _ Hc Hp Hperm Hnd Hlen)
    as (_ & _ & _ & _ & _ & Hans & _).
  rewrite (Hans "tags"%string None 2); [vm_compute; reflexivity|]. left.
Defined.


Lemma addRange_is_repeated_add_witness :
  Forall (fun entity : record => DbSet.falsy (entity !! "id"%string) = true)
    [{[ "price"%string := 5 ]}; {[ "price"%string := 6 ]}] /\
  DbSet.maxId "id" [r1; r2] + 2 <= 2 ^ 53 /\
  (DbSet.addRange "id" [{[ "price"%string := 5 ]}; {[ "price"%string := 6 ]}] [r1; r2]).1 =
    [<[ "id"%string := 3 ]> {[ "price"%string := 5 ]};
     <[ "id"%string := 4 ]> {[ "price"%string := 6 ]}] /\
  (DbSet.addRange "id" [{[ "price"%string := 5 ]}; {[ "price"%string := 6 ]}] [r1; r2]).2 =
  [r1; r2] ++
  (DbSet.addRange "id" [{[ "price"%string := 5 ]}; {[ "price"%string := 6 ]}] [r1; r2]).1.
Proof.
  assert (H : Forall (fun entity : record => DbSet.falsy (entity !! "id"%string) = true)
                [{[ "price"%string := 5 ]}; {[ "price"%string := 6 ]}])
    by (repeat constructor).
  assert (Hb : DbSet.maxId "id" [r1; r2] + 2 <= 2 ^ 53) by (vm_compute; discriminate).
  split; [exact H|]. split; [exact Hb|].
  destruct (addRange_is_repeated_add "id" _ [r1; r2] H Hb) as (_ & H2 & H3).
  split; [exact H2|exact H3].
Defined.

Lemma paging_slices_the_result_witness :
  Queryable.includeRelations by_price = [] /\
  Queryable.skipCount by_price = 0 /\ Queryable.takeCount by_price = None /\
  0 <= 1 /\
  Queryable.toArray no_relations (Queryable.take 1 (Queryable.skip 1 by_price)) [r1; r2; r3] =
  take 1 (drop 1 (Queryable.toArray no_relations by_price [r1; r2; r3])).
Proof.
  assert (Hi : Queryable.includeRelations by_price = []) by reflexivity.
  assert (Hs : Queryable.skipCount by_price = 0) by reflexivity.
  assert (Ht : Queryable.takeCount by_price = None) by reflexivity.
  assert (Hn : 0 <= 1) by lia.
  repeat (split; [assumption|]).
  apply (paging_slices_the_result no_relations by_price [r1; r2; r3] 1 1 Hi Hs Ht Hn Hn).
Defined.

Lemma sample_has_price :
  Forall (fun r : record => Forall (fun k : string * bool => is_Some (r !! k.1))
                              (Queryable.sortKeys by_price)) [r1; r2; r3].
Proof. repeat constructor; vm_compute; eauto. Defined.

Lemma last_sort_key_leads_witness :
  Queryable.skipCount by_price = 0 /\ Queryable.takeCount by_price = None /\
  Queryable.includeRelations by_price = [] /\ Queryable.selectFields by_price = None /\
  Forall (fun r : record => Forall (fun k : string * bool => is_Some (r !! k.1))
                              (Queryable.sortKeys by_price)) [r1; r2; r3] /\
  StronglySorted (ordered_by (rev (Queryable.sortKeys by_price)))
    (Queryable.toArray no_relations by_price [r1; r2; r3]).
Proof.
  repeat (split; [first [reflexivity|exact sample_has_price]|]).
  apply (last_sort_key_leads no_relations by_price [r1; r2; r3] eq_refl eq_refl eq_refl
           eq_refl sample_has_price).
Defined.

Lemma where_narrows_the_result_witness :
  Queryable.skipCount by_price = 0 /\ Queryable.takeCount by_price = None /\
  Queryable.includeRelations by_price = [] /\ Queryable.selectFields by_price = None /\
  Forall (fun r : record => Forall (fun k : string * bool => is_Some (r !! k.1))
                              (Queryable.sortKeys by_price)) [r1; r2; r3] /\
  Queryable.toArray no_relations (Queryable.where_ cheap by_price) [r1; r2; r3] =
  List.filter cheap (Queryable.toArray no_relations by_price [r1; r2; r3]).
Proof.
  repeat (split; [first [reflexivity|exact sample_has_price]|]).
  apply (where_narrows_the_result no_relations by_price [r1; r2; r3] cheap eq_refl eq_refl
           eq_refl eq_refl sample_has_price).
Defined.

Lemma select_projects_the_result_witness :
  Queryable.selectFields by_price = None /\
  Queryable.toArray no_relations (Queryable.select ["id"%string] by_price) [r1; r2; r3] =
  Queryable.project ["id"%string] <$> Queryable.toArray no_relations by_price [r1; r2; r3].
Proof.
  split; [reflexivity|].
  apply (select_projects_the_result no_relations by_price [r1; r2; r3] ["id"%string] eq_refl).
Defined.

Lemma first_and_single_witness :
  Queryable.takeCount by_price = None /\ Queryable.includeRelations by_price = [] /\
  Queryable.first no_relations by_price [r1; r2; r3] =
  head (Queryable.toArray no_relations by_price [r1; r2; r3]).
Proof.
  split; [reflexivity|]. split; [reflexivity|].
  apply (first_and_single no_relations by_price [r1; r2; r3] eq_refl eq_refl).
Defined.

Lemma any_and_all_witness :
  Queryable.skipCount by_price = 0 /\ Queryable.takeCount by_price = None /\
  Queryable.includeRelations by_price = [] /\ Queryable.selectFields by_price = None /\
  Forall (fun r : record => Forall (fun k : string * bool => is_Some (r !! k.1))
                              (Queryable.sortKeys by_price)) [r1; r2; r3] /\
  Queryable.any no_relations (Some cheap) by_price [r1; r2; r3] =
  existsb cheap (Queryable.toArray no_relations by_price [r1; r2; r3]).
Proof.
  repeat (split; [first [reflexivity|exact sample_has_price]|]).
  apply (any_and_all no_relations by_price [r1; r2; r3] cheap eq_refl eq_refl
           eq_refl eq_refl sample_has_price).
Defined.

Lemma flush_writes_what_it_took_witness :
  exists st' f,
    run [SaveData "products" 1 2000; MutateArray 0 []] (flushWrites false s2) = Some st' /\
    flushes st' !! length (flushes s2) = Some f /\
    (fun w => (wtable w, wtext w)) <$> writes f = batch s2.
Proof.
  destruct (run [SaveData "products" 1 2000; MutateArray 0 []] (flushWrites false s2))
    as [st'|] eqn:Hrun; [|vm_compute in Hrun; discriminate Hrun].
  destruct (flush_writes_what_it_took s2 false _ st' Hrun) as (f & H1 & H2 & _).
  exists st', f. split; [reflexivity|]. split; assumption.
Defined.

(** ** The write lock *)

Lemma chained_new : WriteLock.chained WriteLock.new.
Proof.
  split; [reflexivity|]. split; [reflexivity|]. split; [reflexivity|].
  intros k c H. destruct k; discriminate H.
Qed.

Lemma chained_withWriteLock s :
  WriteLock.chained s -> WriteLock.chained (WriteLock.withWriteLock s).
Proof.
  intros (Hlen & Hw & H0 & Hc). unfold WriteLock.chained, WriteLock.withWriteLock. cbn.
  rewrite !length_app. cbn. split; [lia|]. split; [lia|]. split.
  - rewrite lookup_app_l by (rewrite Hlen; lia). exact H0.
  - intros k c Hk. apply lookup_app_Some in Hk as [Hk|[Hge Hk]].
    + destruct (Hc k c Hk) as (Ha & Hb & Hp & He).
      pose proof (lookup_lt_Some _ _ _ Hk) as Hlt.
      repeat split; try assumption.
      * rewrite lookup_app_l by lia. exact Hp.
      * intros Hne j cj Hj Hcj. cbn in Hcj.
        rewrite lookup_app_l in Hcj by lia. exact (He Hne j cj Hj Hcj).
    + apply list_lookup_singleton_Some in Hk as [Hk <-]. cbn.
      assert (k = length (WriteLock.calls s)) as -> by lia.
      repeat split; try lia.
      * rewrite lookup_app_r by lia. rewrite Hlen, Nat.sub_diag. reflexivity.
      * intros Hne. contradiction.
Qed.

Lemma calls_set_stage k g s j :
  WriteLock.calls (WriteLock.set_stage k g s) !! j =
  if decide (j = k)
  then (fun c => {| WriteLock.currentLock := WriteLock.currentLock c;
                    WriteLock.resolver := WriteLock.resolver c;
                    WriteLock.at_stage := g |}) <$> WriteLock.calls s !! j
  else WriteLock.calls s !! j.
Proof.
  unfold WriteLock.set_stage. cbn. rewrite list_lookup_alter.
  destruct (decide (k = j)), (decide (j = k)); subst; congruence.
Qed.

Lemma chained_resume k s s' :
  WriteLock.chained s -> WriteLock.resume k s = Some s' -> WriteLock.chained s'.
Proof.
  intros (Hlen & Hw & H0 & Hc) Hr. unfold WriteLock.resume in Hr.
  destruct (WriteLock.calls s !! k) as [c|] eqn:Hk; [|discriminate Hr]. cbn in Hr.
  destruct (WriteLock.at_stage c) eqn:Hg; try discriminate Hr.
  destruct (WriteLock.promises s !! WriteLock.currentLock c) as [[|]|] eqn:Hp;
    try discriminate Hr.
  injection Hr as <-.
  destruct (Hc k c Hk) as (Ha & Hb & Hpk & _). rewrite Ha in Hp.
  (* every call before [k] has settled *)
  assert (Hearlier : WriteLock.earlier_settled k s).
  { destruct k as [|k']; [intros j cj Hj; lia|].
    pose proof (lookup_lt_Some _ _ _ Hk) as Hlt.
    destruct (lookup_lt_is_Some_2 (WriteLock.calls s) k' ltac:(lia)) as [c' Hk'].
    destruct (Hc k' c' Hk') as (_ & _ & Hp' & He').
    rewrite Hp in Hp'. injection Hp' as Hs'.
    intros j cj Hj Hcj. destruct (decide (j = k')) as [->|Hne].
    - rewrite Hk' in Hcj. injection Hcj as <-. symmetry. exact Hs'.
    - apply (He' ltac:(intros E; rewrite E in Hs'; discriminate Hs') j cj); [lia|exact Hcj]. }
  unfold WriteLock.chained.
  assert (Hl : length (WriteLock.calls (WriteLock.set_stage k WriteLock.Running s)) =
               length (WriteLock.calls s))
    by (unfold WriteLock.set_stage; cbn; apply length_alter).
  rewrite Hl. change (WriteLock.promises (WriteLock.set_stage k WriteLock.Running s))
    with (WriteLock.promises s).
  change (WriteLock.writeLock (WriteLock.set_stage k WriteLock.Running s))
    with (WriteLock.writeLock s).
  repeat split; try assumption.
  all: rewrite calls_set_stage in H; destruct (decide (k0 = k)) as [->|Hne].
  all: try (rewrite Hk in H; cbn in H; injection H as <-; cbn).
  all: try (destruct (Hc k0 c0 H) as (Ha0 & Hb0 & Hp0 & He0)).
  all: try assumption.
  - rewrite Hpk, Hg. reflexivity.
  - intros _ j cj Hj Hcj. rewrite calls_set_stage in Hcj.
    destruct (decide (j = k)) as [->|Hnj]; [lia|]. exact (Hearlier j cj Hj Hcj).
  - intros Hne0 j cj Hj Hcj. rewrite calls_set_stage in Hcj.
    destruct (decide (j = k)) as [->|Hnj].
    + (* call [k] was waiting, so no later call had started *)
      exfalso. rewrite Hk in Hcj. cbn in Hcj.
      pose proof (He0 Hne0 k c Hj Hk) as Hs. rewrite Hg in Hs. discriminate Hs.
    + exact (He0 Hne0 j cj Hj Hcj).
Qed.

Lemma chained_settle k threw s s' :
  WriteLock.chained s -> WriteLock.settle k threw s = Some s' -> WriteLock.chained s'.
Proof.
  intros (Hlen & Hw & H0 & Hc) Hr. unfold WriteLock.settle in Hr.
  destruct (WriteLock.calls s !! k) as [c|] eqn:Hk; [|discriminate Hr]. cbn in Hr.
  destruct (WriteLock.at_stage c) eqn:Hg; try discriminate Hr.
  injection Hr as <-.
  destruct (Hc k c Hk) as (Ha & Hb & Hpk & Hek). rewrite Hb.
  set (g := if threw then WriteLock.Threw else WriteLock.Returned).
  assert (Hsg : WriteLock.settled g = true) by (unfold g; destruct threw; reflexivity).
  assert (Hgw : g <> WriteLock.Waiting) by (unfold g; destruct threw; discriminate).
  unfold WriteLock.chained, WriteLock.resolve. cbn.
  rewrite length_insert, length_alter.
  repeat split; try assumption.
  - rewrite list_lookup_insert_ne by lia. exact H0.
  - pose proof (calls_set_stage k g s k0) as E. unfold WriteLock.set_stage in E. cbn in E.
    rewrite E in H. destruct (decide (k0 = k)) as [->|Hne].
    + rewrite Hk in H. cbn in H. injection H as <-. cbn. exact Ha.
    + apply (Hc k0 c0 H).
  - pose proof (calls_set_stage k g s k0) as E. unfold WriteLock.set_stage in E. cbn in E.
    rewrite E in H. destruct (decide (k0 = k)) as [->|Hne].
    + rewrite Hk in H. cbn in H. injection H as <-. cbn. exact Hb.
    + apply (Hc k0 c0 H).
  - pose proof (calls_set_stage k g s k0) as E. unfold WriteLock.set_stage in E. cbn in E.
    rewrite E in H. destruct (decide (k0 = k)) as [->|Hne].
    + rewrite Hk in H. cbn in H. injection H as <-. cbn.
      rewrite Hsg. apply list_lookup_insert_eq.
      pose proof (lookup_lt_Some _ _ _ Hk). lia.
    + rewrite list_lookup_insert_ne by lia. apply (Hc k0 c0 H).
  - pose proof (calls_set_stage k g s k0) as E. unfold WriteLock.set_stage in E. cbn in E.
    rewrite E in H. intros Hne0 j cj Hj Hcj. cbn in Hcj.
    pose proof (calls_set_stage k g s j) as Ej. unfold WriteLock.set_stage in Ej. cbn in Ej.
    rewrite Ej in Hcj.
    assert (Hold : forall j cj, (j < k0)%nat -> j <> k ->
                     WriteLock.calls s !! j = Some cj ->
                     WriteLock.settled (WriteLock.at_stage cj) = true).
    { intros j' cj' Hj' Hnk Hcj'. destruct (decide (k0 = k)) as [->|Hne].
      - exact (Hek ltac:(rewrite Hg; discriminate) j' cj' Hj' Hcj').
      - destruct (Hc k0 c0 H) as (_ & _ & _ & He0). exact (He0 Hne0 j' cj' Hj' Hcj'). }
    destruct (decide (j = k)) as [->|Hnj].
    + rewrite Hk in Hcj. cbn in Hcj. injection Hcj as <-. cbn. exact Hsg.
    + exact (Hold j cj Hj Hnj Hcj).
Qed.

Lemma chained_run es s s' :
  WriteLock.chained s -> WriteLock.run es s = Some s' -> WriteLock.chained s'.
Proof.
  revert s. induction es as [|e es IH]; intros s Hs Hrun; cbn in Hrun.
  - injection Hrun as <-. exact Hs.
  - destruct (WriteLock.step e s) as [s1|] eqn:He; [|discriminate Hrun]. cbn in Hrun.
    apply (IH s1); [|exact Hrun]. destruct e; cbn in He.
    + injection He as <-. apply chained_withWriteLock, Hs.
    + eapply chained_resume; eassumption.
    + eapply chained_settle; eassumption.
Qed.

(** X26. The operations of a table set run one at a time, in the order
    they were called.  In every state the calls of [withWriteLock] can
    reach, a call whose operation has started finds every earlier call past
    its operation, returned or thrown; so no two operations are running at
    once. *)
Theorem write_lock_serialises (es : list WriteLock.event) (s : WriteLock.t) :
  WriteLock.run es WriteLock.new = Some s ->
  (forall k c, WriteLock.calls s !! k = Some c ->
     WriteLock.at_stage c <> WriteLock.Waiting -> WriteLock.earlier_settled k s) /\
  (forall j k cj ck,
     WriteLock.calls s !! j = Some cj -> WriteLock.calls s !! k = Some ck ->
     WriteLock.at_stage cj = WriteLock.Running ->
     WriteLock.at_stage ck = WriteLock.Running -> j = k).
Proof.
  intros Hrun. pose proof (chained_run es _ s chained_new Hrun) as (_ & _ & _ & Hc).
  assert (H1 : forall k c, WriteLock.calls s !! k = Some c ->
     WriteLock.at_stage c <> WriteLock.Waiting -> WriteLock.earlier_settled k s).
  { intros k c Hk. apply (Hc k c Hk). }
  split; [exact H1|].
  intros j k cj ck Hj Hk Hgj Hgk.
  destruct (Nat.lt_trichotomy j k) as [Hlt|[Heq|Hlt]]; [|exact Heq|].
  - pose proof (H1 k ck Hk ltac:(rewrite Hgk; discriminate) j cj Hlt Hj) as Hs.
    rewrite Hgj in Hs. discriminate Hs.
  - pose proof (H1 j cj Hj ltac:(rewrite Hgj; discriminate) k ck Hlt Hk) as Hs.
    rewrite Hgk in Hs. discriminate Hs.
Qed.

Lemma write_lock_serialises_witness :
  exists s,
    WriteLock.run three_calls WriteLock.new = Some s /\
    (forall k c, WriteLock.calls s !! k = Some c ->
       WriteLock.at_stage c <> WriteLock.Waiting -> WriteLock.earlier_settled k s) /\
    (forall j k cj ck,
       WriteLock.calls s !! j = Some cj -> WriteLock.calls s !! k = Some ck ->
       WriteLock.at_stage cj = WriteLock.Running ->
       WriteLock.at_stage ck = WriteLock.Running -> j = k).
Proof.
  destruct (WriteLock.run three_calls WriteLock.new) as [s|] eqn:Hrun;
    [|vm_compute in Hrun; discriminate Hrun].
  exists s. split; [reflexivity|].
  exact (write_lock_serialises three_calls s Hrun).
Defined.

(** X27. The lock is handed on when an operation ends, whether it returned
    or threw.  In every state the calls of [withWriteLock] can reach, a
    waiting call can go on to its operation exactly when every earlier call
    has returned or thrown. *)
Theorem write_lock_handed_on (es : list WriteLock.event) (s : WriteLock.t)
    (k : nat) (c : WriteLock.call) :
  WriteLock.run es WriteLock.new = Some s ->
  WriteLock.calls s !! k = Some c ->
  WriteLock.at_stage c = WriteLock.Waiting ->
  (WriteLock.resume k s = Some (WriteLock.set_stage k WriteLock.Running s) <->
   WriteLock.earlier_settled k s) /\
  (~ WriteLock.earlier_settled k s -> WriteLock.resume k s = None).
Proof.
  intros Hrun Hk Hg.
  pose proof (chained_run es _ s chained_new Hrun) as (Hlen & _ & H0 & Hc).
  destruct (Hc k c Hk) as (Ha & _ & _ & _).
  assert (Hiff : WriteLock.promises s !! k = Some true <-> WriteLock.earlier_settled k s).
  { destruct k as [|k'].
    - split; [intros _ j cj Hj; lia|intros _; exact H0].
    - pose proof (lookup_lt_Some _ _ _ Hk) as Hlt.
      destruct (lookup_lt_is_Some_2 (WriteLock.calls s) k' ltac:(lia)) as [c' Hk'].
      destruct (Hc k' c' Hk') as (_ & _ & Hp' & He'). rewrite Hp'. split.
      + intros Hs'. injection Hs' as Hs'. intros j cj Hj Hcj.
        destruct (decide (j = k')) as [->|Hne].
        * rewrite Hk' in Hcj. injection Hcj as <-. exact Hs'.
        * apply (He' ltac:(intros E; rewrite E in Hs'; discriminate Hs') j cj);
            [lia|exact Hcj].
      + intros He. rewrite (He k' c' ltac:(lia) Hk'). reflexivity. }
  unfold WriteLock.resume. rewrite Hk. cbn. rewrite Hg, Ha.
  destruct (WriteLock.promises s !! k) as [[|]|] eqn:Hp.
  - split; [split; [intros _; apply Hiff; reflexivity|reflexivity]|].
    intros Hn. exfalso. apply Hn, Hiff. reflexivity.
  - split; [split; [discriminate|]|reflexivity].
    intros He. apply Hiff in He. discriminate He.
  - split; [split; [discriminate|]|reflexivity].
    intros He. apply Hiff in He. discriminate He.
Qed.

Lemma write_lock_handed_on_witness :
  exists s c,
    WriteLock.run [WriteLock.Call; WriteLock.Call; WriteLock.Resume 0;
                   WriteLock.Settle 0 true] WriteLock.new = Some s /\
    WriteLock.calls s !! 1%nat = Some c /\
    WriteLock.at_stage c = WriteLock.Waiting /\
    (WriteLock.resume 1 s = Some (WriteLock.set_stage 1 WriteLock.Running s) <->
     WriteLock.earlier_settled 1 s) /\
    (~ WriteLock.earlier_settled 1 s -> WriteLock.resume 1 s = None).
Proof.
  destruct (WriteLock.run [WriteLock.Call; WriteLock.Call; WriteLock.Resume 0;
                           WriteLock.Settle 0 true] WriteLock.new) as [s|] eqn:Hrun;
    [|vm_compute in Hrun; discriminate Hrun].
  assert (Hs : Some s = Some (WriteLock.Build_t [true; true; false] 2
                         [WriteLock.Build_call 0 1 WriteLock.Threw;
                          WriteLock.Build_call 1 2 WriteLock.Waiting]))
    by (rewrite <- Hrun; reflexivity).
  injection Hs as Hs.
  assert (Hk : WriteLock.calls s !! 1%nat = Some (WriteLock.Build_call 1 2 WriteLock.Waiting))
    by (rewrite Hs; reflexivity).
  exists s, (WriteLock.Build_call 1 2 WriteLock.Waiting).
  split; [reflexivity|]. split; [exact Hk|]. split; [reflexivity|].
  exact (write_lock_handed_on _ s 1%nat _ Hrun Hk eq_refl).
Defined.

(** ** A table set over the provider *)

Lemma Forall_set_cache (P : string * CacheEntry -> Prop) c k v :
  Forall P c -> P (k, v) -> Forall P (JsMap.set c k v).
Proof.
  intros Hc Hv. apply Forall_forall. intros p Hp.
  apply elem_of_set in Hp as [->|Hp]; [exact Hv|].
  rewrite Forall_forall in Hc. apply Hc, Hp.
Qed.

Lemma Forall_evict (P : string * CacheEntry -> Prop) c : Forall P c -> Forall P (evict c).
Proof.
  intros Hc. apply Forall_forall. intros p Hp. apply elem_of_evict in Hp.
  rewrite Forall_forall in Hc. apply Hc, Hp.
Qed.

(** One [add] on a cached table. *)
Lemma add_cached primaryKey table entity now now' st d t0 :
  caches st table d t0 -> t0 <= now -> now <= now' ->
  exists st',
    Backed.add primaryKey table entity now now' st =
      Some (st', (DbSet.add primaryKey entity d).1) /\
    caches st' table (DbSet.add primaryKey entity d).2 now' /\
    queued st' table (DbSet.add primaryKey entity d).2.
Proof.
  intros (Hinv & Hclock & cached & Hget & Hvalid & Hderef) Ht0 Hnow.
  unfold Backed.add. pose proof (invariant_getData table now st Hinv) as Hinva.
  rewrite (getData_hit _ _ _ _ Hget) in *. cbn [fst] in Hinva.
  set (l := elems (mem st) (data cached)) in *.
  set (h := new_array false l (mem st)).
  set (ca := JsMap.set (cache st) table
               {| data := data cached; version := version cached; lastAccess := now |}) in *.
  set (sa := with_mem h (with_cache ca st)) in *.
  set (a1 := next_array (mem st)).
  assert (Hha1 : arrs h !! a1 = Some (false, l)) by apply new_array_lookup_new.
  assert (Hobjs : objs h = objs (mem st)) by reflexivity.
  assert (Hda : deref (mem sa) a1 = d).
  { rewrite <- Hderef. apply deref_same_elems; [apply elems_new_array|reflexivity]. }
  unfold Backed.add_on. rewrite Hda.
  set (n := (DbSet.add primaryKey entity d).1).
  assert (Hsaved : (DbSet.add primaryKey entity d).2 = d ++ [n]) by reflexivity.
  rewrite Hsaved.
  change (mem sa) with h.
  set (o := length (objs h)).
  assert (Hpush : Backed.push a1 n h =
                  {| objs := objs h ++ [n]; arrs := <[a1 := (false, l ++ [o])]> (arrs h) |}).
  { unfold Backed.push, mutate_array, is_frozen, elems. cbn [arrs objs].
    rewrite Hha1. reflexivity. }
  set (h1 := Backed.push a1 n h) in *.
  assert (Hlt : (a1 < length (arrs h))%nat) by (apply lookup_lt_Some in Hha1; exact Hha1).
  assert (Hel1 : elems h1 a1 = l ++ [o]).
  { unfold elems. rewrite Hpush. cbn [arrs]. rewrite list_lookup_insert_eq by exact Hlt.
    reflexivity. }
  assert (Hval1 : Forall (fun r => is_Some (objs h1 !! r)) (l ++ [o])).
  { rewrite Hpush. cbn [objs]. apply Forall_app. split.
    - eapply Forall_impl; [exact Hvalid|]. intros r [x Hx]. exists x.
      apply lookup_app_l_Some. rewrite Hobjs. exact Hx.
    - repeat constructor. exists n. apply list_lookup_middle. reflexivity. }
  assert (Hd1 : omap (fun r => objs h1 !! r) (l ++ [o]) = d ++ [n]).
  { rewrite Hpush. cbn [objs]. rewrite omap_app. f_equal.
    - rewrite <- Hderef. unfold deref. fold l.
      apply omap_lookup_prefix; [|exact Hvalid].
      rewrite Hobjs. apply prefix_app_r. reflexivity.
    - cbn. rewrite list_lookup_middle by reflexivity. reflexivity. }
  set (s1 := with_mem h1 sa).
  exists (saveData table a1 now' s1). split; [reflexivity|].
  assert (Hinv1 : invariant s1) by (apply invariant_with_mem, Hinva).
  assert (Hclock1 : Forall (fun p => lastAccess p.2 <= now') (cache s1)).
  { change (cache s1) with ca. apply Forall_set_cache; [|cbn; lia].
    eapply Forall_impl; [exact Hclock|]. cbn. intros p Hp. lia. }
  assert (Hmem : mem (saveData table a1 now' s1) = new_array true (l ++ [o]) h1).
  { rewrite saveData_mem. change (mem s1) with h1. rewrite Hel1. reflexivity. }
  assert (Hobjs' : objs (mem (saveData table a1 now' s1)) = objs h1)
    by (rewrite Hmem; reflexivity).
  split; [|split].
  - (* the cache *)
    split; [apply invariant_saveData, Hinv1|]. split.
    + rewrite saveData_cache, addToCache_cache.
      apply Forall_evict, Forall_set_cache; [exact Hclock1|cbn; lia].
    + eexists. split; [|split].
      * rewrite saveData_cache.
        apply (addToCache_resident table a1 now' (with_version (S (this_version s1)) s1));
          [apply (inv_cache_wf _ Hinv1)|apply (inv_cache_size _ Hinv1)|exact Hclock1].
      * cbn [data]. unfold valid_array. rewrite Hmem.
        change (mem (with_version (S (this_version s1)) s1)) with h1.
        rewrite elems_new_array. exact Hval1.
      * cbn [data]. unfold deref. rewrite Hmem.
        change (mem (with_version (S (this_version s1)) s1)) with h1.
        rewrite elems_new_array. exact Hd1.
  - apply saveData_queue.
  - exists a1. split.
    + rewrite (proj1 (saveData_queue table a1 now' s1)). apply get_set_eq.
    + rewrite Hmem. rewrite deref_new_array.
      * unfold deref. rewrite Hel1. exact Hd1.
      * unfold next_array. rewrite Hpush. cbn [arrs]. rewrite length_insert. exact Hlt.
Qed.

(** X28. An [add] on a cached table leaves the cache and the write queue
    with the table and the new entity at its end.  When the cache holds the
    table and the clock has not gone back, [add] answers with the new
    entity; afterwards the cache holds the records of the table followed by
    the new entity, the write queue holds the same records for the table
    and the flush is scheduled; and the next [getData] of the table answers
    at once with those records. *)
Theorem add_reaches_cache_and_queue primaryKey table entity now now' st d t0 :
  caches st table d t0 -> t0 <= now -> now <= now' ->
  let newEntity := (DbSet.add primaryKey entity d).1 in
  exists st',
    Backed.add primaryKey table entity now now' st = Some (st', newEntity) /\
    caches st' table (d ++ [newEntity]) now' /\
    queued st' table (d ++ [newEntity]) /\
    forall now'', exists st'' copy,
      getData table now'' st' = (st'', Now copy) /\
      deref (mem st'') copy = d ++ [newEntity].
Proof.
  intros Hc Ht0 Hnow newEntity.
  destruct (add_cached primaryKey table entity now now' st d t0 Hc Ht0 Hnow)
    as (st' & Hadd & Hc' & Hq').
  exists st'. split; [exact Hadd|]. split; [exact Hc'|]. split; [exact Hq'|].
  intros now''. destruct Hc' as (_ & _ & cached & Hget & _ & Hderef).
  eexists _, _. split; [apply getData_hit, Hget|].
  cbn [mem with_mem]. etransitivity; [|exact Hderef].
  apply deref_same_elems; [apply elems_new_array|reflexivity].
Qed.

(** X29. Entities added one after the other to a cached table, all without
    a primary key and the keys staying within [2 ^ 53], get the keys that
    follow the largest key of the table, one by one: no two of them share a
    key, and the cache and the write queue end with the table followed by
    all of them, in the order they were added. *)
Theorem adds_in_turn_number_on primaryKey table calls st d t0 :
  caches st table d t0 -> clock_runs_on t0 calls ->
  Forall (fun c => DbSet.falsy (c.1.1 !! primaryKey) = true) calls ->
  DbSet.maxId primaryKey d + Z.of_nat (length calls) <= 2 ^ 53 ->
  let results :=
    imap (fun i c => <[primaryKey := DbSet.maxId primaryKey d + 1 + Z.of_nat i]> c.1.1)
      calls in
  exists st',
    Backed.add_each primaryKey table calls st = Some (st', results) /\
    caches st' table (d ++ results) (last_time t0 calls) /\
    (calls <> [] -> queued st' table (d ++ results)) /\
    NoDup ((.!! primaryKey) <$> results).
Proof.
  intros Hc Hclock Hall Hbound. cbn zeta.
  set (m := DbSet.maxId primaryKey d) in *.
  assert (Hm0 : 0 <= m) by apply maxId_ge.
  assert (Hgen : forall calls st d0 t0 (k : nat),
            caches st table d0 t0 -> clock_runs_on t0 calls ->
            Forall (fun c => DbSet.falsy (c.1.1 !! primaryKey) = true) calls ->
            m + Z.of_nat k + Z.of_nat (length calls) <= 2 ^ 53 ->
            DbSet.maxId primaryKey d0 = m + Z.of_nat k ->
            let results :=
              imap (fun i c => <[primaryKey := m + 1 + Z.of_nat (k + i)]> c.1.1) calls in
            exists st',
              Backed.add_each primaryKey table calls st = Some (st', results) /\
              caches st' table (d0 ++ results) (last_time t0 calls) /\
              (calls <> [] -> queued st' table (d0 ++ results))).
  { clear - Hm0. intros calls.
    induction calls as [|[[entity now] now'] calls IH];
      intros st d0 t0 k Hc Hclock Hall Hbound Hmax; cbn zeta.
    - exists st. cbn. rewrite app_nil_r. split; [reflexivity|]. split; [exact Hc|].
      intros H. contradiction.
    - destruct Hclock as (Ht0 & Hnow & Hclock).
      apply Forall_cons in Hall as [Hf Hall]. cbn in Hf. cbn [length] in Hbound.
      destruct (add_cached primaryKey table entity now now' st d0 t0 Hc Ht0 Hnow)
        as (st1 & Hadd & Hc1 & Hq1).
      assert (Hn : (DbSet.add primaryKey entity d0).1 =
                   <[primaryKey := m + 1 + Z.of_nat (k + 0)]> entity).
      { unfold DbSet.add. rewrite Hf. cbn [fst]. rewrite Hmax, js_add_1 by lia.
        f_equal. lia. }
      assert (Hs : (DbSet.add primaryKey entity d0).2 =
                   d0 ++ [<[primaryKey := m + 1 + Z.of_nat (k + 0)]> entity]).
      { rewrite <- Hn. reflexivity. }
      rewrite Hn in Hadd. rewrite Hs in Hc1, Hq1.
      set (n := <[primaryKey := m + 1 + Z.of_nat (k + 0)]> entity) in *.
      assert (Hmax1 : DbSet.maxId primaryKey (d0 ++ [n]) = m + Z.of_nat (S k)).
      { rewrite maxId_snoc, Hmax. unfold DbSet.idOr0, n.
        rewrite lookup_insert_eq. cbn. lia. }
      destruct (IH st1 (d0 ++ [n]) now' (S k) Hc1 Hclock Hall ltac:(lia) Hmax1)
        as (st2 & Heach & Hc2 & Hq2).
      assert (Himap : imap (fun i c => <[primaryKey := m + 1 + Z.of_nat (S k + i)]> c.1.1) calls =
                      imap ((fun i c => <[primaryKey := m + 1 + Z.of_nat (k + i)]> c.1.1) ∘ S)
                        calls).
      { apply imap_ext. intros i c _. cbn. do 2 f_equal. lia. }
      rewrite Himap in Heach, Hc2, Hq2. rewrite <- app_assoc in Hc2, Hq2.
      exists st2. cbn [Backed.add_each]. rewrite Hadd, Heach.
      cbn [imap]. cbn [fst].
      split; [reflexivity|]. split; [exact Hc2|].
      intros _. destruct calls as [|c calls'].
      + cbn in Heach. injection Heach as <-. exact Hq1.
      + apply Hq2. discriminate. }
  destruct (Hgen calls st d t0 0%nat Hc Hclock Hall ltac:(lia) ltac:(lia))
    as (st' & Heach & Hc' & Hq').
  exists st'. split; [exact Heach|]. split; [exact Hc'|]. split; [exact Hq'|].
  apply NoDup_alt. intros i j x Hi Hj.
  rewrite list_lookup_fmap, list_lookup_imap in Hi, Hj.
  destruct (calls !! i) as [ci|] eqn:Eci; [|discriminate].
  destruct (calls !! j) as [cj|] eqn:Ecj; [|discriminate].
  cbn in Hi, Hj. rewrite lookup_insert_eq in Hi, Hj.
  rewrite <- Hj in Hi. injection Hi as Hi. lia.
Qed.

(** ** A table set at work on the sample runs *)

Lemma s2_caches_products : caches s2 "products" [r1] 1001.
Proof.
  split; [apply (invariant_reachable s2 s2_reachable)|]. split.
  - assert (Hc : cache s2 =
                 [("products"%string, {| data := 2; version := 1; lastAccess := 1000 |});
                  ("tags"%string, {| data := 3; version := 2; lastAccess := 1001 |})])
      by (vm_compute; reflexivity).
    rewrite Hc. repeat constructor; cbn; lia.
  - exists {| data := 2; version := 1; lastAccess := 1000 |}.
    split; [vm_compute; reflexivity|]. split; [|vm_compute; reflexivity].
    assert (He : elems (mem s2) 2 = [0%nat]) by (vm_compute; reflexivity).
    unfold valid_array. cbn [data]. rewrite He. repeat constructor.
    exists r1. vm_compute. reflexivity.
Defined.

Lemma add_reaches_cache_and_queue_witness :
  caches s2 "products" [r1] 1001 /\ 1001 <= 2000 /\ 2000 <= 2001 /\
  exists st',
    Backed.add "id" "products" {[ "price"%string := 5 ]} 2000 2001 s2 =
      Some (st', <[ "id"%string := 2 ]> {[ "price"%string := 5 ]}) /\
    caches st' "products" [r1; <[ "id"%string := 2 ]> {[ "price"%string := 5 ]}] 2001 /\
    queued st' "products" [r1; <[ "id"%string := 2 ]> {[ "price"%string := 5 ]}] /\
    forall now'', exists st'' copy,
      getData "products" now'' st' = (st'', Now copy) /\
      deref (mem st'') copy = [r1; <[ "id"%string := 2 ]> {[ "price"%string := 5 ]}].
Proof.
  split; [exact s2_caches_products|]. split; [lia|]. split; [lia|].
  exact (add_reaches_cache_and_queue "id" "products" {[ "price"%string := 5 ]} 2000 2001
           s2 [r1] 1001 s2_caches_products ltac:(lia) ltac:(lia)).
Defined.

Lemma adds_in_turn_number_on_witness :
  caches s2 "products" [r1] 1001 /\
  clock_runs_on 1001 [({[ "price"%string := 5 ]}, 2000, 2001);
                      ({[ "price"%string := 7 ]}, 2002, 2003)] /\
  Forall (fun c : record * Z * Z => DbSet.falsy (c.1.1 !! "id"%string) = true)
    [({[ "price"%string := 5 ]}, 2000, 2001); ({[ "price"%string := 7 ]}, 2002, 2003)] /\
  DbSet.maxId "id" [r1] + 2 <= 2 ^ 53 /\
  exists st',
    Backed.add_each "id" "products"
      [({[ "price"%string := 5 ]}, 2000, 2001); ({[ "price"%string := 7 ]}, 2002, 2003)] s2 =
      Some (st', [<[ "id"%string := 2 ]> {[ "price"%string := 5 ]};
                  <[ "id"%string := 3 ]> {[ "price"%string := 7 ]}]) /\
    caches st' "products"
      [r1; <[ "id"%string := 2 ]> {[ "price"%string := 5 ]};
           <[ "id"%string := 3 ]> {[ "price"%string := 7 ]}] 2003.
Proof.
  assert (Hclock : clock_runs_on 1001 [({[ "price"%string := 5 ]}, 2000, 2001);
                                       ({[ "price"%string := 7 ]}, 2002, 2003)])
    by (cbn; lia).
  assert (Hall : Forall (fun c : record * Z * Z => DbSet.falsy (c.1.1 !! "id"%string) = true)
            [({[ "price"%string := 5 ]}, 2000, 2001); ({[ "price"%string := 7 ]}, 2002, 2003)])
    by (repeat constructor).
  assert (Hb : DbSet.maxId "id" [r1] + 2 <= 2 ^ 53) by (vm_compute; discriminate).
  split; [exact s2_caches_products|]. split; [exact Hclock|]. split; [exact Hall|].
  split; [exact Hb|].
  destruct (adds_in_turn_number_on "id" "products" _ s2 [r1] 1001
              s2_caches_products Hclock Hall Hb) as (st' & Heach & Hc & _).
  exists st'. split; [exact Heach|exact Hc].
Defined.

(** ** Flushes among other events *)

Lemma step_or_exit_step ev st st' : step_or_exit ev st = Some st' -> step ev st = Some st'.
Proof. unfold step_or_exit. destruct (exited st); [discriminate|auto]. Qed.

(** A process that ends on an unhandled rejection goes through a run of
    the process that goes on, up to where it ends. *)
Lemma run_or_exit_run evs : forall st st',
  run_or_exit evs st = Some st' -> run evs st = Some st'.
Proof.
  induction evs as [|ev evs IH]; intros st st' H; cbn in H |- *; [exact H|].
  destruct (step_or_exit ev st) as [st1|] eqn:Hs; [|discriminate]. cbn in H.
  rewrite (step_or_exit_step _ _ _ Hs). cbn. apply IH, H.
Qed.

Lemma step_other_flush ev st st' j f :
  ~ own j ev -> step ev st = Some st' ->
  flushes st !! j = Some f -> flushes st' !! j = Some f.
Proof.
  intros Hn H Hf.
  destruct (step_flushes ev st st' H)
    as [->|[(f0 & _ & _ & _ & _ & ->)|(j0 & f1 & i & w & s & f' & Hown & _ & _ & _ & _ & ->)]].
  - exact Hf.
  - apply lookup_app_l_Some, Hf.
  - rewrite list_lookup_insert_ne; [exact Hf|]. intros ->. apply Hn, Hown.
Qed.

Lemma own_not_crosses j ev st : own j ev -> crosses j ev st = false.
Proof.
  destruct ev; cbn; try contradiction; intros ->; rewrite Nat.eqb_refl; reflexivity.
Qed.

(** An event that does not cross flush [j], and is none of its own,
    touches no file of its tables. *)
Lemma uncrossed_apart j ev st f i w :
  flushes st !! j = Some f -> writes f !! i = Some w ->
  ~ own j ev -> crosses j ev st = false -> touches (wtable w) ev st = false.
Proof.
  intros Hf Hw Hn Hc.
  assert (Hin : wtable w ∈ tables_of st j).
  { unfold tables_of. rewrite Hf. apply list_elem_of_fmap. exists w. split; [reflexivity|].
    apply list_elem_of_lookup. eauto. }
  destruct ev; cbn in *; try reflexivity.
  all: destruct (Nat.eqb_spec j0 j) as [->|Hne]; [exfalso; apply Hn; reflexivity|].
  all: cbn in Hc; destruct (write_at st j0 i0) as [w0|]; cbn;
    [|apply bool_decide_eq_false_2; discriminate].
  all: apply bool_decide_eq_false in Hc; apply bool_decide_eq_false_2.
  all: intros E; injection E as E; apply Hc; rewrite E; exact Hin.
Qed.

Lemma flush_other_step pre c j st f ev st' :
  flush_state pre c j st f -> ~ own j ev -> crosses j ev st = false ->
  step ev st = Some st' -> flush_state pre c j st' f.
Proof.
  intros [Hl Hb Hc Hnd Hd Hdir] Hn Hcr H.
  pose proof (step_dataDir _ _ _ H) as Hdir'.
  split; try assumption.
  - apply (step_other_flush ev st st' j f Hn H Hl).
  - rewrite Forall_lookup in Hd |- *. intros i w Hw.
    assert (Hwa : write_at st j i = Some w) by (unfold write_at; rewrite Hl; exact Hw).
    destruct (apart_step (wtable w) ev st st' j i w
                (uncrossed_apart j ev st f i w Hl Hw Hn Hcr) H Hwa eq_refl)
      as (_ & _ & Hfile & Htmp).
    apply (stage_on_disk_ext st st' w Hdir' Htmp Hfile), (Hd i w Hw).
  - congruence.
Qed.

Lemma own_decide j ev : own j ev \/ ~ own j ev.
Proof.
  destruct ev; cbn; try (right; tauto); destruct (decide (j0 = j)); tauto.
Qed.

(** Flush [j] among other events: it keeps the batch and stays in step with
    the disk as long as no other flush crosses it. *)
Lemma flush_uncrossed_run pre c j evs : forall st f st',
  flush_state pre c j st f -> flush_status f ->
  run_uncrossed j evs st = Some st' ->
  exists f', flush_state pre c j st' f' /\ flush_status f'.
Proof.
  induction evs as [|ev evs IH]; intros st f st' Hfs Hst Hrun; cbn in Hrun.
  - injection Hrun as <-. eauto.
  - destruct (crosses j ev st) eqn:Hcr; [discriminate|].
    destruct (step ev st) as [st1|] eqn:Hs; [|discriminate]. cbn in Hrun.
    destruct (own_decide j ev) as [Hown|Hn].
    + destruct (flush_step pre c j st f ev st1 Hfs Hst Hown Hs)
        as (i & w & s & f1 & _ & _ & Hfs1 & Hst1 & _).
      apply (IH st1 f1 st' Hfs1 Hst1 Hrun).
    + apply (IH st1 f st' (flush_other_step pre c j st f ev st1 Hfs Hn Hcr Hs) Hst Hrun).
Qed.

Lemma own_run_uncrossed j evs : forall st st',
  Forall (own j) evs -> run evs st = Some st' -> run_uncrossed j evs st = Some st'.
Proof.
  induction evs as [|ev evs IH]; intros st st' Hown H; cbn in H |- *; [exact H|].
  apply Forall_cons in Hown as [Hev Hown]. rewrite (own_not_crosses j ev st Hev).
  destruct (step ev st) as [st1|]; [|discriminate]. cbn in H |- *. apply IH; assumption.
Qed.

Lemma run_uncrossed_run j evs : forall st st',
  run_uncrossed j evs st = Some st' -> run evs st = Some st'.
Proof.
  induction evs as [|ev evs IH]; intros st st' H; cbn in H |- *; [exact H|].
  destruct (crosses j ev st); [discriminate|].
  destruct (step ev st) as [st1|]; [|discriminate]. cbn in H |- *. apply IH, H.
Qed.

(** A write that has not failed can be seen through, whatever has become
    of the other writes of the flush: its file then holds its text. *)
Lemma write_goes_through pre c j st f i w :
  flush_state pre c j st f -> flush_status f ->
  writes f !! i = Some w -> wstage w <> Failed ->
  exists st',
    run (goes_through j i (wstage w)) st = Some st' /\
    disk st' !! filePath (dataDir pre) (wtable w) = Some (wtext w).
Proof.
  intros Hfs Hst Hw Hnf.
  pose proof (fs_lookup _ _ _ _ _ Hfs) as Hl.
  assert (Hren : forall st1 f1 w1,
            flush_state pre c j st1 f1 -> flush_status f1 ->
            writes f1 !! i = Some w1 -> wstage w1 = Renaming ->
            exists st',
              run [RenameSettled j i false] st1 = Some st' /\
              disk st' !! filePath (dataDir pre) (wtable w1) = Some (wtext w1)).
  { intros st1 f1 w1 Hfs1 Hst1 Hw1 Hs1.
    destruct (flush_renamed pre c j st1 f1 i w1 Hfs1 Hst1 Hw1 Hs1)
      as (Htmp & f2 & Hfs2 & _ & Hw2 & _).
    cbn zeta in Htmp, Hfs2. eexists. split.
    - cbn. unfold rename_settled. rewrite (fs_lookup _ _ _ _ _ Hfs1). cbn.
      rewrite Hw1. cbn. rewrite Hs1, Htmp. reflexivity.
    - pose proof (fs_disk _ _ _ _ _ Hfs2) as Hd. rewrite Forall_lookup in Hd.
      specialize (Hd i (restage w1 Persisted)). rewrite Hw2 in Hd.
      rewrite list_lookup_insert_eq in Hd by (eapply lookup_lt_Some, Hw1).
      specialize (Hd eq_refl). unfold stage_on_disk in Hd. cbn in Hd.
      rewrite (fs_dataDir _ _ _ _ _ Hfs2) in Hd. exact Hd. }
  destruct (wstage w) eqn:Hs; try congruence.
  - destruct (flush_written pre c j st f i w Hfs Hst Hw Hs) as (Hfs1 & Hst1 & _).
    cbn zeta in Hfs1, Hst1.
    destruct (Hren _ _ (restage w Renaming) Hfs1 Hst1) as (st' & Hrun & Hd);
      [cbn; apply list_lookup_insert_eq; eapply lookup_lt_Some, Hw|reflexivity|].
    exists st'. split; [|exact Hd].
    cbn [goes_through run]. cbn [step]. unfold writeFile_settled. rewrite Hl. cbn.
    rewrite Hw. cbn. rewrite Hs. cbn. cbn in Hrun. exact Hrun.
  - apply (Hren st f w Hfs Hst Hw Hs).
  - exists st. split; [reflexivity|].
    pose proof (fs_disk _ _ _ _ _ Hfs) as Hd. rewrite Forall_lookup in Hd.
    specialize (Hd i w Hw). unfold stage_on_disk in Hd. rewrite Hs in Hd.
    rewrite (fs_dataDir _ _ _ _ _ Hfs) in Hd. exact Hd.
Qed.

(** ** What a flush achieves *)




(** ** Write coalescing *)





(** ** Atomic replace *)

(** C6 fails on the code: two persists of one table can be under way at
    once, and they share the temporary file.  Here the rename of the first
    moves what the second, broken off, left there: [products.json] ends up
    holding a truncated text, and the first flush resolves and reports the
    table written. *)
Lemma overlapping_persists_tear_the_file :
  ((fun st => (disk st !! filePath "data" "products",
               disk st !! tempPath "data" "products",
               emitted st, status <$> flushes st, exited st))
     <$> run_or_exit overlapping_persists s0) =
  Some (Some (Partial [r2]), None, ["products"%string], [Resolved; Aborted], false).
Proof. vm_compute. reflexivity. Qed.

(** A persist on its own: whatever else happens meanwhile, short of a file
    operation of another write for the same table. *)
Lemma persist_apart st j i w evs1 st1 :
  write_at st j i = Some w -> wstage w = Writing ->
  let table := wtable w in
  let file := filePath (dataDir st) table in
  let tmp := tempPath (dataDir st) table in
  let old := disk st !! file in
  run_apart table evs1 st = Some st1 ->
  disk st1 !! file = old /\
  (forall b, step (RenameSettled j i b) st1 = None) /\
  forall fault,
    exists st2,
      step (WriteFileSettled j i fault) st1 = Some st2 /\
      disk st2 !! file = old /\
      forall evs2 st3,
        run_apart table evs2 st2 = Some st3 ->
        disk st3 !! file = old /\
        match fault with
        | Some _ => forall b, step (RenameSettled j i b) st3 = None
        | None =>
            disk st3 !! tmp = Some (wtext w) /\
            forall b,
              exists st4,
                step (RenameSettled j i b) st3 = Some st4 /\
                disk st4 !! file = (if b then old else Some (wtext w)) /\
                forall evs3 st5,
                  run_apart table evs3 st4 = Some st5 ->
                  disk st5 !! file = disk st4 !! file
        end.
Proof.
  intros Hw Hs table file tmp old Hrun1. subst table file tmp old.
  destruct (apart_run _ evs1 st st1 j i w Hrun1 Hw eq_refl) as (Hw1 & Hd1 & Hf1 & Ht1).
  split; [exact Hf1|]. split.
  { intros b. cbn. unfold rename_settled.
    destruct (write_at_inv _ _ _ _ Hw1) as (f1 & Hfl & Hwi).
    rewrite Hfl. cbn. rewrite Hwi. cbn. rewrite Hs. reflexivity. }
  intros fault.
  destruct (writeFile_settled_effect st1 j i w fault Hw1 Hs) as (st2 & Hstep & Hd2 & Hf2 & Hres).
  rewrite Hd1 in Hf2, Hres.
  exists st2. split; [exact Hstep|]. split; [rewrite Hf2; exact Hf1|].
  intros evs2 st3 Hrun2.
  destruct fault as [torn|].
  - destruct (apart_run _ evs2 st2 st3 j i _ Hrun2 Hres eq_refl) as (Hw3 & Hd3 & Hf3 & Ht3).
    cbn [wtable restage] in Hf3. rewrite Hd2, Hd1 in Hf3.
    split; [rewrite Hf3, Hf2; exact Hf1|].
    intros b. cbn. unfold rename_settled.
    destruct (write_at_inv _ _ _ _ Hw3) as (f3 & Hfl & Hwi).
    rewrite Hfl. cbn. rewrite Hwi. reflexivity.
  - destruct Hres as [Hw2 Htmp2].
    destruct (apart_run _ evs2 st2 st3 j i _ Hrun2 Hw2 eq_refl) as (Hw3 & Hd3 & Hf3 & Ht3).
    cbn [wtable restage] in Hf3, Ht3. rewrite Hd2, Hd1 in Hf3, Ht3.
    split; [rewrite Hf3, Hf2; exact Hf1|].
    split; [rewrite Ht3; exact Htmp2|].
    intros b.
    destruct (rename_settled_effect st3 j i (restage w Renaming) b Hw3 eq_refl)
      as (st4 & Hstep4 & Hd4 & Hw4 & Hf4).
    { cbn [wtable wtext restage]. rewrite Hd3, Hd2, Hd1, Ht3. exact Htmp2. }
    cbn [wtable wtext restage] in Hf4. rewrite Hd3, Hd2, Hd1 in Hf4.
    exists st4. split; [exact Hstep4|]. split.
    { rewrite Hf4. destruct b; [|reflexivity]. rewrite Hf3, Hf2. exact Hf1. }
    intros evs3 st5 Hrun3.
    destruct (apart_run _ evs3 st4 st5 j i _ Hrun3 Hw4 eq_refl) as (_ & _ & Hf5 & _).
    cbn [wtable restage] in Hf5. rewrite Hd4, Hd3, Hd2, Hd1 in Hf5. exact Hf5.
Qed.

Lemma write_at_flushWrites_new c pre i table a :
  writeQueue pre !! i = Some (table, a) ->
  write_at (flushWrites c pre) (length (flushes pre)) i = Some (writeToDisk table a pre).
Proof.
  intros Hi.
  assert (Hne : writeQueue pre <> []) by (intros E; rewrite E in Hi; discriminate).
  rewrite (flushWrites_started c pre Hne). unfold write_at. cbn.
  rewrite lookup_app_r by lia. rewrite Nat.sub_diag. cbn.
  rewrite list_lookup_fmap, Hi. reflexivity.
Qed.



(** ** Teardown *)

(** C10 fails on the code: a write is queued while an earlier flush of the
    same table is still under way; [close] flushes the queue, its flush
    resolves, the cache is cleared and [close] is through; then the earlier
    write and its rename settle, and the file holds the older records.  The
    write that was queued, [[r2]], is nowhere, and nothing has failed.  And
    once the timer has fired [close] waits for nothing: it clears the cache
    and is through while the write that was accepted is still under way,
    with no file of the table yet. *)
Lemma close_loses_the_queued_write :
  deref (mem s0) 0 = [r1] /\ deref (mem s0) 1 = [r2] /\
  ((fun st => (disk st !! filePath "data" "products" ≫= JSON_parse,
               cache st, writeQueue st, writeTimer st,
               status <$> flushes st, exited st))
     <$> run_or_exit close_overtakes s0) =
  Some (Some [r1], [], [], false, [Resolved; Resolved], false) /\
  ((fun st => (disk st !! filePath "data" "products", cache st,
               (fun f => (status f, closing f)) <$> flushes st))
     <$> run_or_exit [SaveData "products" 0 1000; TimerFired; Close] s0) =
  Some (None, [], [(Pending, false)]).
Proof. repeat split; vm_compute; reflexivity. Qed.



(** ** Isolation of the cached snapshot *)

Lemma get_filter_Some {V} (K : list string) (m : list (string * V)) k v :
  JsMap.get (filter (fun p => p.1 ∉ K) m) k = Some v -> JsMap.get m k = Some v.
Proof.
  destruct (decide (k ∈ K)) as [Hin|Hnin]; [|rewrite get_filter_keys by exact Hnin; auto].
  induction m as [|[k' v'] m IH]; [discriminate|].
  rewrite filter_cons. cbn. destruct (decide (k' ∉ K)) as [Hk|Hk]; cbn.
  - destruct (decide (k' = k)) as [->|Hne]; [contradiction|exact IH].
  - intros H. destruct (decide (k' = k)) as [->|Hne]; [|exact (IH H)].
    specialize (IH H). clear -IH Hin H.
    exfalso. revert H. clear IH. induction m as [|[k1 v1] m IHm]; [discriminate|].
    rewrite filter_cons. cbn. destruct (decide (k1 ∉ K)) as [Hk1|Hk1]; cbn.
    + destruct (decide (k1 = k)) as [->|Hne]; [contradiction|exact IHm].
    + exact IHm.
Qed.

(** What is in the cache after an eviction was there before it. *)
Lemma get_evict_Some c k v : JsMap.get (evict c) k = Some v -> JsMap.get c k = Some v.
Proof.
  unfold evict. destruct (50 <? JsMap.size c)%nat; [|auto]. cbn zeta.
  rewrite forEach_delete. apply get_filter_Some.
Qed.

(** C9 as stated fails, in two ways.  The copy the cache keeps is a copy
    of the array, not of its records: a caller that alters a record through
    the array it passed to [saveData] alters what the cache answers, [[r1]]
    was stored and [getData] returns [[r3]].  And the stored copy does not
    stay the cached one until the next write: the tenth read of the table,
    under way when [saveData] stored [[r1]], promotes what it read when it
    settles, and with no write and nothing altered [getData] answers [[]]
    from the cache. *)
Lemma cached_snapshot_not_isolated :
  deref (mem s0) 0 = [r1] /\
  (fun st => answered (getData "products" 1002 st))
    <$> run [SaveData "products" 0 1000; MutateRecord 0 r3] s0 =
  Some (Some [r3]) /\
  r3 <> r1 /\
  (fun st => answered (getData "products" 1000 st))
    <$> run (take 20%nat stale_promotion) s0 = Some (Some [r1]) /\
  (fun st => answered (getData "products" 1002 st))
    <$> run stale_promotion s0 = Some (Some []).
Proof.
  split; [reflexivity|]. split; [vm_compute; reflexivity|]. split.
  { intros E. apply (f_equal (fun r : record => r !! "id"%string)) in E.
    vm_compute in E. discriminate E. }
  split; vm_compute; reflexivity.
Qed.

(** C9, amended.  Every promotion stores a frozen copy of the array it is
    given: a new array, holding the references the given one holds.
    Nothing that happens afterwards changes that array: not what callers do
    to the arrays they hold, the one passed to [saveData] and the answers of
    [getData] among them, and nothing else.  As long as it is the cached
    entry of the table, [getData] answers with a new array again, which is
    not frozen and holds the stored references in the stored order; what
    callers do to their arrays and reading leave it the cached entry.  The
    records are shared: they are those that were stored as long as no
    record has been altered. *)
Theorem cache_snapshot_isolation table a now st :
  let stored := next_array (mem st) in
  let st1 := saveData table a now st in
  frozen_at (mem (addToCache table a now st)) stored (elems (mem st) a) /\
  frozen_at (mem st1) stored (elems (mem st) a) /\
  ((a < next_array (mem st))%nat -> stored <> a) /\
  (forall e, JsMap.get (cache st1) table = Some e -> data e = stored) /\
  (invariant st -> Forall (fun p => lastAccess p.2 <= now) (cache st) ->
   data <$> JsMap.get (cache st1) table = Some stored) /\
  forall evs st2,
    run evs st1 = Some st2 ->
    frozen_at (mem st2) stored (elems (mem st) a) /\
    (Forall caller_array_use evs ->
     data <$> JsMap.get (cache st2) table = data <$> JsMap.get (cache st1) table) /\
    (data <$> JsMap.get (cache st2) table = Some stored ->
     forall now',
       exists st3 copy,
         getData table now' st2 = (st3, Now copy) /\
         copy = next_array (mem st2) /\ copy <> stored /\
         is_frozen (mem st3) copy = false /\
         elems (mem st3) copy = elems (mem st) a /\
         frozen_at (mem st3) stored (elems (mem st) a) /\
         data <$> JsMap.get (cache st3) table = Some stored /\
         (forallb (fun ev => negb (is_MutateRecord ev)) evs = true ->
          valid_array (mem st) a ->
          deref (mem st3) copy = deref (mem st) a)).
Proof.
  intros stored st1.
  assert (Hf1 : frozen_at (mem st1) stored (elems (mem st) a)).
  { unfold st1, frozen_at. rewrite saveData_mem. apply new_array_lookup_new. }
  split; [rewrite mem_addToCache; apply new_array_lookup_new|].
  split; [exact Hf1|]. split; [unfold stored; lia|]. split.
  { intros e He. unfold st1 in He. rewrite saveData_cache, addToCache_cache in He.
    apply get_evict_Some in He. rewrite get_set_eq in He. injection He as <-.
    reflexivity. }
  split.
  { intros Hinv Hclock. unfold st1. rewrite saveData_cache.
    rewrite (addToCache_resident table a now (with_version (S (this_version st)) st));
      [reflexivity|apply (inv_cache_wf _ Hinv)|apply (inv_cache_size _ Hinv)|exact Hclock]. }
  intros evs st2 Hrun.
  assert (Hf2 : frozen_at (mem st2) stored (elems (mem st) a))
    by (apply (heap_le_run _ _ _ Hrun), Hf1).
  split; [exact Hf2|]. split.
  { intros Hevs. apply (cached_data_caller_run evs table _ _ Hevs Hrun). }
  intros Hres now'.
  destruct (getData_copies_frozen table now' st2 stored _ Hf2 Hres)
    as (st3 & copy & Hget & Hcopy & Hel & Hnf & Hobjs & Hf3 & Hres3 & _).
  exists st3, copy. split; [exact Hget|]. split; [exact Hcopy|]. split.
  { apply frozen_at_lt in Hf2. lia. }
  split; [exact Hnf|]. split; [exact Hel|]. split; [exact Hf3|]. split; [exact Hres3|].
  intros Hquiet Hvalid. unfold deref. rewrite Hel, Hobjs.
  apply omap_lookup_prefix; [|exact Hvalid].
  transitivity (objs (mem st1)).
  - unfold st1. rewrite saveData_mem. reflexivity.
  - apply (objs_prefix_run _ _ _ Hrun Hquiet).
Qed.

Lemma cache_snapshot_isolation_witness :
  Forall caller_array_use [MutateArray 0 [1%nat]; GetData "products" 1001; MutateArray 3 []] /\
  exists st2 st3 copy,
    run [MutateArray 0 [1%nat]; GetData "products" 1001; MutateArray 3 []]
      (saveData "products" 0 1000 s0) = Some st2 /\
    deref (mem st2) 0 = [r2] /\
    getData "products" 1002 st2 = (st3, Now copy) /\
    is_frozen (mem st3) copy = false /\
    deref (mem st3) copy = [r1].
Proof.
  assert (Hinv : invariant s0) by apply invariant_connected.
  assert (Hclock : Forall (fun p : string * CacheEntry => lastAccess p.2 <= 1000)
                     (cache s0)) by constructor.
  assert (Hevs : Forall caller_array_use
                   [MutateArray 0 [1%nat]; GetData "products" 1001; MutateArray 3 []])
    by (repeat constructor).
  split; [exact Hevs|].
  destruct (cache_snapshot_isolation "products" 0 1000 s0)
    as (_ & _ & _ & _ & Hres & Hiso).
  specialize (Hres Hinv Hclock).
  destruct (run [MutateArray 0 [1%nat]; GetData "products" 1001; MutateArray 3 []]
              (saveData "products" 0 1000 s0)) as [st2|] eqn:Hrun;
    [|vm_compute in Hrun; discriminate Hrun].
  assert (E2 : Some st2 = run [MutateArray 0 [1%nat]; GetData "products" 1001; MutateArray 3 []]
                             (saveData "products" 0 1000 s0))
    by (symmetry; exact Hrun).
  destruct (Hiso _ st2 Hrun) as (_ & Hkeep & Hget).
  specialize (Hkeep Hevs). rewrite Hres in Hkeep.
  destruct (Hget Hkeep 1002) as (st3 & copy & H1 & _ & _ & Hnf & _ & _ & _ & Hd).
  exists st2, st3, copy. split; [reflexivity|]. split.
  { assert (E : (fun s => deref (mem s) 0) <$> Some st2 = Some [r2])
      by (rewrite E2; vm_compute; reflexivity).
    injection E as E. exact E. }
  split; [exact H1|]. split; [exact Hnf|].
  assert (Hv : valid_array (mem s0) 0) by (repeat constructor; vm_compute; eauto).
  rewrite (Hd eq_refl Hv). reflexivity.
Defined.
